(** * Memory Scramble: the Board ADT of [src/board.ts]

    A shallow embedding of the mutable [Board] class (cell grid, player
    registry, per-cell FIFO wait queues, watcher list, [map]/[mapCards])
    together with the properties its specification states about it, and
    of the file reader [parseFromFile] and the glue of [src/commands.ts]
    with further properties of the code.

    JavaScript numbers used as coordinates are modelled as [Z]; strings are
    sequences of code units below 256 ([string]); a thrown [Error] is an
    [Error] constructor named after its message; a [Deferred] object is
    the natural number identifying it. *)

From Stdlib Require Import ZArith Lia Ascii String.
From stdpp Require Import gmap strings list fin_maps pretty.

Local Open Scope Z_scope.

(** ** Data model *)

Definition PlayerID := string.

Record Pos := mkPos { r : Z; c : Z }.

#[global] Instance Pos_eq_dec : EqDecision Pos.
Proof. solve_decision. Defined.

Record Slot := mkSlot {
  label : string;
  faceUp : bool;
  controller : option PlayerID
}.

Inductive PendingOutcome :=
| matched (first second : Pos)
| mismatched (first second : Pos).

Definition outcomeFirst (o : PendingOutcome) : Pos :=
  match o with matched a _ | mismatched a _ => a end.

Definition outcomeSecond (o : PendingOutcome) : Pos :=
  match o with matched _ b | mismatched _ b => b end.

(** A [Deferred<void>] is identified by the order of its allocation. *)
Definition Deferred := nat.

(** The fields of the class, followed by the two pieces of the promise
    runtime the class acts on: the deferreds whose [resolve] has been
    called (in call order) and the number of deferreds created so far. *)
Record Board := mkBoard {
  rows : Z;
  cols : Z;
  grid : list (list (option Slot));
  firstSelection : gmap PlayerID Pos;
  pending : gmap PlayerID (option PendingOutcome);
  waitQueues : gmap (Z * Z) (list Deferred);
  watchers : list Deferred;
  resolved : list Deferred;
  allocated : nat
}.

Definition set_grid (g : list (list (option Slot))) (b : Board) : Board :=
  mkBoard (rows b) (cols b) g (firstSelection b) (pending b)
          (waitQueues b) (watchers b) (resolved b) (allocated b).

Definition set_firstSelection (f : gmap PlayerID Pos) (b : Board) : Board :=
  mkBoard (rows b) (cols b) (grid b) f (pending b)
          (waitQueues b) (watchers b) (resolved b) (allocated b).

Definition set_pending (p : gmap PlayerID (option PendingOutcome)) (b : Board) : Board :=
  mkBoard (rows b) (cols b) (grid b) (firstSelection b) p
          (waitQueues b) (watchers b) (resolved b) (allocated b).

Definition set_waitQueues (q : gmap (Z * Z) (list Deferred)) (b : Board) : Board :=
  mkBoard (rows b) (cols b) (grid b) (firstSelection b) (pending b)
          q (watchers b) (resolved b) (allocated b).

Definition set_watchers (w : list Deferred) (b : Board) : Board :=
  mkBoard (rows b) (cols b) (grid b) (firstSelection b) (pending b)
          (waitQueues b) w (resolved b) (allocated b).

Definition set_resolved (d : list Deferred) (b : Board) : Board :=
  mkBoard (rows b) (cols b) (grid b) (firstSelection b) (pending b)
          (waitQueues b) (watchers b) d (allocated b).

Definition set_allocated (n : nat) (b : Board) : Board :=
  mkBoard (rows b) (cols b) (grid b) (firstSelection b) (pending b)
          (waitQueues b) (watchers b) (resolved b) n.

(** ** Errors

    One constructor per message thrown in [board.ts]. *)
Inductive Error :=
| OutOfBounds            (* "Out of bounds (r,c)" *)
| EmptySpace             (* "1-A: empty space" *)
| Contested              (* "1-D: card is controlled by another player" *)
| NoFirst                (* "No first card selected for this player" *)
| EmptyTarget            (* "2-A: second position is empty" *)
| SecondContested        (* "2-B: second card is controlled" *)
| InvalidLabel           (* "invalid transformed card" *)
| InternalFirstMissing   (* "Internal: first selection missing" *)
| InternalMissingLabel   (* "Internal: missing label" *)
| RIRowIndex             (* "RI: row index out of bounds" *)
| RIColIndex             (* "RI: column index out of bounds" *)
| RIRowCount             (* "RI: wrong row count" *)
| RIColCount             (* "RI: wrong col count" *)
| RIBadLabel             (* "RI: bad label" *)
| RIFaceDownControlled   (* "RI: face-down card cannot be controlled" *)
| RIPendingOOB.          (* "RI: pending pos OOB" *)

#[global] Instance Error_eq_dec : EqDecision Error.
Proof. solve_decision. Defined.

(** ** A state-and-exception monad for the methods

    A method either completes normally or throws; either way the board is
    left as it was at that moment. *)
Inductive Completion (A : Type) :=
| Normal (a : A)
| Thrown (e : Error).
Arguments Normal {A} a.
Arguments Thrown {A} e.

Definition M (A : Type) : Type := Board -> Completion A * Board.

Definition ret {A} (a : A) : M A := fun b => (Normal a, b).

Definition throw {A} (e : Error) : M A := fun b => (Thrown e, b).

Definition bind {A B} (m : M A) (k : A -> M B) : M B :=
  fun b =>
    match m b with
    | (Normal a, b') => k a b'
    | (Thrown e, b') => (Thrown e, b')
    end.

Definition get : M Board := fun b => (Normal b, b).

Definition modify (f : Board -> Board) : M unit := fun b => (Normal tt, f b).

Declare Scope board_scope.
Delimit Scope board_scope with board.
Notation "'let*' x ':=' m 'in' k" := (bind m (fun x => k))
  (at level 10, x name, m at level 100, k at level 200) : board_scope.
Notation "m1 ';;' m2" := (bind m1 (fun _ => m2))
  (at level 100, m2 at level 200, right associativity) : board_scope.
Local Open Scope board_scope.

(** [for (const x of xs) body(x)] *)
Fixpoint forEach {A} (xs : list A) (body : A -> M unit) : M unit :=
  match xs with
  | [] => ret tt
  | x :: xs' => body x ;; forEach xs' body
  end.

(** A loop that threads a local variable through its iterations. *)
Fixpoint foldM {A S} (xs : list A) (body : S -> A -> M S) (s : S) : M S :=
  match xs with
  | [] => ret s
  | x :: xs' => let* s' := body s x in foldM xs' body s'
  end.

(** ** Labels: the card regular expression [/^[^\s\n\r]+$/u]

    On code units below 256 the class [\s] is tab, line feed, vertical
    tab, form feed, carriage return, space and no-break space. *)
Definition isSpace (a : ascii) : bool :=
  let n := N_of_ascii a in
  ((9 <=? n)%N && (n <=? 13)%N) || (n =? 32)%N || (n =? 160)%N.

Fixpoint hasSpace (s : string) : bool :=
  match s with
  | EmptyString => false
  | String a s' => isSpace a || hasSpace s'
  end.

Definition cardRe (s : string) : bool :=
  negb (String.length s =? 0)%nat && negb (hasSpace s).

(** ** Grid helpers *)

(** [this.grid[i]], [undefined] when there is no such row. *)
Definition gridRow (g : list (list (option Slot))) (i : Z) : option (list (option Slot)) :=
  if i <? 0 then None else g !! Z.to_nat i.

(** [row[j] ?? null] *)
Definition rowCell (row : list (option Slot)) (j : Z) : option Slot :=
  if j <? 0 then None else
    match row !! Z.to_nat j with
    | Some cell => cell
    | None => None
    end.

Definition row (i : Z) : M (list (option Slot)) :=
  let* b := get in
  match gridRow (grid b) i with
  | None => throw RIRowIndex
  | Some rw => ret rw
  end.

Definition getCell (i j : Z) : M (option Slot) :=
  let* rw := row i in
  ret (rowCell rw j).

(** [row[j] = val] on a JavaScript array: writing past the end extends it
    (the holes read back as [null] through [?? null]). *)
Definition arraySet {A} (l : list (option A)) (j : nat) (v : option A) : list (option A) :=
  if (j <? length l)%nat then <[j := v]> l
  else l ++ replicate (j - length l) None ++ [v].

Definition setCell (i j : Z) (val : option Slot) : M unit :=
  let* rw := row i in
  let* b := get in
  if (j <? 0) || (j >=? cols b) then throw RIColIndex
  else modify (fun b => set_grid (<[Z.to_nat i := arraySet rw (Z.to_nat j) val]> (grid b)) b).

(** A field write [cell.f = v] on the slot object read from position
    [(i, j)]: the object stays where it is in the grid. *)
Definition alterAt (g : list (list (option Slot))) (i j : Z) (f : Slot -> Slot)
  : list (list (option Slot)) :=
  if (i <? 0) || (j <? 0) then g
  else alter (alter (fmap f) (Z.to_nat j)) (Z.to_nat i) g.

Definition updSlot (p : Pos) (f : Slot -> Slot) : M unit :=
  modify (fun b => set_grid (alterAt (grid b) (r p) (c p) f) b).

Definition withFaceUp (v : bool) (s : Slot) : Slot :=
  mkSlot (label s) v (controller s).

Definition withController (v : option PlayerID) (s : Slot) : Slot :=
  mkSlot (label s) (faceUp s) v.

Definition withLabel (v : string) (s : Slot) : Slot :=
  mkSlot v (faceUp s) (controller s).

Definition withinB (b : Board) (p : Pos) : bool :=
  (r p >=? 0) && (r p <? rows b) && (c p >=? 0) && (c p <? cols b).

Definition within (p : Pos) : M bool :=
  let* b := get in ret (withinB b p).

Definition slotAt (p : Pos) : M (option Slot) :=
  let* ok := within p in
  if ok then getCell (r p) (c p) else throw OutOfBounds.

(** ** Wait queues and watchers *)

(** The key ["r,c"] of a position; decimal rendering is injective on
    integer coordinates, so the pair itself is used. *)
Definition key (p : Pos) : Z * Z := (r p, c p).

(** [new Deferred()] *)
Definition newDeferred : M Deferred :=
  let* b := get in
  modify (set_allocated (S (allocated b))) ;;
  ret (allocated b).

(** [d.resolve()] *)
Definition resolve (d : Deferred) : M unit :=
  modify (fun b => set_resolved (resolved b ++ [d]) b).

Definition enqueueAndWait (p : Pos) : M Deferred :=
  let k := key p in
  let* b := get in
  let q := match waitQueues b !! k with Some q => q | None => [] end in
  let* d := newDeferred in
  modify (fun b => set_waitQueues (<[k := q ++ [d]]> (waitQueues b)) b) ;;
  ret d.

Definition wakeNext (p : Pos) : M unit :=
  let k := key p in
  let* b := get in
  match waitQueues b !! k with
  | Some (d :: q') =>
      modify (fun b => set_waitQueues (<[k := q']> (waitQueues b)) b) ;;
      resolve d
  | _ => ret tt
  end.

Definition notifyChange : M unit :=
  let* b := get in
  match watchers b with
  | [] => ret tt
  | waiters =>
      modify (set_watchers []) ;;
      forEach waiters resolve
  end.

(** ** The representation invariant check *)

Definition checkSlot (cell : Slot) : M unit :=
  if negb (cardRe (label cell)) then throw RIBadLabel
  else if negb (faceUp cell) && bool_decide (controller cell <> None)
       then throw RIFaceDownControlled
       else ret tt.

Definition checkPending (out : option PendingOutcome) : M unit :=
  match out with
  | None => ret tt
  | Some out =>
      forEach [outcomeFirst out; outcomeSecond out] (fun p =>
        let* ok := within p in
        if ok then ret tt else throw RIPendingOOB)
  end.

Definition checkRep : M unit :=
  let* b := get in
  (if bool_decide (Z.of_nat (length (grid b)) <> rows b) then throw RIRowCount else ret tt) ;;
  forEach (grid b) (fun rw =>
    if bool_decide (Z.of_nat (length rw) <> cols b) then throw RIColCount else ret tt) ;;
  forEach (seqZ 0 (rows b)) (fun i =>
    forEach (seqZ 0 (cols b)) (fun j =>
      let* cell := getCell i j in
      match cell with
      | None => ret tt
      | Some cell => checkSlot cell
      end)) ;;
  forEach (map_to_list (pending b)) (fun entry => checkPending (snd entry)).

(** ** Construction

    [new Board(rows, cols, labels)]: every card starts face down and
    uncontrolled; a missing label aborts the construction. *)
Fixpoint traverse {A B} (f : A -> option B) (xs : list A) : option (list B) :=
  match xs with
  | [] => Some []
  | x :: xs' =>
      match f x with
      | None => None
      | Some y =>
          match traverse f xs' with
          | None => None
          | Some ys => Some (y :: ys)
          end
      end
  end.

Definition initialGrid (nrows ncols : Z) (labels : list string)
  : option (list (list (option Slot))) :=
  traverse (fun i =>
    traverse (fun j =>
      match labels !! Z.to_nat (i * ncols + j) with
      | None => None
      | Some l => Some (Some (mkSlot l false None))
      end) (seqZ 0 ncols)) (seqZ 0 nrows).

Definition newBoard (nrows ncols : Z) (labels : list string) : Completion Board :=
  match initialGrid nrows ncols labels with
  | None => Thrown InternalMissingLabel
  | Some g =>
      let b := mkBoard nrows ncols g ∅ ∅ ∅ [] [] 0 in
      match checkRep b with
      | (Normal _, b') => Normal b'
      | (Thrown e, _) => Thrown e
      end
  end.

(** ** Cleanup: rules 3-A and 3-B *)

Definition hasFirstSelection (p : PlayerID) : M bool :=
  let* b := get in ret (bool_decide (is_Some (firstSelection b !! p))).

Definition settleBeforeNewFirstMove (p : PlayerID) : M unit :=
  let* b := get in
  match pending b !! p with
  | None | Some None => ret tt
  | Some (Some outcome) =>
      match outcome with
      | matched a b' =>
          setCell (r a) (c a) None ;;
          setCell (r b') (c b') None ;;
          wakeNext a ;;
          wakeNext b' ;;
          notifyChange
      | mismatched first second =>
          let* flipped :=
            foldM [first; second] (fun flipped q =>
              let* cell := getCell (r q) (c q) in
              match cell with
              | Some cell =>
                  if faceUp cell && bool_decide (controller cell = None)
                  then updSlot q (withFaceUp false) ;; ret true
                  else ret flipped
              | None => ret flipped
              end) false in
          if flipped then notifyChange else ret tt
      end ;;
      modify (fun b => set_pending (<[p := None]> (pending b)) b) ;;
      checkRep
  end.

(** ** First card, without waiting *)

Definition takeFirst (pos : Pos) (player : PlayerID) : M unit :=
  modify (fun b => set_firstSelection (<[player := pos]> (firstSelection b)) b).

Definition flipFirst (pos : Pos) (player : PlayerID) : M unit :=
  settleBeforeNewFirstMove player ;;
  let* slot := slotAt pos in
  match slot with
  | None => throw EmptySpace
  | Some slot =>
      (if negb (faceUp slot) then
         updSlot pos (withFaceUp true) ;;
         updSlot pos (withController (Some player)) ;;
         notifyChange
       else if bool_decide (controller slot = None)
               || bool_decide (controller slot = Some player) then
         updSlot pos (withController (Some player))
       else
         throw Contested) ;;
      takeFirst pos player ;;
      checkRep
  end.

(** ** Second card *)

Definition relinquishFirstOnly (player : PlayerID) : M unit :=
  let* b := get in
  match firstSelection b !! player with
  | None => ret tt
  | Some first =>
      let* s1 := slotAt first in
      match s1 with
      | Some _ => updSlot first (withController None) ;; wakeNext first
      | None => ret tt
      end ;;
      modify (fun b => set_firstSelection (delete player (firstSelection b)) b) ;;
      checkRep
  end.

Definition flipSecond (pos : Pos) (player : PlayerID) : M unit :=
  let* b := get in
  match firstSelection b !! player with
  | None => throw NoFirst
  | Some first =>
      let* inside := within pos in
      let* s2 := (if inside then getCell (r pos) (c pos) else ret None) in
      match s2 with
      | None => relinquishFirstOnly player ;; throw EmptyTarget
      | Some s2 =>
          if faceUp s2 && bool_decide (controller s2 <> None) then
            relinquishFirstOnly player ;; throw SecondContested
          else
            let turnedUp := negb (faceUp s2) in
            (if turnedUp then updSlot pos (withFaceUp true) else ret tt) ;;
            let* s1 := slotAt first in
            match s1 with
            | None => throw InternalFirstMissing
            | Some s1 =>
                (if bool_decide (label s1 = label s2) then
                   updSlot first (withController (Some player)) ;;
                   updSlot pos (withController (Some player)) ;;
                   modify (fun b =>
                     set_pending (<[player := Some (matched first pos)]> (pending b)) b)
                 else
                   updSlot first (withController None) ;;
                   updSlot pos (withController None) ;;
                   wakeNext first ;;
                   wakeNext pos ;;
                   modify (fun b =>
                     set_pending (<[player := Some (mismatched first pos)]> (pending b)) b)) ;;
                (if turnedUp then notifyChange else ret tt) ;;
                modify (fun b => set_firstSelection (delete player (firstSelection b)) b) ;;
                checkRep
            end
      end
  end.

(** ** Asynchronous variants

    An [async] method runs up to its first [await] on a pending promise
    and gives control back: [Await d] records that the call is parked on
    deferred [d]; [Done] that its promise is fulfilled.  A thrown error is
    a rejected promise. *)
Inductive Step :=
| Done
| Await (d : Deferred).

(** One pass through the body of the [while (true)] loop. *)
Definition flipFirstAsync_loop (pos : Pos) (player : PlayerID) : M Step :=
  let* slot := slotAt pos in
  match slot with
  | None => throw EmptySpace
  | Some slot =>
      if negb (faceUp slot) then
        updSlot pos (withFaceUp true) ;;
        updSlot pos (withController (Some player)) ;;
        notifyChange ;;
        takeFirst pos player ;;
        checkRep ;;
        ret Done
      else if bool_decide (controller slot = None)
              || bool_decide (controller slot = Some player) then
        updSlot pos (withController (Some player)) ;;
        takeFirst pos player ;;
        checkRep ;;
        ret Done
      else
        let* d := enqueueAndWait pos in
        ret (Await d)
  end.

Definition flipFirstAsync (pos : Pos) (player : PlayerID) : M Step :=
  settleBeforeNewFirstMove player ;;
  flipFirstAsync_loop pos player.

(** The continuation of a parked [flipFirstAsync] once its deferred has
    been resolved: back to the top of the loop. *)
Definition flipFirstAsync_resume (pos : Pos) (player : PlayerID) : M Step :=
  flipFirstAsync_loop pos player.

Definition flipSecondAsync (pos : Pos) (player : PlayerID) : M Step :=
  flipSecond pos player ;; ret Done.

(** ** Snapshot and watch *)

Definition spot (forPlayer : PlayerID) (cell : option Slot) : string :=
  match cell with
  | None => "none"
  | Some cell =>
      if negb (faceUp cell) then "down"
      else if bool_decide (controller cell = Some forPlayer)
           then "my " +:+ label cell
           else "up " +:+ label cell
  end.

Definition snapshotLines (forPlayer : PlayerID) : M (list string) :=
  let* b := get in
  foldM (seqZ 0 (rows b)) (fun out i =>
    foldM (seqZ 0 (cols b)) (fun out j =>
      let* cell := getCell i j in
      ret (out ++ [spot forPlayer cell])) out)
    [pretty (rows b) +:+ "x" +:+ pretty (cols b)].

Definition newline : string := String (ascii_of_nat 10) EmptyString.

Definition snapshot (forPlayer : PlayerID) : M string :=
  let* out := snapshotLines forPlayer in
  ret (String.concat newline out +:+ newline).

(** [watch] parks on a new deferred pushed on [watchers]; its
    continuation returns [snapshot forPlayer]. *)
Definition watch (forPlayer : PlayerID) : M Step :=
  let* d := newDeferred in
  modify (fun b => set_watchers (watchers b ++ [d]) b) ;;
  ret (Await d).

Definition watch_resume (forPlayer : PlayerID) : M string :=
  snapshot forPlayer.

(** ** The transformer: [map] and [mapCards] *)

(** A JavaScript [Map] keyed by strings, in insertion order: [get], and
    [set], which keeps the place of a key that is already present. *)
Fixpoint mapGet {V} (k : string) (m : list (string * V)) : option V :=
  match m with
  | [] => None
  | (k', v) :: m' => if decide (k = k') then Some v else mapGet k m'
  end.

Fixpoint mapSet {V} (k : string) (v : V) (m : list (string * V)) : list (string * V) :=
  match m with
  | [] => [(k, v)]
  | (k', v') :: m' =>
      if decide (k = k') then (k, v) :: m' else (k', v') :: mapSet k v m'
  end.

(** [new Map(results)] *)
Definition newMap {V} (results : list (string * V)) : list (string * V) :=
  foldl (fun m kv => mapSet (fst kv) (snd kv) m) [] results.

(** The body of the scan: file position [(i, j)] under its label. *)
Definition scanCell (byValue : list (string * list Pos)) (i j : Z)
  : M (list (string * list Pos)) :=
  let* cell := getCell i j in
  match cell with
  | None => ret byValue
  | Some cell =>
      let v := label cell in
      let list := default [] (mapGet v byValue) in
      ret (mapSet v (list ++ [mkPos i j]) byValue)
  end.

(** The snapshot of values and their locations; returns
    [[...byValue.entries()]]. *)
Definition groupByValue : M (list (string * list Pos)) :=
  let* b := get in
  foldM (seqZ 0 (rows b)) (fun byValue i =>
    foldM (seqZ 0 (cols b)) (fun byValue j => scanCell byValue i j) byValue) [].

(** [out.trim()] *)
Fixpoint trimStart (s : list ascii) : list ascii :=
  match s with
  | a :: s' => if isSpace a then trimStart s' else s
  | [] => []
  end.

Definition trim (s : string) : string :=
  string_of_list_ascii
    (rev (trimStart (rev (trimStart (list_ascii_of_string s))))).

(** The rejection test applied to a transformed card. *)
Definition invalidOut (out : string) : bool :=
  (String.length out =? 0)%nat
  || negb (bool_decide (trim out = out))
  || hasSpace out.

(** The callback given to [entries.map]: one call of [transform], then the
    validation.  The first component lists the arguments [transform] was
    called with. *)
Definition transformEntry (transform : string -> string) (orig : string)
  : list string * Completion (string * string) :=
  let out := transform orig in
  ([orig], if invalidOut out then Thrown InvalidLabel else Normal (orig, out)).

(** [Promise.all]: the results in order, or the first rejection. *)
Fixpoint promiseAll {A} (ps : list (Completion A)) : Completion (list A) :=
  match ps with
  | [] => Normal []
  | Thrown e :: _ => Thrown e
  | Normal a :: ps' =>
      match promiseAll ps' with
      | Normal l => Normal (a :: l)
      | Thrown e => Thrown e
      end
  end.

Definition transformAll (transform : string -> string) (entries : list (string * list Pos))
  : list string * Completion (list (string * string)) :=
  let started := List.map (fun e => transformEntry transform (fst e)) entries in
  (concat (List.map fst started), promiseAll (List.map snd started)).

(** The commit loop of [map]. *)
Definition commitCell (newVal : string) (p : Pos) : M unit :=
  let* cell := getCell (r p) (c p) in
  match cell with
  | None => ret tt
  | Some _ => updSlot p (withLabel newVal)
  end.

Definition commitGroups (entries : list (string * list Pos)) (mapping : list (string * string))
  : M unit :=
  forEach entries (fun entry =>
    match mapGet (fst entry) mapping with
    | None => ret tt
    | Some newVal => forEach (snd entry) (commitCell newVal)
    end).

(** What [map] does once [Promise.all] has produced [results]: commit,
    call the legacy hook [_notify] (a field that is never assigned, so
    the optional call does nothing), check the invariant. *)
Definition map_commit (entries : list (string * list Pos)) (results : list (string * string))
  : M unit :=
  commitGroups entries (newMap results) ;;
  checkRep.

(** [map] with nothing interleaved at its [await]. *)
Definition map (transform : string -> string) : M unit :=
  let* entries := groupByValue in
  match snd (transformAll transform entries) with
  | Thrown e => throw e
  | Normal results => map_commit entries results
  end.

(** The arguments of the calls of [transform] made by [map] on [b]. *)
Definition mapCalls (transform : string -> string) (b : Board) : list string :=
  match groupByValue b with
  | (Normal entries, _) => fst (transformAll transform entries)
  | (Thrown _, _) => []
  end.

(** The commit loop of [mapCards], which tracks whether a label changed. *)
Definition commitCellChanged (newVal : string) (changed : bool) (p : Pos) : M bool :=
  let* cell := getCell (r p) (c p) in
  match cell with
  | None => ret changed
  | Some cell =>
      if bool_decide (label cell <> newVal)
      then updSlot p (withLabel newVal) ;; ret true
      else ret changed
  end.

Definition commitGroupsChanged (entries : list (string * list Pos))
  (mapping : list (string * string)) : M bool :=
  foldM entries (fun changed entry =>
    match mapGet (fst entry) mapping with
    | None => ret changed
    | Some newVal =>
        if bool_decide (newVal = fst entry) then ret changed
        else foldM (snd entry) (commitCellChanged newVal) changed
    end) false.

Definition mapCards_commit (entries : list (string * list Pos))
  (results : list (string * string)) : M unit :=
  let* changed := commitGroupsChanged entries (newMap results) in
  (if changed then notifyChange else ret tt) ;;
  checkRep.

Definition mapCards (_player : PlayerID) (transform : string -> string) : M unit :=
  let* entries := groupByValue in
  match snd (transformAll transform entries) with
  | Thrown e => throw e
  | Normal results => mapCards_commit entries results
  end.

(** * Vocabulary of the properties *)

(** ** Reading the board *)

(** A computation that only reads the board. *)
Definition readOnly {A} (m : M A) : Prop := forall b, snd (m b) = b.

(** The slot at row [i], column [j]: what [getCell] returns when row [i]
    exists, and [None] when it does not. *)
Definition cellAt (g : list (list (option Slot))) (i j : Z) : option Slot :=
  match gridRow g i with
  | Some rw => rowCell rw j
  | None => None
  end.

Definition cellOf (b : Board) (p : Pos) : option Slot := cellAt (grid b) (r p) (c p).

(** The deferreds queued on a position, oldest first. *)
Definition queueOf (b : Board) (p : Pos) : list Deferred :=
  default [] (waitQueues b !! key p).

(** The board a method call leaves. *)
Definition after {A} (m : M A) (b : Board) : Board := snd (m b).

(** ** The helpers as functions on boards *)

(** The grid after [row[j] = val] on row [i]. *)
Definition setAt (g : list (list (option Slot))) (i j : Z) (val : option Slot)
  : list (list (option Slot)) :=
  match gridRow g i with
  | Some rw => <[Z.to_nat i := arraySet rw (Z.to_nat j) val]> g
  | None => g
  end.

(** [setCell(p.r, p.c, null)] *)
Definition removeB (p : Pos) (b : Board) : Board :=
  set_grid (setAt (grid b) (r p) (c p) None) b.

(** [wakeNext(p)] *)
Definition wakeNextB (p : Pos) (b : Board) : Board :=
  match waitQueues b !! key p with
  | Some (d :: q') =>
      set_resolved (resolved b ++ [d]) (set_waitQueues (<[key p := q']> (waitQueues b)) b)
  | _ => b
  end.

(** [notifyChange()] *)
Definition notifyB (b : Board) : Board :=
  set_resolved (resolved b ++ watchers b) (set_watchers [] b).

(** Rule 3-B on one position: whether the card turns down, and the
    board after. *)
Definition turnsDown (q : Pos) (b : Board) : bool :=
  match cellOf b q with
  | Some cell => faceUp cell && bool_decide (controller cell = None)
  | None => false
  end.

Definition flipDownB (q : Pos) (b : Board) : Board :=
  if turnsDown q b then set_grid (alterAt (grid b) (r q) (c q) (withFaceUp false)) b else b.

(** [settleBeforeNewFirstMove(p)] on a board whose pending positions are
    inside the grid. *)
Definition settleB (p : PlayerID) (b : Board) : Board :=
  match pending b !! p with
  | Some (Some (matched a b')) =>
      let b1 := notifyB (wakeNextB b' (wakeNextB a (removeB b' (removeB a b)))) in
      set_pending (<[p := None]> (pending b1)) b1
  | Some (Some (mismatched first second)) =>
      let b1 := flipDownB first b in
      let b2 := flipDownB second b1 in
      let b3 := if turnsDown first b || turnsDown second b1 then notifyB b2 else b2 in
      set_pending (<[p := None]> (pending b3)) b3
  | _ => b
  end.

(** [relinquishFirstOnly(player)] when the player's first selection is
    [first]. *)
Definition releaseB (player : PlayerID) (first : Pos) (b : Board) : Board :=
  let b1 :=
    match cellOf b first with
    | Some _ =>
        wakeNextB first (set_grid (alterAt (grid b) (r first) (c first) (withController None)) b)
    | None => b
    end in
  set_firstSelection (delete player (firstSelection b1)) b1.

(** ** Invariants *)

(** I1: a face-down card has no controller. *)
Definition I1 (b : Board) : Prop :=
  forall q s, cellOf b q = Some s -> faceUp s = false -> controller s = None.

(** A recorded first selection that is still on the board is face up and
    controlled by its player. *)
Definition FirstHeld (b : Board) : Prop :=
  forall p q s, firstSelection b !! p = Some q -> cellOf b q = Some s ->
                faceUp s = true /\ controller s = Some p.

Definition Inv (b : Board) : Prop := I1 b /\ FirstHeld b.

(** Boards that agree on the grid and on the first selections. *)
Definition sameCore (b b' : Board) : Prop :=
  grid b' = grid b /\ firstSelection b' = firstSelection b.

(** [keeps P m]: running [m] from a board satisfying [P] leaves a board
    satisfying [P], whether [m] returns or throws. *)
Definition keeps (P : Board -> Prop) {A} (m : M A) : Prop :=
  forall b, P b -> P (snd (m b)).

(** The representation invariant of the class header, in the form
    [checkRep] tests it: the grid has [rows] rows of [cols] cells, every
    label matches the card expression, a face-down card has no
    controller, and pending positions are inside the grid. *)
Definition RI (b : Board) : Prop :=
  Z.of_nat (length (grid b)) = rows b /\
  Forall (fun rw => Z.of_nat (length rw) = cols b) (grid b) /\
  (forall q s, cellOf b q = Some s ->
     cardRe (label s) = true /\ (faceUp s = false -> controller s = None)) /\
  (forall p o, pending b !! p = Some (Some o) ->
     withinB b (outcomeFirst o) = true /\ withinB b (outcomeSecond o) = true).

(** The boards that can be observed between two synchronous stretches of
    method code: a freshly constructed board, and whatever a public
    method, run up to its return, its throw or its next [await], leaves
    behind.  A parked [flipFirstAsync] may be resumed, and the commit
    phase of a [map] or [mapCards] started earlier may run, at any
    later point. *)
Inductive reachable : Board -> Prop :=
| reach_new nrows ncols labels b :
    newBoard nrows ncols labels = Normal b -> reachable b
| reach_settle b p :
    reachable b -> reachable (snd (settleBeforeNewFirstMove p b))
| reach_flipFirst b pos p :
    reachable b -> reachable (snd (flipFirst pos p b))
| reach_flipSecond b pos p :
    reachable b -> reachable (snd (flipSecond pos p b))
| reach_flipFirstAsync b pos p :
    reachable b -> reachable (snd (flipFirstAsync pos p b))
| reach_flipFirstAsync_resume b pos p :
    reachable b -> reachable (snd (flipFirstAsync_resume pos p b))
| reach_flipSecondAsync b pos p :
    reachable b -> reachable (snd (flipSecondAsync pos p b))
| reach_snapshot b p :
    reachable b -> reachable (snd (snapshot p b))
| reach_watch b p :
    reachable b -> reachable (snd (watch p b))
| reach_map b transform :
    reachable b -> reachable (snd (map transform b))
| reach_map_commit b entries results :
    reachable b -> reachable (snd (map_commit entries results b))
| reach_mapCards b p transform :
    reachable b -> reachable (snd (mapCards p transform b))
| reach_mapCards_commit b entries results :
    reachable b -> reachable (snd (mapCards_commit entries results b)).

(** ** The transformer as functions on grids *)

(** All positions of the grid, in row-major order. *)
Definition positionsOf (b : Board) : list Pos :=
  flat_map (fun i => List.map (mkPos i) (seqZ 0 (cols b))) (seqZ 0 (rows b)).

(** [scanCell] when the row exists. *)
Definition scanPure (g : list (list (option Slot))) (byValue : list (string * list Pos))
  (p : Pos) : list (string * list Pos) :=
  match cellAt g (r p) (c p) with
  | None => byValue
  | Some cell =>
      mapSet (label cell) (default [] (mapGet (label cell) byValue) ++ [p]) byValue
  end.

(** What [groupByValue] returns on a well-formed board. *)
Definition groups (b : Board) : list (string * list Pos) :=
  foldl (scanPure (grid b)) [] (positionsOf b).

(** What the scan has established after the positions [ps]. *)
Definition Grouped (g : list (list (option Slot))) (ps : list Pos)
  (bv : list (string * list Pos)) : Prop :=
  NoDup (List.map fst bv) /\
  (forall k l p, mapGet k bv = Some l -> p ∈ l ->
     p ∈ ps /\ exists s, cellAt g (r p) (c p) = Some s /\ label s = k) /\
  (forall p s, p ∈ ps -> cellAt g (r p) (c p) = Some s ->
     exists l, mapGet (label s) bv = Some l /\ p ∈ l) /\
  (forall k, k ∈ List.map fst bv ->
     exists p s, p ∈ ps /\ cellAt g (r p) (c p) = Some s /\ label s = k).

(** [commitCell] when the row exists. *)
Definition commitStep (v : string) (g : list (list (option Slot))) (p : Pos)
  : list (list (option Slot)) :=
  match cellAt g (r p) (c p) with
  | None => g
  | Some _ => alterAt g (r p) (c p) (withLabel v)
  end.

(** The writes of the commit loop, in order: position and new label. *)
Definition assignments (entries : list (string * list Pos)) (mapping : list (string * string))
  : list (Pos * string) :=
  flat_map (fun e =>
    match mapGet (fst e) mapping with
    | None => []
    | Some v => List.map (fun p => (p, v)) (snd e)
    end) entries.

Definition commitPure (g : list (list (option Slot))) (writes : list (Pos * string))
  : list (list (option Slot)) :=
  foldl (fun g pv => commitStep (snd pv) g (fst pv)) g writes.

(** The board after the commit of the snapshot taken on it. *)
Definition committed (b : Board) (rs : list (string * string)) : Board :=
  set_grid (commitPure (grid b) (assignments (groups b) (newMap rs))) b.

Definition relabel (transform : string -> string) (s : Slot) : Slot :=
  withLabel (transform (label s)) s.

Definition faceAndController (s : Slot) : bool * option PlayerID :=
  (faceUp s, controller s).

(** [b] differs from [b0] at most in the labels of its cards. *)
Definition LabelsOnly (b0 b : Board) : Prop :=
  rows b = rows b0 /\ cols b = cols b0 /\
  firstSelection b = firstSelection b0 /\ pending b = pending b0 /\
  waitQueues b = waitQueues b0 /\ watchers b = watchers b0 /\
  resolved b = resolved b0 /\ allocated b = allocated b0 /\
  forall q, faceAndController <$> cellOf b q = faceAndController <$> cellOf b0 q.

(** ** The boards and transforms of the examples *)

Definition emptyBoard : Board := mkBoard 0 0 [] ∅ ∅ ∅ [] [] 0.

Definition boardOf (x : Completion Board) : Board :=
  match x with
  | Normal b => b
  | Thrown _ => emptyBoard
  end.

(** The 3x3 board of the specification: u,u,a / b,b,c / c,a,x. *)
Definition perfect : Board :=
  boardOf (newBoard 3 3 ["u"; "u"; "a"; "b"; "b"; "c"; "c"; "a"; "x"]).

(** Alice has flipped (0,0). *)
Definition aliceFirst : Board := after (flipFirst (mkPos 0 0) "alice") perfect.

(** Alice holds the matched pair (0,0), (0,1), not yet removed. *)
Definition aliceMatched : Board := after (flipSecond (mkPos 0 1) "alice") aliceFirst.

(** Bob, then Charlie, wait for (0,0) behind Alice's matched pair. *)
Definition twoWaiters : Board :=
  after (flipFirstAsync (mkPos 0 0) "charlie")
        (after (flipFirstAsync (mkPos 0 0) "bob") aliceMatched).

(** Alice holds (0,0) and Bob holds (1,1) as first cards. *)
Definition aliceAndBob : Board := after (flipFirst (mkPos 1 1) "bob") aliceFirst.

(** Bob watches the untouched board. *)
Definition watched : Board := after (watch "bob") perfect.

Definition prefixT (card : string) : string := "T_" +:+ card.

Definition spaced (card : string) : string :=
  if decide (card = "a") then "a b" else card.

Definition allX (card : string) : string := "X".

(** ** Reading a board file: [parseFromFile]

    The method reads the file and parses its text; the model takes the
    text.  A text is a JavaScript string, so it is shorter than [2^53]
    code units, the range in which the arithmetic on line counts below is
    exact. *)

Definition CR : ascii := ascii_of_nat 13.

Definition LF : ascii := ascii_of_nat 10.

(** [text.replace(/\r\n/g, "\n")] *)
Fixpoint replaceCRLF (s : string) : string :=
  match s with
  | EmptyString => EmptyString
  | String a s' =>
      match s' with
      | String a' s'' =>
          if Ascii.eqb a CR && Ascii.eqb a' LF then String LF (replaceCRLF s'')
          else String a (replaceCRLF s')
      | EmptyString => String a EmptyString
      end
  end.

(** [.replace(/\r/g, "\n")] *)
Fixpoint replaceCR (s : string) : string :=
  match s with
  | EmptyString => EmptyString
  | String a s' => String (if Ascii.eqb a CR then LF else a) (replaceCR s')
  end.

(** [.split("\n")]: one more piece than there are line feeds. *)
Fixpoint splitLF (s : string) : list string :=
  match s with
  | EmptyString => [EmptyString]
  | String a s' =>
      if Ascii.eqb a LF then EmptyString :: splitLF s'
      else match splitLF s' with
           | l :: ls => String a l :: ls
           | [] => [String a EmptyString]
           end
  end.

(** The non-empty lines of the text. *)
Definition fileLines (text : string) : list string :=
  List.filter (fun l => negb (String.length l =? 0)%nat)
              (splitLF (replaceCR (replaceCRLF text))).

Definition isDigit (a : ascii) : bool :=
  let n := N_of_ascii a in (48 <=? n)%N && (n <=? 57)%N.

Fixpoint allDigits (s : string) : bool :=
  match s with
  | EmptyString => true
  | String a s' => isDigit a && allDigits s'
  end.

(** The longest prefix of digits, and what follows it. *)
Fixpoint spanDigits (s : string) : string * string :=
  match s with
  | EmptyString => (EmptyString, EmptyString)
  | String a s' =>
      if isDigit a then (String a (fst (spanDigits s')), snd (spanDigits s'))
      else (EmptyString, s)
  end.

(** [/^([0-9]+)x([0-9]+)$/.exec(header)]: the two groups.  The letter x
    is no digit, so the first group is the longest prefix of digits. *)
Definition matchHeader (header : string) : option (string * string) :=
  match spanDigits header with
  | (String a d1, String x d2) =>
      if Ascii.eqb x "x" && negb (String.length d2 =? 0)%nat && allDigits d2
      then Some (String a d1, d2)
      else None
  | _ => None
  end.

Definition digitValue (a : ascii) : Z := Z.of_N (N_of_ascii a) - 48.

(** [parseInt(d, 10)] on a string of decimal digits. *)
Definition parseInt (d : string) : Z :=
  fold_left (fun acc a => 10 * acc + digitValue a) (list_ascii_of_string d) 0.

(** [Number.isFinite] of a parsed integer: it rounds to a finite double,
    that is, it lies below the midpoint between the largest double and
    [2^1024]. *)
Definition isFiniteNum (n : Z) : bool := n <? 2 ^ 1024 - 2 ^ 970.

(** The errors of [parseFromFile], one constructor per message. *)
Inductive ParseError :=
| MissingHeader          (* "Malformed board: missing header" *)
| MalformedHeader        (* "Malformed header '...', expected ROWxCOL" *)
| BadDimensions          (* "Rows/cols must be positive integers" *)
| WrongCardCount         (* "Malformed board: expected N card lines, got M" *)
| InvalidCard.           (* "Invalid card '...'" *)

(** [parseFromFile] on the text of the file: its own rejections on the
    left, the outcome of [new Board(rows, cols, cards)] on the right. *)
Definition parseFromFile (text : string) : ParseError + Completion Board :=
  match fileLines text with
  | [] => inl MissingHeader
  | header :: cards =>
      match matchHeader header with
      | None => inl MalformedHeader
      | Some (d1, d2) =>
          let nrows := parseInt d1 in
          let ncols := parseInt d2 in
          if negb (isFiniteNum nrows) || negb (isFiniteNum ncols)
             || (nrows <=? 0) || (ncols <=? 0)
          then inl BadDimensions
          else if negb (Z.of_nat (length cards) =? nrows * ncols) then inl WrongCardCount
          else if negb (forallb cardRe cards) then inl InvalidCard
          else inr (newBoard nrows ncols cards)
      end
  end.

(** [toString()] *)
Definition toString (b : Board) : string :=
  "Board(" +:+ pretty (rows b) +:+ "x" +:+ pretty (cols b) +:+ ")".

(** ** The glue of [src/commands.ts]

    Each command is an [async] function over a board.  [flip] and
    [watch] run up to their [await]; what they do once the awaited
    promise is fulfilled is their [_resume]. *)
Module commands.

Definition look (playerId : PlayerID) : M string := snapshot playerId.

(** [flip] up to its [await]: a second flip for a player with a first
    selection, a (possibly parking) first flip otherwise. *)
Definition flip (playerId : PlayerID) (row column : Z) : M Step :=
  let pos := mkPos row column in
  let* second := hasFirstSelection playerId in
  if second then flipSecondAsync pos playerId else flipFirstAsync pos playerId.

(** After the [await]: [return board.snapshot(playerId)]. *)
Definition flip_resume (playerId : PlayerID) : M string := snapshot playerId.

Definition mapTransform (_playerId : PlayerID) (transform : string -> string) : M unit :=
  map transform.

Definition map_resume (playerId : PlayerID) : M string := snapshot playerId.

Definition watch (playerId : PlayerID) : M Step := watch playerId.

(** [map] up to its [await]; [map_resume] is what follows. *)
Definition map (playerId : PlayerID) (transform : string -> string) : M unit :=
  map transform.

End commands.

(** ** What a player is shown *)

(** The first line of a snapshot. *)
Definition headerLine (b : Board) : string :=
  pretty (rows b) +:+ "x" +:+ pretty (cols b).

(** The lines of the snapshot for [forPlayer]: the header, then one line
    per position in row-major order. *)
Definition view (forPlayer : PlayerID) (b : Board) : list string :=
  headerLine b :: List.map (fun q => spot forPlayer (cellOf b q)) (positionsOf b).

(** Two cells that a player cannot tell apart: both empty, both face
    down, or both face up with the same label and both or neither
    controlled by the player. *)
Definition looksSame (forPlayer : PlayerID) (x y : option Slot) : Prop :=
  match x, y with
  | None, None => True
  | Some s, Some s' =>
      faceUp s = faceUp s' /\
      (faceUp s = true ->
       label s = label s' /\
       (controller s = Some forPlayer <-> controller s' = Some forPlayer))
  | _, _ => False
  end.
(** ** The promise discipline *)

(** Every deferred is in at most one place: resolved once, or waiting
    among the watchers, or waiting in the queue of one position; only
    deferreds that have been created occur. *)
Definition Orderly (b : Board) : Prop :=
  NoDup (resolved b) /\
  NoDup (watchers b) /\
  (forall d, d ∈ watchers b -> d ∉ resolved b) /\
  (forall k q, waitQueues b !! k = Some q -> NoDup q) /\
  (forall k q d, waitQueues b !! k = Some q -> d ∈ q -> (d ∉ resolved b) /\ (d ∉ watchers b)) /\
  (forall k k' q q' d, waitQueues b !! k = Some q -> waitQueues b !! k' = Some q' ->
     d ∈ q -> d ∈ q' -> k = k') /\
  (forall d, d ∈ resolved b -> (d < allocated b)%nat) /\
  (forall d, d ∈ watchers b -> (d < allocated b)%nat) /\
  (forall k q d, waitQueues b !! k = Some q -> d ∈ q -> (d < allocated b)%nat).
(** A board is well formed when it satisfies the representation
    invariant and every recorded first selection that is still on the
    board is held by its player. *)
Definition WellFormed (b : Board) : Prop := RI b /\ FirstHeld b.
(** ** Board files *)

(** Whether a string contains a carriage return or a line feed. *)
Fixpoint hasBreak (s : string) : bool :=
  match s with
  | EmptyString => false
  | String a s' => Ascii.eqb a CR || Ascii.eqb a LF || hasBreak s'
  end.

(** Whether a string begins with a line feed. *)
Definition startsLF (s : string) : bool :=
  match s with
  | String a _ => Ascii.eqb a LF
  | EmptyString => false
  end.

(** The three line terminators. *)
Definition eolLF : string := String LF EmptyString.

Definition eolCRLF : string := String CR (String LF EmptyString).

Definition eolCR : string := String CR EmptyString.
(** ** The commit loop of [mapCards] as a function on grids *)

(** [commitCellChanged] when the row exists: the grid and the flag
    [changed]. *)
Definition commitStepChanged (v : string) (st : list (list (option Slot)) * bool) (p : Pos)
  : list (list (option Slot)) * bool :=
  match cellAt (fst st) (r p) (c p) with
  | None => st
  | Some cell =>
      if bool_decide (label cell <> v)
      then (alterAt (fst st) (r p) (c p) (withLabel v), true)
      else st
  end.

Definition commitEntryChanged (mapping : list (string * string))
  (st : list (list (option Slot)) * bool) (e : string * list Pos)
  : list (list (option Slot)) * bool :=
  match mapGet (fst e) mapping with
  | None => st
  | Some v => if bool_decide (v = fst e) then st else foldl (commitStepChanged v) st (snd e)
  end.

Definition commitPureChanged (g : list (list (option Slot)))
  (entries : list (string * list Pos)) (mapping : list (string * string))
  : list (list (option Slot)) * bool :=
  foldl (commitEntryChanged mapping) (g, false) entries.

(** The entries whose label the mapping changes. *)
Definition effective (entries : list (string * list Pos)) (mapping : list (string * string))
  : list (string * list Pos) :=
  List.filter (fun e => negb (bool_decide (mapGet (fst e) mapping = Some (fst e)))) entries.
(** ** More boards and texts for the examples *)

(** Alice has turned up (0,0) and (0,2), which do not match. *)
Definition aliceMismatched : Board := after (flipSecond (mkPos 0 2) "alice") aliceFirst.

(** Alice's matched pair has been removed while Bob and Charlie were
    waiting for (0,0). *)
Definition pairRemoved : Board := after (settleBeforeNewFirstMove "alice") twoWaiters.

(** Charlie, not Alice, has flipped (0,0). *)
Definition charlieFirst : Board := after (flipFirst (mkPos 0 0) "charlie") perfect.

(** The pieces of a 2x2 board file with a blank line in the middle and a
    line terminator at the end. *)
Definition samplePieces : list string := ["2x2"; "a"; "b"; ""; "b"; "a"; ""].

(** ** Boards on which a first card has been removed *)

(** Dana's waiting first flip on (0,0), which Alice holds, has parked. *)
Definition danaParked : Board := after (flipFirstAsync (mkPos 0 0) "dana") aliceFirst.

(** Alice's second flip on (0,2) mismatches: (0,0) is released and Dana's
    deferred is resolved.  Dana's parked call has not yet run on. *)
Definition danaWoken : Board := after (flipSecond (mkPos 0 2) "alice") danaParked.

(** Before it does, Dana flips (0,1) and then (0,0), a matching pair. *)
Definition danaPair : Board :=
  after (flipSecond (mkPos 0 0) "dana") (after (flipFirst (mkPos 0 1) "dana") danaWoken).

(** Dana's parked call runs on and takes (0,0), which Dana controls, as
    first card: Dana now has a first selection inside the pending pair. *)
Definition danaResumed : Board := after (flipFirstAsync_resume (mkPos 0 0) "dana") danaPair.

(** Dana's next first flip, on (0,0), removes the pair and fails on the
    empty space; (0,0) is still recorded as Dana's first selection. *)
Definition firstRemoved : Board := after (flipFirst (mkPos 0 0) "dana") danaResumed.



(** * Properties *)

(** ** Running the monad *)

Lemma bind_run {A B} (m : M A) (k : A -> M B) b :
  bind m k b =
  match m b with
  | (Normal a, b') => k a b'
  | (Thrown e, b') => (Thrown e, b')
  end.
Proof. reflexivity. Qed.

Lemma bind_normal {A B} (m : M A) (k : A -> M B) b a b' :
  m b = (Normal a, b') -> bind m k b = k a b'.
Proof. intros H. unfold bind. rewrite H. reflexivity. Qed.

Lemma readOnly_ret {A} (a : A) : readOnly (ret a).
Proof. intros b. reflexivity. Qed.

Lemma readOnly_throw {A} e : readOnly (@throw A e).
Proof. intros b. reflexivity. Qed.

Lemma readOnly_get : readOnly get.
Proof. intros b. reflexivity. Qed.

Lemma readOnly_bind {A B} (m : M A) (k : A -> M B) :
  readOnly m -> (forall a, readOnly (k a)) -> readOnly (bind m k).
Proof.
  intros Hm Hk b. unfold bind. specialize (Hm b).
  destruct (m b) as [[a|e] b']; simpl in Hm; subst b'.
  - apply Hk.
  - reflexivity.
Qed.

Lemma readOnly_if {A} (t : bool) (m1 m2 : M A) :
  readOnly m1 -> readOnly m2 -> readOnly (if t then m1 else m2).
Proof. destruct t; auto. Qed.

Lemma readOnly_forEach {A} (xs : list A) (body : A -> M unit) :
  (forall x, readOnly (body x)) -> readOnly (forEach xs body).
Proof.
  intros Hb. induction xs as [|x xs IH]; simpl.
  - apply readOnly_ret.
  - apply readOnly_bind; auto.
Qed.

Lemma readOnly_foldM {A S} (xs : list A) (body : S -> A -> M S) s :
  (forall s x, readOnly (body s x)) -> readOnly (foldM xs body s).
Proof.
  intros Hb. revert s. induction xs as [|x xs IH]; intros s; simpl.
  - apply readOnly_ret.
  - apply readOnly_bind; auto.
Qed.

Lemma readOnly_run {A} (m : M A) b : readOnly m -> m b = (fst (m b), b).
Proof. intros H. specialize (H b). destruct (m b); simpl in *; congruence. Qed.

(** A read-only loop succeeds exactly when each of its iterations does. *)
Lemma forEach_ok_intro {A} (xs : list A) (body : A -> M unit) b :
  (forall x, In x xs -> body x b = (Normal tt, b)) ->
  forEach xs body b = (Normal tt, b).
Proof.
  induction xs as [|x xs IH]; intros H; simpl.
  - reflexivity.
  - rewrite (bind_normal _ _ b tt b) by (apply H; simpl; auto).
    apply IH. intros y Hy. apply H. simpl; auto.
Qed.

Lemma forEach_ok_elim {A} (xs : list A) (body : A -> M unit) b :
  (forall x, readOnly (body x)) ->
  fst (forEach xs body b) = Normal tt ->
  forall x, In x xs -> body x b = (Normal tt, b).
Proof.
  intros Hro. induction xs as [|x xs IH]; intros H y Hy; simpl in *.
  - contradiction.
  - rewrite bind_run in H.
    rewrite (readOnly_run (body x) b (Hro x)) in H.
    destruct (fst (body x b)) as [[]|e] eqn:E; simpl in H; [|discriminate].
    destruct Hy as [->|Hy].
    + rewrite (readOnly_run (body y) b (Hro y)), E. reflexivity.
    + apply IH; assumption.
Qed.

(** ** Reading and writing cells *)

Lemma row_run i b :
  row i b = match gridRow (grid b) i with
            | Some rw => (Normal rw, b)
            | None => (Thrown RIRowIndex, b)
            end.
Proof. unfold row, bind, get. destruct (gridRow (grid b) i); reflexivity. Qed.

Lemma getCell_run i j b :
  getCell i j b = match gridRow (grid b) i with
                  | Some rw => (Normal (rowCell rw j), b)
                  | None => (Thrown RIRowIndex, b)
                  end.
Proof. unfold getCell. rewrite bind_run, row_run. destruct (gridRow (grid b) i); reflexivity. Qed.

Lemma getCell_normal i j b o b' :
  getCell i j b = (Normal o, b') -> b' = b /\ o = cellAt (grid b) i j.
Proof.
  rewrite getCell_run. unfold cellAt. destruct (gridRow (grid b) i); intros H; inversion H; auto.
Qed.

Lemma readOnly_getCell i j : readOnly (getCell i j).
Proof. intros b. rewrite getCell_run. destruct (gridRow (grid b) i); reflexivity. Qed.

Lemma readOnly_within p : readOnly (within p).
Proof. intros b. reflexivity. Qed.

Lemma slotAt_run p b :
  slotAt p b = if withinB b p then getCell (r p) (c p) b else (Thrown OutOfBounds, b).
Proof. unfold slotAt, within, bind, get, ret. destruct (withinB b p); reflexivity. Qed.

Lemma readOnly_slotAt p : readOnly (slotAt p).
Proof.
  intros b. rewrite slotAt_run. destruct (withinB b p); [apply readOnly_getCell | reflexivity].
Qed.

Lemma rowCell_arraySet (rw : list (option Slot)) (j j' : Z) v :
  0 <= j ->
  rowCell (arraySet rw (Z.to_nat j) v) j' = if decide (j = j') then v else rowCell rw j'.
Proof.
  intros Hj. unfold rowCell, arraySet.
  destruct (Z.ltb_spec j' 0) as [Hn|Hn].
  { destruct (decide (j = j')); [lia | reflexivity]. }
  destruct (Nat.ltb_spec (Z.to_nat j) (length rw)) as [Hl|Hl].
  - destruct (decide (j = j')) as [->|Hne].
    + rewrite list_lookup_insert_eq by assumption. reflexivity.
    + rewrite list_lookup_insert_ne by lia. reflexivity.
  - destruct (decide (j = j')) as [->|Hne].
    + rewrite lookup_app_r by assumption.
      rewrite lookup_app_r by (rewrite length_replicate; lia).
      rewrite length_replicate.
      replace (Z.to_nat j' - length rw - (Z.to_nat j' - length rw))%nat with 0%nat by lia.
      reflexivity.
    + destruct (decide (Z.to_nat j' < length rw)%nat) as [Hlt|Hge].
      * rewrite lookup_app_l by assumption. reflexivity.
      * rewrite lookup_app_r by lia.
        rewrite (lookup_ge_None_2 rw) by lia.
        destruct (decide (Z.to_nat j' - length rw < Z.to_nat j - length rw)%nat) as [Hp|Hp].
        -- rewrite lookup_app_l by (rewrite length_replicate; lia).
           rewrite lookup_replicate_2 by lia. reflexivity.
        -- rewrite lookup_app_r by (rewrite length_replicate; lia).
           rewrite length_replicate.
           rewrite lookup_ge_None_2 by (simpl; lia). reflexivity.
Qed.

Lemma setCell_run i j val b :
  setCell i j val b =
  match gridRow (grid b) i with
  | None => (Thrown RIRowIndex, b)
  | Some rw =>
      if (j <? 0) || (j >=? cols b) then (Thrown RIColIndex, b)
      else (Normal tt, set_grid (setAt (grid b) i j val) b)
  end.
Proof.
  unfold setCell. rewrite bind_run, row_run. unfold setAt.
  destruct (gridRow (grid b) i) as [rw|]; [|reflexivity].
  unfold bind, get, modify, throw.
  destruct ((j <? 0) || (j >=? cols b)); reflexivity.
Qed.

Lemma cellAt_setAt g i j val i' j' :
  is_Some (gridRow g i) -> 0 <= j ->
  cellAt (setAt g i j val) i' j' = if decide (i = i' /\ j = j') then val else cellAt g i' j'.
Proof.
  intros [rw Hrw] Hj. unfold setAt. rewrite Hrw.
  unfold cellAt, gridRow in *.
  destruct (Z.ltb_spec i 0) as [Hi|Hi]; [discriminate|].
  destruct (Z.ltb_spec i' 0) as [Hi'|Hi'].
  { destruct (decide _) as [[? ?]|]; [lia | reflexivity]. }
  destruct (decide (i = i')) as [<-|Hne].
  - rewrite list_lookup_insert_eq by (eapply lookup_lt_Some; eassumption).
    rewrite rowCell_arraySet by assumption. rewrite Hrw.
    destruct (decide (j = j')); destruct (decide _) as [[? ?]|Hn]; try reflexivity; try lia.
  - rewrite list_lookup_insert_ne by lia.
    destruct (decide _) as [[? ?]|]; [lia | reflexivity].
Qed.

Lemma cellAt_alterAt g i j f i' j' :
  cellAt (alterAt g i j f) i' j' =
  if decide (i = i' /\ j = j') then f <$> cellAt g i j else cellAt g i' j'.
Proof.
  unfold alterAt.
  destruct (decide (i = i' /\ j = j')) as [[<- <-]|Hne].
  - unfold cellAt, gridRow, rowCell.
    destruct (Z.ltb_spec i 0); simpl; [reflexivity|].
    destruct (Z.ltb_spec j 0); simpl.
    { destruct (g !! Z.to_nat i); reflexivity. }
    rewrite list_lookup_alter_eq. destruct (g !! Z.to_nat i) as [rw|]; simpl; [|reflexivity].
    rewrite list_lookup_alter_eq. destruct (rw !! Z.to_nat j) as [[s|]|]; reflexivity.
  - destruct ((i <? 0) || (j <? 0)) eqn:E; [reflexivity|].
    apply orb_false_iff in E as [Ei Ej]. apply Z.ltb_ge in Ei, Ej.
    unfold cellAt, gridRow, rowCell.
    destruct (Z.ltb_spec i' 0); [reflexivity|].
    destruct (decide (i = i')) as [<-|Hi].
    + rewrite list_lookup_alter_eq. destruct (g !! Z.to_nat i) as [rw|]; simpl; [|reflexivity].
      destruct (Z.ltb_spec j' 0); [reflexivity|].
      rewrite list_lookup_alter_ne; [reflexivity|].
      intros E. apply Hne. split; [reflexivity | lia].
    + rewrite list_lookup_alter_ne by lia. reflexivity.
Qed.

Lemma length_alterAt g i j f : length (alterAt g i j f) = length g.
Proof. unfold alterAt. destruct (_ || _); [reflexivity | apply length_alter]. Qed.

(** ** The effect of the queue and watcher helpers *)

Lemma wakeNext_run p b : wakeNext p b = (Normal tt, wakeNextB p b).
Proof.
  unfold wakeNext, wakeNextB, bind, get, modify, resolve, ret.
  destruct (waitQueues b !! key p) as [[|d q']|]; reflexivity.
Qed.

Lemma forEach_resolve ws b :
  forEach ws resolve b = (Normal tt, set_resolved (resolved b ++ ws) b).
Proof.
  revert b. induction ws as [|d ws IH]; intros b; simpl.
  - rewrite app_nil_r. destruct b; reflexivity.
  - rewrite bind_run. unfold resolve at 1, modify. rewrite IH.
    unfold set_resolved; simpl. rewrite <- app_assoc. reflexivity.
Qed.

Lemma notifyChange_run b : notifyChange b = (Normal tt, notifyB b).
Proof.
  unfold notifyChange, notifyB. rewrite bind_run. unfold get.
  destruct (watchers b) as [|d ws] eqn:E.
  - unfold ret, set_resolved, set_watchers; simpl. rewrite app_nil_r.
    destruct b; simpl in *; subst; reflexivity.
  - rewrite bind_run. unfold modify. rewrite forEach_resolve. reflexivity.
Qed.

Lemma updSlot_run p f b :
  updSlot p f b = (Normal tt, set_grid (alterAt (grid b) (r p) (c p) f) b).
Proof. reflexivity. Qed.

Lemma readOnly_checkSlot s : readOnly (checkSlot s).
Proof.
  unfold checkSlot. repeat apply readOnly_if;
    first [apply readOnly_throw | apply readOnly_ret].
Qed.

Lemma readOnly_checkPending o : readOnly (checkPending o).
Proof.
  destruct o as [o|]; unfold checkPending; [|apply readOnly_ret].
  apply readOnly_forEach. intros p. apply readOnly_bind; [apply readOnly_within|].
  intros []; [apply readOnly_ret | apply readOnly_throw].
Qed.

Lemma readOnly_checkRep : readOnly checkRep.
Proof.
  unfold checkRep. apply readOnly_bind; [apply readOnly_get|]. intros b0.
  apply readOnly_bind.
  { apply readOnly_if; [apply readOnly_throw | apply readOnly_ret]. }
  intros _. apply readOnly_bind.
  { apply readOnly_forEach. intros rw.
    apply readOnly_if; [apply readOnly_throw | apply readOnly_ret]. }
  intros _. apply readOnly_bind.
  { apply readOnly_forEach. intros i. apply readOnly_forEach. intros j.
    apply readOnly_bind; [apply readOnly_getCell|].
    intros [s|]; [apply readOnly_checkSlot | apply readOnly_ret]. }
  intros _. apply readOnly_forEach. intros e. apply readOnly_checkPending.
Qed.

Lemma checkRep_run b : checkRep b = (fst (checkRep b), b).
Proof. apply readOnly_run, readOnly_checkRep. Qed.

(** ** The invariant behind I1

    [I1] is preserved together with [FirstHeld]. *)

Lemma Inv_sameCore b b' : sameCore b b' -> Inv b -> Inv b'.
Proof.
  intros [Hg Hf] [H1 H2]. split.
  - unfold I1, cellOf. rewrite Hg. exact H1.
  - unfold FirstHeld, cellOf. rewrite Hg, Hf. exact H2.
Qed.

Lemma sameCore_wakeNextB p b : sameCore b (wakeNextB p b).
Proof.
  unfold wakeNextB. destruct (waitQueues b !! key p) as [[|d q']|]; split; reflexivity.
Qed.

Lemma sameCore_notifyB b : sameCore b (notifyB b).
Proof. split; reflexivity. Qed.

Lemma sameCore_set_pending x b : sameCore b (set_pending x b).
Proof. split; reflexivity. Qed.

Lemma Pos_eta p : mkPos (r p) (c p) = p.
Proof. destruct p; reflexivity. Qed.

Lemma cellOf_alter b p f q :
  cellOf (set_grid (alterAt (grid b) (r p) (c p) f) b) q =
  if decide (p = q) then f <$> cellOf b p else cellOf b q.
Proof.
  unfold cellOf; simpl. rewrite cellAt_alterAt.
  destruct p as [pi pj], q as [qi qj]; simpl.
  destruct (decide (pi = qi /\ pj = qj)) as [[-> ->]|Hn];
    destruct (decide (_ = _)) as [E|E]; try reflexivity.
  - exfalso; apply E; reflexivity.
  - inversion E; subst. exfalso; apply Hn; auto.
Qed.

(** Removing a card keeps the invariant. *)
Lemma Inv_setAt b i j :
  is_Some (gridRow (grid b) i) -> 0 <= j ->
  Inv b -> Inv (set_grid (setAt (grid b) i j None) b).
Proof.
  intros Hr Hj [H1 H2]. split.
  - intros q s; unfold cellOf; simpl. rewrite cellAt_setAt by assumption.
    destruct (decide _); [discriminate | apply H1].
  - intros p q s Hp; unfold cellOf; simpl. rewrite cellAt_setAt by assumption.
    destruct (decide _); [discriminate | apply (H2 p q s Hp)].
Qed.

(** Writing a cell that is nobody's first selection: the outcome must
    respect I1. *)
Lemma Inv_alter_free b p f :
  Inv b ->
  (forall s, cellOf b p = Some s ->
     (faceUp (f s) = false -> controller (f s) = None) /\
     (forall pl, firstSelection b !! pl = Some p ->
        faceUp (f s) = true /\ controller (f s) = Some pl)) ->
  Inv (set_grid (alterAt (grid b) (r p) (c p) f) b).
Proof.
  intros [H1 H2] Hf. split.
  - intros q s. rewrite cellOf_alter. destruct (decide _) as [<-|_].
    + destruct (cellOf b p) as [s0|] eqn:E; simpl; [|discriminate].
      intros [= <-]. apply (Hf s0 eq_refl).
    + apply H1.
  - intros pl q s Hp. rewrite cellOf_alter. simpl in Hp.
    destruct (decide _) as [<-|_].
    + destruct (cellOf b p) as [s0|] eqn:E; simpl; [|discriminate].
      intros [= <-]. apply (Hf s0 eq_refl). exact Hp.
    + apply H2. exact Hp.
Qed.

Section Keeps.
Variable P : Board -> Prop.

Lemma keeps_ret {A} (a : A) : keeps P (ret a).
Proof. intros b H. exact H. Qed.

Lemma keeps_throw {A} e : keeps P (@throw A e).
Proof. intros b H. exact H. Qed.

Lemma keeps_readOnly {A} (m : M A) : readOnly m -> keeps P m.
Proof. intros Hr b H. rewrite Hr. exact H. Qed.

Lemma keeps_modify f : (forall b, P b -> P (f b)) -> keeps P (modify f).
Proof. intros Hf b H. apply Hf, H. Qed.

Lemma keeps_bind {A B} (m : M A) (k : A -> M B) :
  keeps P m -> (forall a, keeps P (k a)) -> keeps P (bind m k).
Proof.
  intros Hm Hk b H. unfold bind. specialize (Hm b H).
  destruct (m b) as [[a|e] b']; simpl in *.
  - apply Hk, Hm.
  - exact Hm.
Qed.

(** After a read, the continuation may use what was read. *)
Lemma keeps_bind_read {A B} (m : M A) (k : A -> M B) :
  readOnly m ->
  (forall b a, P b -> m b = (Normal a, b) -> P (snd (k a b))) ->
  keeps P (bind m k).
Proof.
  intros Hr Hk b H. unfold bind. pose proof (Hr b) as E.
  destruct (m b) as [[a|e] b'] eqn:Em; simpl in E; subst b'.
  - apply Hk; assumption.
  - exact H.
Qed.

Lemma keeps_if {A} (t : bool) (m1 m2 : M A) :
  keeps P m1 -> keeps P m2 -> keeps P (if t then m1 else m2).
Proof. destruct t; auto. Qed.

Lemma keeps_forEach {A} (xs : list A) (body : A -> M unit) :
  (forall x, keeps P (body x)) -> keeps P (forEach xs body).
Proof.
  intros Hb. induction xs as [|x xs IH]; simpl.
  - apply keeps_ret.
  - apply keeps_bind; auto.
Qed.

Lemma keeps_foldM {A S} (xs : list A) (body : S -> A -> M S) s :
  (forall s x, keeps P (body s x)) -> keeps P (foldM xs body s).
Proof.
  intros Hb. revert s. induction xs as [|x xs IH]; intros s; simpl.
  - apply keeps_ret.
  - apply keeps_bind; auto.
Qed.
End Keeps.

Lemma keeps_wakeNext p : keeps Inv (wakeNext p).
Proof.
  intros b H. rewrite wakeNext_run. simpl.
  eapply Inv_sameCore; [apply sameCore_wakeNextB | exact H].
Qed.

Lemma keeps_notifyChange : keeps Inv notifyChange.
Proof.
  intros b H. rewrite notifyChange_run. simpl.
  eapply Inv_sameCore; [apply sameCore_notifyB | exact H].
Qed.

Lemma keeps_checkRep : keeps Inv checkRep.
Proof. apply keeps_readOnly, readOnly_checkRep. Qed.

Lemma keeps_setCell_null i j : keeps Inv (setCell i j None).
Proof.
  intros b H. rewrite setCell_run.
  destruct (gridRow (grid b) i) as [rw|] eqn:E; [|exact H].
  destruct (Z.ltb_spec j 0); simpl; [exact H|].
  destruct (j >=? cols b); simpl; [exact H|].
  apply Inv_setAt; [rewrite E; eauto | assumption | exact H].
Qed.

Lemma keeps_set_pending f : keeps Inv (modify (fun b => set_pending (f b) b)).
Proof.
  apply keeps_modify. intros b H.
  eapply Inv_sameCore; [apply sameCore_set_pending | exact H].
Qed.

Lemma getCell_cellOf p b o :
  getCell (r p) (c p) b = (Normal o, b) -> cellOf b p = o.
Proof. intros H. apply getCell_normal in H as [_ ->]. reflexivity. Qed.

Lemma slotAt_cellOf p b o b' :
  slotAt p b = (Normal o, b') -> b' = b /\ withinB b p = true /\ cellOf b p = o.
Proof.
  rewrite slotAt_run. destruct (withinB b p); [|discriminate].
  intros H. apply getCell_normal in H as [-> ->]. auto.
Qed.

(** Rule 3-B turns down only cards that nobody controls. *)
Lemma keeps_flipDown flipped q :
  keeps Inv
    (let* cell := getCell (r q) (c q) in
     match cell with
     | Some cell =>
         if faceUp cell && bool_decide (controller cell = None)
         then updSlot q (withFaceUp false) ;; ret true
         else ret flipped
     | None => ret flipped
     end).
Proof.
  apply keeps_bind_read; [apply readOnly_getCell|].
  intros b [s|] H Hc; [|exact H].
  apply getCell_cellOf in Hc.
  destruct (faceUp s && bool_decide (controller s = None)) eqn:E; [|exact H].
  apply andb_true_iff in E as [Eu Ec]. apply bool_decide_eq_true in Ec.
  rewrite bind_run, updSlot_run. simpl.
  apply Inv_alter_free; [exact H|].
  intros s0 Hs0. rewrite Hc in Hs0. inversion Hs0; subst s0. simpl. split.
  - intros _. exact Ec.
  - intros pl Hpl. destruct H as [_ H2].
    destruct (H2 pl q s Hpl Hc) as [_ Hctl]. congruence.
Qed.

Lemma keeps_settle p : keeps Inv (settleBeforeNewFirstMove p).
Proof.
  unfold settleBeforeNewFirstMove.
  apply keeps_bind_read; [apply readOnly_get|].
  intros b b0 H Hg. inversion Hg; subst b0. clear Hg.
  destruct (pending b !! p) as [[[a b'|first second]|]|]; try exact H.
  - revert b H. apply keeps_bind.
    + repeat (apply keeps_bind; [|intros _]);
        first [apply keeps_setCell_null | apply keeps_wakeNext | apply keeps_notifyChange].
    + intros _. apply keeps_bind; [apply keeps_set_pending|].
      intros _. apply keeps_checkRep.
  - revert b H. apply keeps_bind.
    + apply keeps_bind.
      * apply keeps_foldM. intros fl q. apply keeps_flipDown.
      * intros fl. apply keeps_if; [apply keeps_notifyChange | apply keeps_ret].
    + intros _. apply keeps_bind; [apply keeps_set_pending|].
      intros _. apply keeps_checkRep.
Qed.

(** Taking control of a card (rules 1-B and 1-C). *)
Lemma Inv_acquire b b' pos player s :
  Inv b -> cellOf b pos = Some s ->
  (faceUp s = false \/ controller s = None \/ controller s = Some player) ->
  (forall q, cellOf b' q =
             if decide (pos = q) then Some (mkSlot (label s) true (Some player))
             else cellOf b q) ->
  firstSelection b' = <[player := pos]> (firstSelection b) ->
  Inv b'.
Proof.
  intros [H1 H2] Hc Hfree Hcell Hfirst. split.
  - intros q s'. rewrite Hcell. destruct (decide _) as [<-|_].
    + intros [= <-]. simpl. discriminate.
    + apply H1.
  - intros pl q s'. rewrite Hfirst, Hcell.
    destruct (decide (player = pl)) as [<-|Hpl].
    + rewrite lookup_insert_eq. intros [= <-].
      destruct (decide _) as [_|Hn]; [|congruence].
      intros [= <-]. simpl. auto.
    + rewrite lookup_insert_ne by assumption. intros Hq.
      destruct (decide _) as [<-|_]; [|apply H2; exact Hq].
      intros _. exfalso.
      destruct (H2 pl pos s Hq Hc) as [Hu Hctl].
      destruct Hfree as [Hf|[Hf|Hf]]; congruence.
Qed.

(** Reading a cell after field writes. *)
Lemma cellAt_alterAt_pos g p f q :
  cellAt (alterAt g (r p) (c p) f) (r q) (c q) =
  if decide (p = q) then f <$> cellAt g (r p) (c p) else cellAt g (r q) (c q).
Proof.
  rewrite cellAt_alterAt.
  destruct p as [pi pj], q as [qi qj]; simpl.
  destruct (decide (pi = qi /\ pj = qj)) as [[-> ->]|Hn];
    destruct (decide (_ = _)) as [E|E]; try reflexivity.
  - exfalso; apply E; reflexivity.
  - inversion E; subst. exfalso; apply Hn; auto.
Qed.

Lemma firstSelection_wakeNextB p b : firstSelection (wakeNextB p b) = firstSelection b.
Proof. apply sameCore_wakeNextB. Qed.

Lemma pending_wakeNextB p b : pending (wakeNextB p b) = pending b.
Proof. unfold wakeNextB. destruct (waitQueues b !! key p) as [[|d q']|]; reflexivity. Qed.

Lemma grid_wakeNextB p b : grid (wakeNextB p b) = grid b.
Proof. apply sameCore_wakeNextB. Qed.

Lemma rows_wakeNextB p b : rows (wakeNextB p b) = rows b.
Proof. unfold wakeNextB. destruct (waitQueues b !! key p) as [[|d q']|]; reflexivity. Qed.

Lemma cols_wakeNextB p b : cols (wakeNextB p b) = cols b.
Proof. unfold wakeNextB. destruct (waitQueues b !! key p) as [[|d q']|]; reflexivity. Qed.

Lemma watchers_wakeNextB p b : watchers (wakeNextB p b) = watchers b.
Proof. unfold wakeNextB. destruct (waitQueues b !! key p) as [[|d q']|]; reflexivity. Qed.

Lemma withinB_wakeNextB p b q : withinB (wakeNextB p b) q = withinB b q.
Proof. unfold withinB. rewrite rows_wakeNextB, cols_wakeNextB. reflexivity. Qed.

Lemma withinB_set_grid g b q : withinB (set_grid g b) q = withinB b q.
Proof. reflexivity. Qed.

Lemma withinB_set_pending x b q : withinB (set_pending x b) q = withinB b q.
Proof. reflexivity. Qed.

Lemma withinB_notifyB b q : withinB (notifyB b) q = withinB b q.
Proof. reflexivity. Qed.

Create Rewrite HintDb cell.

#[global] Hint Rewrite withinB_wakeNextB withinB_set_grid withinB_set_pending
  withinB_notifyB : cell.

#[global] Hint Rewrite cellAt_alterAt_pos firstSelection_wakeNextB pending_wakeNextB
  grid_wakeNextB rows_wakeNextB cols_wakeNextB watchers_wakeNextB : cell.

(** Normal form for statements about cells: [cellAt] of the grid, with
    the field projections pushed through the setters. *)
Ltac fields :=
  cbn [grid firstSelection pending rows cols waitQueues watchers resolved allocated
       set_grid set_firstSelection set_pending set_waitQueues set_watchers
       set_resolved set_allocated notifyB] in *.

Ltac cells :=
  unfold cellOf in *; fields;
  repeat (progress (autorewrite with cell in *; fields)).

(** Symbolic execution of the helpers that cannot throw. *)
Ltac mrun :=
  repeat first
    [ rewrite bind_run
    | rewrite updSlot_run
    | rewrite notifyChange_run
    | rewrite wakeNext_run
    | progress cbv beta iota
    | progress unfold modify, ret, throw, takeFirst, get ].

Ltac mcheck :=
  rewrite checkRep_run;
  let res := fresh "res" in
  destruct (fst (checkRep _)) as [[]|res]; cbv beta iota.

Lemma keeps_flipFirstAsync_loop pos player : keeps Inv (flipFirstAsync_loop pos player).
Proof.
  unfold flipFirstAsync_loop.
  apply keeps_bind_read; [apply readOnly_slotAt|].
  intros b [s|] H Hs; [|exact H].
  apply slotAt_cellOf in Hs as (_ & _ & Hc).
  destruct (faceUp s) eqn:Eu; simpl.
  - destruct (bool_decide (controller s = None) || bool_decide (controller s = Some player)) eqn:Ec.
    + assert (Hfree : faceUp s = false \/ controller s = None \/ controller s = Some player).
      { apply orb_true_iff in Ec as [Ec|Ec]; apply bool_decide_eq_true in Ec; auto. }
      mrun. mcheck; simpl;
        (eapply Inv_acquire; [exact H | exact Hc | exact Hfree | | reflexivity]).
      all: intros q; cells; rewrite Hc; simpl.
      all: destruct (decide _); [unfold withController; rewrite Eu|]; reflexivity.
    + rewrite bind_run. unfold enqueueAndWait, newDeferred, bind, get, modify, ret. simpl.
      eapply Inv_sameCore; [|exact H]. split; reflexivity.
  - mrun. mcheck; simpl;
      (eapply Inv_acquire; [exact H | exact Hc | left; exact Eu | | reflexivity]).
    all: intros q; cells; destruct (decide (pos = q)); [|reflexivity].
    all: rewrite Hc, decide_True by reflexivity; reflexivity.
Qed.

Lemma keeps_flipFirst pos player : keeps Inv (flipFirst pos player).
Proof.
  unfold flipFirst. apply keeps_bind; [apply keeps_settle|]. intros _.
  apply keeps_bind_read; [apply readOnly_slotAt|].
  intros b [s|] H Hs; [|exact H].
  apply slotAt_cellOf in Hs as (_ & _ & Hc).
  destruct (faceUp s) eqn:Eu; simpl.
  - destruct (bool_decide (controller s = None) || bool_decide (controller s = Some player)) eqn:Ec.
    + assert (Hfree : faceUp s = false \/ controller s = None \/ controller s = Some player).
      { apply orb_true_iff in Ec as [Ec|Ec]; apply bool_decide_eq_true in Ec; auto. }
      mrun. mcheck; simpl;
        (eapply Inv_acquire; [exact H | exact Hc | exact Hfree | | reflexivity]).
      all: intros q; cells; rewrite Hc; simpl.
      all: destruct (decide _); [unfold withController; rewrite Eu|]; reflexivity.
    + mrun. exact H.
  - mrun. mcheck; simpl;
      (eapply Inv_acquire; [exact H | exact Hc | left; exact Eu | | reflexivity]).
    all: intros q; cells; destruct (decide (pos = q)); [|reflexivity].
    all: rewrite Hc, decide_True by reflexivity; reflexivity.
Qed.

Lemma keeps_flipFirstAsync pos player : keeps Inv (flipFirstAsync pos player).
Proof.
  unfold flipFirstAsync. apply keeps_bind; [apply keeps_settle|].
  intros _. apply keeps_flipFirstAsync_loop.
Qed.

(** Giving up the first selection (rules 2-A, 2-B, 2-E). *)
Lemma Inv_forget b player :
  Inv b -> Inv (set_firstSelection (delete player (firstSelection b)) b).
Proof.
  intros [H1 H2]. split; [exact H1|].
  intros pl q s; cells. intros Hq. apply lookup_delete_Some in Hq as [_ Hq].
  apply (H2 pl q s Hq).
Qed.

Lemma Inv_release b b' player first :
  Inv b -> firstSelection b !! player = Some first ->
  firstSelection b' = delete player (firstSelection b) ->
  (forall q, cellOf b' q =
             if decide (first = q) then withController None <$> cellOf b first
             else cellOf b q) ->
  Inv b'.
Proof.
  intros [H1 H2] Hf Hdel Hcell. split.
  - intros q s. rewrite Hcell. destruct (decide _) as [<-|_]; [|apply H1].
    destruct (cellOf b first); simpl; [|discriminate]. intros [= <-]. reflexivity.
  - intros pl q s. rewrite Hdel, Hcell. intros Hq.
    apply lookup_delete_Some in Hq as [Hne Hq].
    destruct (decide _) as [<-|_]; [|apply (H2 pl q s Hq)].
    destruct (cellOf b first) as [s0|] eqn:E; simpl; [|discriminate].
    intros _. exfalso.
    destruct (H2 pl first s0 Hq E) as [_ Hc1].
    destruct (H2 player first s0 Hf E) as [_ Hc2]. congruence.
Qed.

Lemma readOnly_eq {A} (m : M A) b x b1 : readOnly m -> m b = (x, b1) -> b1 = b.
Proof. intros Hr E. specialize (Hr b). rewrite E in Hr. exact Hr. Qed.

Lemma keeps_relinquishFirstOnly player : keeps Inv (relinquishFirstOnly player).
Proof.
  unfold relinquishFirstOnly.
  apply keeps_bind_read; [apply readOnly_get|].
  intros b b0 H Hg. inversion Hg; subst b0. clear Hg.
  destruct (firstSelection b !! player) as [first|] eqn:Ef; [|exact H].
  rewrite bind_run. destruct (slotAt first b) as [[s1|e] b1] eqn:Es.
  2: { apply readOnly_eq in Es; [subst b1; exact H | apply readOnly_slotAt]. }
  apply slotAt_cellOf in Es as (-> & _ & Hc).
  destruct s1 as [s1|].
  - mrun. mcheck; simpl.
    all: eapply Inv_release; [exact H | exact Ef | cells; reflexivity |].
    all: intros q; cells; reflexivity.
  - mrun. mcheck; simpl; apply Inv_forget, H.
Qed.

(** Completing a pair (rules 2-C, 2-D, 2-E): the two cards end face up
    and the player's first selection is dropped. *)
Lemma Inv_second b b' player first pos s2 :
  Inv b -> firstSelection b !! player = Some first ->
  cellOf b pos = Some s2 ->
  ~ (faceUp s2 = true /\ controller s2 <> None) ->
  firstSelection b' = delete player (firstSelection b) ->
  (forall q, q <> pos -> q <> first -> cellOf b' q = cellOf b q) ->
  (forall s, cellOf b' pos = Some s -> faceUp s = true) ->
  (forall s, cellOf b' first = Some s -> faceUp s = true) ->
  (forall q, is_Some (cellOf b' q) -> is_Some (cellOf b q)) ->
  Inv b'.
Proof.
  intros [H1 H2] Hf Hc Hfree Hdel Hother Hpos Hfirst Hsome. split.
  - intros q s Hq Hd.
    destruct (decide (q = pos)) as [->|Hn1].
    { rewrite (Hpos s Hq) in Hd. discriminate. }
    destruct (decide (q = first)) as [->|Hn2].
    { rewrite (Hfirst s Hq) in Hd. discriminate. }
    rewrite Hother in Hq by assumption. apply (H1 q s Hq Hd).
  - intros pl q s. rewrite Hdel. intros Hq Hcell.
    apply lookup_delete_Some in Hq as [Hne Hq].
    destruct (decide (q = pos)) as [->|Hn1].
    { exfalso. destruct (H2 pl pos s2 Hq Hc) as [Hu Hctl].
      apply Hfree. split; [exact Hu | congruence]. }
    destruct (decide (q = first)) as [->|Hn2].
    { exfalso. destruct (Hsome first) as [s0 Hs0]; [eauto|].
      destruct (H2 pl first s0 Hq Hs0) as [_ Hc1].
      destruct (H2 player first s0 Hf Hs0) as [_ Hc2]. congruence. }
    rewrite Hother in Hcell by assumption. apply (H2 pl q s Hq Hcell).
Qed.

Lemma Inv_turnUp b pos :
  Inv b -> Inv (set_grid (alterAt (grid b) (r pos) (c pos) (withFaceUp true)) b).
Proof.
  intros H. apply Inv_alter_free; [exact H|].
  intros s Hs. simpl. split; [discriminate|].
  intros pl Hpl. destruct H as [_ H2].
  destruct (H2 pl pos s Hpl Hs) as [_ Hctl]. auto.
Qed.

Lemma keeps_flipSecond pos player : keeps Inv (flipSecond pos player).
Proof.
  unfold flipSecond.
  apply keeps_bind_read; [apply readOnly_get|].
  intros b b0 H Hg. inversion Hg; subst b0. clear Hg.
  destruct (firstSelection b !! player) as [first|] eqn:Ef; [|exact H].
  rewrite bind_run. unfold within at 1. mrun.
  destruct ((if withinB b pos then getCell (r pos) (c pos) else fun b0 => (Normal None, b0)) b)
    as [[s2|e] b1] eqn:Es2.
  2: { destruct (withinB b pos); [|discriminate].
       apply readOnly_eq in Es2; [subst b1; exact H | apply readOnly_getCell]. }
  assert (b1 = b /\ forall s, s2 = Some s -> cellOf b pos = Some s) as [-> Hc].
  { destruct (withinB b pos).
    - apply getCell_normal in Es2 as [-> ->]. auto.
    - inversion Es2; subst. split; [reflexivity | discriminate]. }
  destruct s2 as [s2|].
  2: { clear Ef Hc Es2. revert b H.
       apply keeps_bind; [apply keeps_relinquishFirstOnly | intros _; apply keeps_throw]. }
  specialize (Hc s2 eq_refl). clear Es2.
  destruct (faceUp s2 && bool_decide (controller s2 <> None)) eqn:Eb.
  { clear Ef Hc. revert b H.
    apply keeps_bind; [apply keeps_relinquishFirstOnly | intros _; apply keeps_throw]. }
  assert (Hfree : ~ (faceUp s2 = true /\ controller s2 <> None)).
  { intros [Hu Hn]. rewrite Hu in Eb. simpl in Eb.
    apply bool_decide_eq_false in Eb. contradiction. }
  set (b1 := if negb (faceUp s2)
             then set_grid (alterAt (grid b) (r pos) (c pos) (withFaceUp true)) b
             else b).
  assert (Hb1 : Inv b1).
  { unfold b1. destruct (negb (faceUp s2)); [apply Inv_turnUp|]; exact H. }
  assert (Hrun : (if negb (faceUp s2) then updSlot pos (withFaceUp true)
                  else fun b0 => (Normal tt, b0)) b
                 = (Normal tt, b1)).
  { unfold b1. destruct (negb (faceUp s2)); reflexivity. }
  cbv zeta. rewrite bind_run, Hrun. cbv beta iota.
  rewrite bind_run. destruct (slotAt first b1) as [[s1|e] b2] eqn:Es1.
  2: { apply readOnly_eq in Es1; [subst b2; exact Hb1 | apply readOnly_slotAt]. }
  apply slotAt_cellOf in Es1 as (-> & _ & Hc1).
  destruct s1 as [s1|]; [|exact Hb1].
  assert (Hcells :
    (forall q, q <> pos -> cellOf b1 q = cellOf b q) /\
    (forall s, cellOf b1 pos = Some s -> faceUp s = true) /\
    (forall q, is_Some (cellOf b1 q) -> is_Some (cellOf b q)) /\
    firstSelection b1 = firstSelection b).
  { unfold b1. destruct (faceUp s2) eqn:Eu; simpl.
    - repeat split; auto. intros s Hs. rewrite Hc in Hs. congruence.
    - repeat split.
      + intros q Hq. cells. rewrite decide_False by congruence. reflexivity.
      + intros s. cells. rewrite decide_True by reflexivity. rewrite Hc. simpl.
        intros [= <-]. reflexivity.
      + intros q. cells. destruct (decide _) as [<-|_]; [|auto].
        rewrite Hc. eauto. }
  destruct Hcells as (Hoth & Hposup & Hsome & Hfs).
  assert (Hne : first <> pos).
  { intros ->. destruct H as [_ H2].
    destruct (H2 player pos s2 Ef Hc) as [Hu Hctl].
    apply Hfree. split; [exact Hu | congruence]. }
  assert (Hc1' : cellOf b first = Some s1).
  { rewrite <- Hoth by assumption. exact Hc1. }
  assert (Hfirstup : faceUp s1 = true).
  { destruct H as [_ H2]. apply (H2 player first s1 Ef Hc1'). }
  assert (Hup : negb (faceUp s2) = false -> faceUp s2 = true).
  { destruct (faceUp s2); [reflexivity | discriminate]. }
  clear Hrun Hb1 Hc1 Hoth Hposup Hsome Hfs. subst b1.
  destruct (bool_decide (label s1 = label s2));
    mrun; destruct (negb (faceUp s2)) eqn:Eneg; mrun; mcheck; simpl.
  all: eapply (Inv_second b _ player first pos s2 H Ef Hc Hfree); [cells; reflexivity | | | |].
  all: try (intros q Hq1 Hq2; cells; repeat case_decide; subst; try congruence; reflexivity).
  all: try (intros s; cells; repeat case_decide; subst; try congruence;
            rewrite ?Hc, ?Hc1'; simpl; intros [= <-]; simpl; auto).
  all: intros q; cells; repeat case_decide; subst; try congruence;
       rewrite ?Hc, ?Hc1'; simpl; eauto.
Qed.

Lemma keeps_flipSecondAsync pos player : keeps Inv (flipSecondAsync pos player).
Proof.
  unfold flipSecondAsync. apply keeps_bind; [apply keeps_flipSecond|].
  intros _. apply keeps_ret.
Qed.

Lemma keeps_watch forPlayer : keeps Inv (watch forPlayer).
Proof.
  intros b H. unfold watch, newDeferred, bind, get, modify, ret. simpl.
  eapply Inv_sameCore; [|exact H]. split; reflexivity.
Qed.

Lemma readOnly_scanCell byValue i j : readOnly (scanCell byValue i j).
Proof.
  unfold scanCell. apply readOnly_bind; [apply readOnly_getCell|].
  intros [s|]; apply readOnly_ret.
Qed.

Lemma readOnly_groupByValue : readOnly groupByValue.
Proof.
  unfold groupByValue. apply readOnly_bind; [apply readOnly_get|]. intros b.
  apply readOnly_foldM. intros bv i. apply readOnly_foldM. intros bv' j.
  apply readOnly_scanCell.
Qed.

Lemma readOnly_snapshot forPlayer : readOnly (snapshot forPlayer).
Proof.
  unfold snapshot, snapshotLines.
  apply readOnly_bind; [|intros out; apply readOnly_ret].
  apply readOnly_bind; [apply readOnly_get|]. intros b.
  apply readOnly_foldM. intros out i. apply readOnly_foldM. intros out' j.
  apply readOnly_bind; [apply readOnly_getCell|]. intros cell. apply readOnly_ret.
Qed.

(** Rewriting a label touches neither the face nor the controller. *)
Lemma Inv_relabel b p v :
  Inv b -> Inv (set_grid (alterAt (grid b) (r p) (c p) (withLabel v)) b).
Proof.
  intros H. apply Inv_alter_free; [exact H|].
  intros s Hs. simpl. destruct H as [H1 H2]. split.
  - apply (H1 p s Hs).
  - intros pl Hpl. apply (H2 pl p s Hpl Hs).
Qed.

Lemma keeps_commitCell v p : keeps Inv (commitCell v p).
Proof.
  unfold commitCell. apply keeps_bind_read; [apply readOnly_getCell|].
  intros b [s|] H _; [|exact H].
  rewrite updSlot_run. apply Inv_relabel, H.
Qed.

Lemma keeps_commitGroups entries mapping : keeps Inv (commitGroups entries mapping).
Proof.
  unfold commitGroups. apply keeps_forEach. intros e.
  destruct (mapGet (fst e) mapping); [|apply keeps_ret].
  apply keeps_forEach. intros p. apply keeps_commitCell.
Qed.

Lemma keeps_map_commit entries results : keeps Inv (map_commit entries results).
Proof.
  unfold map_commit. apply keeps_bind; [apply keeps_commitGroups|].
  intros _. apply keeps_checkRep.
Qed.

Lemma keeps_map transform : keeps Inv (map transform).
Proof.
  unfold map. apply keeps_bind; [apply keeps_readOnly, readOnly_groupByValue|].
  intros entries. destruct (snd (transformAll transform entries));
    [apply keeps_map_commit | apply keeps_throw].
Qed.

Lemma keeps_commitCellChanged v ch p : keeps Inv (commitCellChanged v ch p).
Proof.
  unfold commitCellChanged. apply keeps_bind_read; [apply readOnly_getCell|].
  intros b [s|] H _; [|exact H].
  destruct (bool_decide (label s <> v)); [|exact H].
  rewrite bind_run, updSlot_run. apply Inv_relabel, H.
Qed.

Lemma keeps_mapCards_commit entries results : keeps Inv (mapCards_commit entries results).
Proof.
  unfold mapCards_commit. apply keeps_bind.
  - unfold commitGroupsChanged. apply keeps_foldM. intros ch e.
    destruct (mapGet (fst e) (newMap results)); [|apply keeps_ret].
    destruct (bool_decide _); [apply keeps_ret|].
    apply keeps_foldM. intros ch' p. apply keeps_commitCellChanged.
  - intros ch. apply keeps_bind; [|intros _; apply keeps_checkRep].
    destruct ch; [apply keeps_notifyChange | apply keeps_ret].
Qed.

Lemma keeps_mapCards player transform : keeps Inv (mapCards player transform).
Proof.
  unfold mapCards. apply keeps_bind; [apply keeps_readOnly, readOnly_groupByValue|].
  intros entries. destruct (snd (transformAll transform entries));
    [apply keeps_mapCards_commit | apply keeps_throw].
Qed.

(** ** Freshly built boards *)

Lemma traverse_Forall2 {A B} (f : A -> option B) xs ys :
  traverse f xs = Some ys -> Forall2 (fun x y => f x = Some y) xs ys.
Proof.
  revert ys. induction xs as [|x xs IH]; intros ys; simpl.
  - intros [= <-]. constructor.
  - destruct (f x) as [y|] eqn:E; [|discriminate].
    destruct (traverse f xs) as [ys'|]; [|discriminate].
    intros [= <-]. constructor; auto.
Qed.

Lemma initialGrid_cells nrows ncols labels g i j s :
  initialGrid nrows ncols labels = Some g ->
  cellAt g i j = Some s -> faceUp s = false /\ controller s = None.
Proof.
  unfold initialGrid. intros Hg Hc. apply traverse_Forall2 in Hg.
  unfold cellAt, gridRow, rowCell in Hc.
  destruct (i <? 0); [discriminate|].
  destruct (g !! Z.to_nat i) as [rw|] eqn:Er; [|discriminate].
  destruct (j <? 0); [discriminate|].
  destruct (rw !! Z.to_nat j) as [cell|] eqn:Ec; [|discriminate].
  subst cell.
  destruct (Forall2_lookup_r _ _ _ _ _ Hg Er) as (x & _ & Hrow).
  apply traverse_Forall2 in Hrow.
  destruct (Forall2_lookup_r _ _ _ _ _ Hrow Ec) as (y & _ & Hcell).
  destruct (labels !! _); [|discriminate].
  inversion Hcell; subst. auto.
Qed.

Lemma newBoard_Inv nrows ncols labels b :
  newBoard nrows ncols labels = Normal b -> Inv b.
Proof.
  unfold newBoard. destruct (initialGrid nrows ncols labels) as [g|] eqn:Eg; [|discriminate].
  rewrite checkRep_run. destruct (fst (checkRep _)); [|discriminate].
  intros [= <-]. split.
  - intros q s Hq _. eapply initialGrid_cells; eassumption.
  - intros p q s Hp. simpl in Hp. rewrite lookup_empty in Hp. discriminate.
Qed.

Lemma reachable_Inv b : reachable b -> Inv b.
Proof.
  induction 1 as [nrows ncols labels b Hn | | | | | | | | | | | | ].
  - eapply newBoard_Inv; eassumption.
  - apply keeps_settle; assumption.
  - apply keeps_flipFirst; assumption.
  - apply keeps_flipSecond; assumption.
  - apply keeps_flipFirstAsync; assumption.
  - apply keeps_flipFirstAsync_loop; assumption.
  - apply keeps_flipSecondAsync; assumption.
  - apply keeps_readOnly; [apply readOnly_snapshot | assumption].
  - apply keeps_watch; assumption.
  - apply keeps_map; assumption.
  - apply keeps_map_commit; assumption.
  - apply keeps_mapCards; assumption.
  - apply keeps_mapCards_commit; assumption.
Qed.

(** C9. In every board reachable through the methods of the class
    ([settleBeforeNewFirstMove], [flipFirst], [flipSecond], their
    asynchronous variants, [snapshot], [watch], [map], [mapCards]), an
    occupied cell that is face down has no controller. *)
Theorem face_down_uncontrolled b q s :
  reachable b -> cellOf b q = Some s -> faceUp s = false -> controller s = None.
Proof.
  intros Hr. destruct (reachable_Inv b Hr) as [H1 _]. apply H1.
Qed.

(** ** [checkRep] passes exactly on the representation invariant *)

Lemma In_seqZ (k n : Z) : In k (seqZ 0 n) <-> 0 <= k < n.
Proof. rewrite <- list_elem_of_In, elem_of_seqZ. lia. Qed.

Lemma gridRow_Some g i rw :
  gridRow g i = Some rw -> 0 <= i < Z.of_nat (length g).
Proof.
  unfold gridRow. destruct (Z.ltb_spec i 0); [discriminate|].
  intros Hl. apply lookup_lt_Some in Hl. lia.
Qed.

Lemma gridRow_is_Some g i :
  0 <= i < Z.of_nat (length g) -> is_Some (gridRow g i).
Proof.
  intros H. unfold gridRow. destruct (Z.ltb_spec i 0); [lia|].
  apply lookup_lt_is_Some. lia.
Qed.

Lemma gridRow_elem g i rw : gridRow g i = Some rw -> rw ∈ g.
Proof.
  unfold gridRow. destruct (i <? 0); [discriminate|].
  intros H. eapply list_elem_of_lookup_2; eassumption.
Qed.

Lemma rowCell_Some rw j s : rowCell rw j = Some s -> 0 <= j < Z.of_nat (length rw).
Proof.
  unfold rowCell. destruct (Z.ltb_spec j 0); [discriminate|].
  destruct (rw !! Z.to_nat j) eqn:E; [|discriminate].
  intros _. apply lookup_lt_Some in E. lia.
Qed.

Lemma checkSlot_ok s b :
  checkSlot s b = (Normal tt, b) <->
  cardRe (label s) = true /\ (faceUp s = false -> controller s = None).
Proof.
  unfold checkSlot.
  destruct (cardRe (label s)); simpl.
  2: { split; [discriminate | intros [? _]; discriminate]. }
  destruct (faceUp s); simpl.
  { split; [intros _; split; [reflexivity | discriminate] | reflexivity]. }
  destruct (bool_decide (controller s <> None)) eqn:E.
  - apply bool_decide_eq_true in E. split; [discriminate|].
    intros [_ H]. exfalso. apply E, H. reflexivity.
  - apply bool_decide_eq_false in E. split; [|reflexivity].
    intros _. split; [reflexivity|]. intros _.
    destruct (controller s); [exfalso; apply E; discriminate | reflexivity].
Qed.

Lemma checkPending_ok o b :
  checkPending o b = (Normal tt, b) <->
  (forall x, o = Some x ->
     withinB b (outcomeFirst x) = true /\ withinB b (outcomeSecond x) = true).
Proof.
  destruct o as [x|]; unfold checkPending.
  2: { split; [intros _ x; discriminate | reflexivity]. }
  simpl. unfold bind, within, get, ret, throw. simpl.
  destruct (withinB b (outcomeFirst x)) eqn:E1; simpl.
  2: { split; [discriminate|]. intros H. destruct (H x eq_refl); congruence. }
  destruct (withinB b (outcomeSecond x)) eqn:E2; simpl.
  2: { split; [discriminate|]. intros H. destruct (H x eq_refl); congruence. }
  split; [|reflexivity]. intros _ y [= <-]. auto.
Qed.

Lemma checkRep_ok b : RI b -> checkRep b = (Normal tt, b).
Proof.
  intros (Hrows & Hcols & Hcells & Hpend).
  unfold checkRep. rewrite bind_run. unfold get at 1. cbv beta iota.
  rewrite bind_run. rewrite bool_decide_eq_false_2 by (intros Hn; apply Hn, Hrows).
  unfold ret at 1. cbv beta iota.
  rewrite bind_run, forEach_ok_intro.
  2: { intros rw Hrw. apply list_elem_of_In in Hrw.
       rewrite Forall_forall in Hcols. 
       rewrite bool_decide_eq_false_2; [reflexivity|].
       intros Hn; apply Hn. apply Hcols. exact Hrw. }
  cbv beta iota.
  rewrite bind_run, forEach_ok_intro.
  2: { intros i Hi. apply In_seqZ in Hi. apply forEach_ok_intro.
       intros j Hj. rewrite bind_run, getCell_run.
       destruct (gridRow_is_Some (grid b) i) as [rw Hrw]; [lia|].
       rewrite Hrw. cbv beta iota.
       destruct (rowCell rw j) as [s|] eqn:Es; [|reflexivity].
       apply checkSlot_ok. apply (Hcells (mkPos i j)).
       unfold cellOf, cellAt. simpl. rewrite Hrw. exact Es. }
  cbv beta iota.
  apply forEach_ok_intro. intros [p o] Hin. simpl.
  apply checkPending_ok. intros x ->.
  apply list_elem_of_In, elem_of_map_to_list in Hin. apply (Hpend p x Hin).
Qed.

Lemma checkRep_RI b : fst (checkRep b) = Normal tt -> RI b.
Proof.
  unfold checkRep. rewrite bind_run. unfold get at 1. cbv beta iota.
  rewrite bind_run.
  destruct (bool_decide (Z.of_nat (length (grid b)) <> rows b)) eqn:E1; [discriminate|].
  apply bool_decide_eq_false in E1. unfold ret at 1. cbv beta iota.
  rewrite bind_run.
  match goal with |- context [forEach (grid b) ?f b] => set (body1 := f) end.
  assert (R1 : forall x, readOnly (body1 x)).
  { intros x. unfold body1. apply readOnly_if; [apply readOnly_throw | apply readOnly_ret]. }
  rewrite (readOnly_run _ b (readOnly_forEach _ _ R1)).
  destruct (fst (forEach (grid b) body1 b)) as [[]|] eqn:E2; [|discriminate].
  cbv beta iota. rewrite bind_run.
  match goal with |- context [forEach (seqZ 0 (rows b)) ?f b] => set (body2 := f) end.
  assert (R2 : forall x, readOnly (body2 x)).
  { intros x. unfold body2. apply readOnly_forEach. intros j.
    apply readOnly_bind; [apply readOnly_getCell|].
    intros [s|]; [apply readOnly_checkSlot | apply readOnly_ret]. }
  rewrite (readOnly_run _ b (readOnly_forEach _ _ R2)).
  destruct (fst (forEach (seqZ 0 (rows b)) body2 b)) as [[]|] eqn:E3; [|discriminate].
  cbv beta iota. intros E4.
  assert (Hrows : Z.of_nat (length (grid b)) = rows b).
  { destruct (decide (Z.of_nat (length (grid b)) = rows b)); [assumption | contradiction]. }
  assert (Hcols : Forall (fun rw => Z.of_nat (length rw) = cols b) (grid b)).
  { apply Forall_forall. intros rw Hrw. apply list_elem_of_In in Hrw.
    pose proof (forEach_ok_elim _ _ b R1 E2 rw Hrw) as Hb. unfold body1 in Hb.
    destruct (bool_decide (Z.of_nat (length rw) <> cols b)) eqn:E; [discriminate|].
    apply bool_decide_eq_false in E.
    destruct (decide (Z.of_nat (length rw) = cols b)); [assumption | contradiction]. }
  split; [exact Hrows|]. split; [exact Hcols|]. split.
  - intros [i j] s Hc. unfold cellOf, cellAt in Hc. simpl in Hc.
    destruct (gridRow (grid b) i) as [rw|] eqn:Hrw; [|discriminate].
    pose proof (gridRow_Some _ _ _ Hrw) as Hi.
    pose proof (rowCell_Some _ _ _ Hc) as Hj.
    rewrite Forall_forall in Hcols. specialize (Hcols rw (gridRow_elem _ _ _ Hrw)).
    assert (Hin : In i (seqZ 0 (rows b))) by (apply In_seqZ; lia).
    pose proof (forEach_ok_elim _ _ b R2 E3 i Hin) as Hb. unfold body2 in Hb.
    assert (Hinj : In j (seqZ 0 (cols b))) by (apply In_seqZ; lia).
    eapply forEach_ok_elim in Hinj; [| |rewrite Hb; reflexivity].
    2: { intros j'. apply readOnly_bind; [apply readOnly_getCell|].
         intros [s'|]; [apply readOnly_checkSlot | apply readOnly_ret]. }
    cbv beta in Hinj.
    rewrite bind_run, getCell_run, Hrw in Hinj. cbv beta iota in Hinj.
    rewrite Hc in Hinj. apply checkSlot_ok in Hinj. exact Hinj.
  - intros p o Hp.
    assert (Hin : In (p, Some o) (map_to_list (pending b))).
    { apply list_elem_of_In, elem_of_map_to_list. exact Hp. }
    eapply forEach_ok_elim in Hin; [| |exact E4].
    2: { intros e. apply readOnly_checkPending. }
    cbv beta in Hin. cbn [snd] in Hin.
    exact (proj1 (checkPending_ok _ _) Hin o eq_refl).
Qed.

(** ** Keeping the representation invariant *)

Lemma RI_frame b b' :
  RI b -> grid b' = grid b -> rows b' = rows b -> cols b' = cols b ->
  pending b' = pending b -> RI b'.
Proof.
  intros (H1 & H2 & H3 & H4) Hg Hr Hc Hp.
  unfold RI, cellOf, withinB. rewrite Hg, Hr, Hc, Hp. auto.
Qed.

Lemma RI_wakeNextB p b : RI b -> RI (wakeNextB p b).
Proof.
  intros H. apply (RI_frame b); [exact H | apply grid_wakeNextB | apply rows_wakeNextB
                                | apply cols_wakeNextB | apply pending_wakeNextB].
Qed.

Lemma RI_notifyB b : RI b -> RI (notifyB b).
Proof. intros H. apply (RI_frame b); auto. Qed.

Lemma RI_set_firstSelection f b : RI b -> RI (set_firstSelection f b).
Proof. intros H. apply (RI_frame b); auto. Qed.

Lemma RI_set_pending b p o :
  RI b ->
  (forall x, o = Some x ->
     withinB b (outcomeFirst x) = true /\ withinB b (outcomeSecond x) = true) ->
  RI (set_pending (<[p := o]> (pending b)) b).
Proof.
  intros (H1 & H2 & H3 & H4) Ho. repeat split; try assumption.
  - apply (H3 q s H).
  - apply (H3 q s H).
  - simpl in H. destruct (decide (p = p0)) as [<-|Hne].
    + rewrite lookup_insert_eq in H. inversion H; subst. apply (Ho o0 eq_refl).
    + rewrite lookup_insert_ne in H by assumption. apply (H4 p0 o0 H).
  - simpl in H. destruct (decide (p = p0)) as [<-|Hne].
    + rewrite lookup_insert_eq in H. inversion H; subst. apply (Ho o0 eq_refl).
    + rewrite lookup_insert_ne in H by assumption. apply (H4 p0 o0 H).
Qed.

Lemma Forall_length_alterAt (g : list (list (option Slot))) i j f n :
  Forall (fun rw => Z.of_nat (length rw) = n) g ->
  Forall (fun rw => Z.of_nat (length rw) = n) (alterAt g i j f).
Proof.
  intros H. unfold alterAt. destruct (_ || _); [exact H|].
  apply Forall_alter; [exact H|]. intros rw _ Hrw. rewrite length_alter. exact Hrw.
Qed.

Lemma RI_alter b p f :
  RI b ->
  (forall s, cellOf b p = Some s ->
     cardRe (label (f s)) = true /\ (faceUp (f s) = false -> controller (f s) = None)) ->
  RI (set_grid (alterAt (grid b) (r p) (c p) f) b).
Proof.
  intros (H1 & H2 & H3 & H4) Hf. split; [|split; [|split]].
  - simpl. rewrite length_alterAt. exact H1.
  - simpl. apply Forall_length_alterAt, H2.
  - intros q s. rewrite cellOf_alter. destruct (decide _) as [<-|_]; [|apply H3].
    destruct (cellOf b p) as [s0|] eqn:E; simpl; [|discriminate].
    intros [= <-]. apply (Hf s0 eq_refl).
  - exact H4.
Qed.

Lemma withinB_row b p :
  RI b -> withinB b p = true ->
  exists rw, gridRow (grid b) (r p) = Some rw /\ Z.of_nat (length rw) = cols b /\
             0 <= c p < cols b.
Proof.
  intros (H1 & H2 & _) Hw. unfold withinB in Hw.
  apply andb_true_iff in Hw as [Hw Hc2]. apply andb_true_iff in Hw as [Hw Hc1].
  apply andb_true_iff in Hw as [Hr1 Hr2].
  apply Z.geb_le in Hr1, Hc1. apply Z.ltb_lt in Hr2, Hc2.
  destruct (gridRow_is_Some (grid b) (r p)) as [rw Hrw]; [lia|].
  exists rw. split; [exact Hrw|]. split; [|lia].
  rewrite Forall_forall in H2. apply H2. eapply gridRow_elem; eassumption.
Qed.

Lemma RI_remove b p :
  RI b -> withinB b p = true ->
  RI (set_grid (setAt (grid b) (r p) (c p) None) b).
Proof.
  intros H Hw. destruct (withinB_row b p H Hw) as (rw & Hrw & Hlen & Hc).
  destruct H as (H1 & H2 & H3 & H4). split; [|split; [|split]].
  - simpl. unfold setAt. rewrite Hrw, length_insert. exact H1.
  - simpl. unfold setAt. rewrite Hrw. apply Forall_insert; [exact H2|].
    unfold arraySet. destruct (Nat.ltb_spec (Z.to_nat (c p)) (length rw)); [|lia].
    rewrite length_insert. exact Hlen.
  - intros q s. unfold cellOf; simpl.
    rewrite cellAt_setAt by (rewrite ?Hrw; eauto; lia).
    destruct (decide _); [discriminate | apply H3].
  - exact H4.
Qed.

(** Reads and writes inside the grid do not throw. *)
Lemma getCell_in b i j :
  RI b -> 0 <= i < rows b -> getCell i j b = (Normal (cellAt (grid b) i j), b).
Proof.
  intros (H1 & _) Hi. rewrite getCell_run. unfold cellAt.
  destruct (gridRow_is_Some (grid b) i) as [rw Hrw]; [lia|]. rewrite Hrw. reflexivity.
Qed.

Lemma getCell_within b p :
  RI b -> withinB b p = true -> getCell (r p) (c p) b = (Normal (cellOf b p), b).
Proof.
  intros H Hw. destruct (withinB_row b p H Hw) as (rw & Hrw & _).
  rewrite getCell_run, Hrw. unfold cellOf, cellAt. rewrite Hrw. reflexivity.
Qed.

Lemma slotAt_within b p :
  RI b -> withinB b p = true -> slotAt p b = (Normal (cellOf b p), b).
Proof. intros H Hw. rewrite slotAt_run, Hw. apply getCell_within; assumption. Qed.

Lemma slotAt_outside b p : withinB b p = false -> slotAt p b = (Thrown OutOfBounds, b).
Proof. intros Hw. rewrite slotAt_run, Hw. reflexivity. Qed.

Lemma setCell_within b p val :
  RI b -> withinB b p = true ->
  setCell (r p) (c p) val b = (Normal tt, set_grid (setAt (grid b) (r p) (c p) val) b).
Proof.
  intros H Hw. destruct (withinB_row b p H Hw) as (rw & Hrw & _ & Hc).
  rewrite setCell_run, Hrw.
  destruct (Z.ltb_spec (c p) 0); [lia|]. simpl.
  destruct (Z.geb_spec (c p) (cols b)); [lia|]. reflexivity.
Qed.

(** ** What the cleanup does *)

Lemma RI_flipDownB q b : RI b -> RI (flipDownB q b).
Proof.
  intros H. unfold flipDownB, turnsDown.
  destruct (cellOf b q) as [cell|] eqn:Ec; [|exact H].
  destruct (faceUp cell && bool_decide (controller cell = None)) eqn:E; [|exact H].
  apply andb_true_iff in E as [_ E]. apply bool_decide_eq_true in E.
  apply RI_alter; [exact H|]. intros s Hs. rewrite Ec in Hs. inversion Hs; subst s.
  simpl. split; [|intros _; exact E].
  destruct H as (_ & _ & H3 & _). apply (H3 q cell Ec).
Qed.

Lemma dims_flipDownB q b :
  rows (flipDownB q b) = rows b /\ cols (flipDownB q b) = cols b /\
  pending (flipDownB q b) = pending b.
Proof. unfold flipDownB. destruct (turnsDown q b); auto. Qed.

Lemma flipDown_run flipped q b :
  RI b -> withinB b q = true ->
  (let* cell := getCell (r q) (c q) in
   match cell with
   | Some cell =>
       if faceUp cell && bool_decide (controller cell = None)
       then updSlot q (withFaceUp false) ;; ret true
       else ret flipped
   | None => ret flipped
   end) b = (Normal (flipped || turnsDown q b), flipDownB q b).
Proof.
  intros H Hw. rewrite bind_run, getCell_within by assumption. cbv beta iota.
  unfold flipDownB, turnsDown. destruct (cellOf b q) as [cell|]; [|rewrite orb_false_r; reflexivity].
  destruct (faceUp cell && bool_decide (controller cell = None)).
  - rewrite orb_true_r. reflexivity.
  - rewrite orb_false_r. reflexivity.
Qed.

Lemma settle_run p b :
  RI b ->
  settleBeforeNewFirstMove p b = (Normal tt, settleB p b) /\
  RI (settleB p b) /\ rows (settleB p b) = rows b /\ cols (settleB p b) = cols b.
Proof.
  intros H. unfold settleBeforeNewFirstMove, settleB.
  rewrite bind_run. unfold get at 1. cbv beta iota.
  destruct (pending b !! p) as [[[a b'|first second]|]|] eqn:Ep; auto.
  - pose proof H as (H1 & H2 & H3 & H4). destruct (H4 p _ Ep) as [Ha Hb]. simpl in Ha, Hb.
    assert (R1 : RI (removeB a b)) by (apply RI_remove; assumption).
    assert (R2 : RI (removeB b' (removeB a b))) by (apply RI_remove; assumption).
    set (b1 := notifyB (wakeNextB b' (wakeNextB a (removeB b' (removeB a b))))).
    assert (R3 : RI b1) by (apply RI_notifyB, RI_wakeNextB, RI_wakeNextB, R2).
    assert (R4 : RI (set_pending (<[p := None]> (pending b1)) b1)).
    { apply RI_set_pending; [exact R3 | intros x; discriminate]. }
    rewrite !bind_run, (setCell_within b a) by assumption. cbv beta iota.
    rewrite !bind_run, (setCell_within _ b') by assumption. cbv beta iota.
    mrun. fold (removeB a b). fold (removeB b' (removeB a b)). fold b1.
    rewrite (checkRep_ok _ R4).
    refine (conj eq_refl (conj R4 (conj _ _))); unfold b1, removeB; cells; reflexivity.
  - pose proof H as (H1 & H2 & H3 & H4). destruct (H4 p _ Ep) as [Ha Hb]. simpl in Ha, Hb.
    set (b1 := flipDownB first b). set (b2 := flipDownB second b1).
    assert (R1 : RI b1) by (apply RI_flipDownB, H).
    assert (R2 : RI b2) by (apply RI_flipDownB, R1).
    destruct (dims_flipDownB first b) as (D1 & D2 & D3). fold b1 in D1, D2, D3.
    destruct (dims_flipDownB second b1) as (E1 & E2 & E3). fold b2 in E1, E2, E3.
    assert (Hb1 : withinB b1 second = true).
    { unfold withinB. rewrite D1, D2. exact Hb. }
    set (b3 := if turnsDown first b || turnsDown second b1 then notifyB b2 else b2).
    assert (R3 : RI b3) by (unfold b3; destruct (_ || _); [apply RI_notifyB|]; exact R2).
    assert (R4 : RI (set_pending (<[p := None]> (pending b3)) b3)).
    { apply RI_set_pending; [exact R3 | intros x; discriminate]. }
    rewrite bind_run. rewrite bind_run. cbn [foldM].
    rewrite bind_run, (flipDown_run false first b H Ha). cbv beta iota. fold b1.
    rewrite bind_run, (flipDown_run _ second b1 R1 Hb1). cbv beta iota. fold b2.
    unfold ret at 1. cbv beta iota. simpl (false || _).
    assert (Hn : (if turnsDown first b || turnsDown second b1 then notifyChange else ret tt) b2
                 = (Normal tt, b3)).
    { unfold b3. destruct (_ || _); [apply notifyChange_run | reflexivity]. }
    rewrite Hn. cbv beta iota. rewrite bind_run. unfold modify at 1. cbv beta iota.
    rewrite (checkRep_ok _ R4).
    refine (conj eq_refl (conj R4 (conj _ _)));
      unfold b3; destruct (_ || _); cells; congruence.
Qed.

(** ** Releasing the first selection (rules 2-A and 2-B) *)

Lemma RI_releaseB player first b : RI b -> RI (releaseB player first b).
Proof.
  intros H. unfold releaseB. apply RI_set_firstSelection.
  destruct (cellOf b first) as [s|] eqn:E; [|exact H].
  apply RI_wakeNextB, RI_alter; [exact H|].
  intros s0 Hs0. simpl. split; [|reflexivity].
  destruct H as (_ & _ & H3 & _). apply (H3 first s0 Hs0).
Qed.

Lemma relinquish_run player first b :
  RI b -> firstSelection b !! player = Some first -> withinB b first = true ->
  relinquishFirstOnly player b = (Normal tt, releaseB player first b).
Proof.
  intros H Hf Hw. pose proof (RI_releaseB player first b H) as R.
  unfold relinquishFirstOnly. rewrite bind_run. unfold get at 1. cbv beta iota.
  rewrite Hf. rewrite bind_run, slotAt_within by assumption. cbv beta iota.
  unfold releaseB in *. destruct (cellOf b first) as [s|]; mrun; rewrite (checkRep_ok _ R); reflexivity.
Qed.

Lemma wakeNextB_queue p b :
  resolved (wakeNextB p b) = resolved b ++ take 1 (queueOf b p) /\
  queueOf (wakeNextB p b) p = drop 1 (queueOf b p) /\
  (forall q, key q <> key p -> queueOf (wakeNextB p b) q = queueOf b q).
Proof.
  unfold wakeNextB, queueOf.
  destruct (waitQueues b !! key p) as [[|d q']|] eqn:E; simpl.
  - rewrite E, app_nil_r. auto.
  - rewrite lookup_insert_eq. simpl. split; [reflexivity|]. split; [reflexivity|].
    intros q Hq. rewrite lookup_insert_ne by congruence. reflexivity.
  - rewrite E, app_nil_r. auto.
Qed.

Lemma releaseB_first_gone b p first :
  cellOf b first = None ->
  releaseB p first b = set_firstSelection (delete p (firstSelection b)) b.
Proof. intros Hc. unfold releaseB. rewrite Hc. reflexivity. Qed.


(** ** First flips: what a failure leaves behind *)

Lemma RI_turnUp b pos :
  RI b -> RI (set_grid (alterAt (grid b) (r pos) (c pos) (withFaceUp true)) b).
Proof.
  intros H. apply RI_alter; [exact H|]. intros s Hs. simpl.
  split; [|discriminate]. destruct H as (_ & _ & H3 & _). apply (H3 pos s Hs).
Qed.

Lemma RI_control b pos player s :
  RI b -> cellOf b pos = Some s -> faceUp s = true ->
  RI (set_grid (alterAt (grid b) (r pos) (c pos) (withController (Some player))) b).
Proof.
  intros H Hc Hu. apply RI_alter; [exact H|]. intros s0 Hs0.
  rewrite Hc in Hs0. inversion Hs0; subst s0. simpl.
  split; [|congruence]. destruct H as (_ & _ & H3 & _). apply (H3 pos s Hc).
Qed.

Lemma flipFirst_result pos p b :
  RI b ->
  (exists b', flipFirst pos p b = (Normal tt, b')) \/
  (exists e, flipFirst pos p b = (Thrown e, settleB p b) /\
             (e = OutOfBounds /\ withinB b pos = false \/
              e = EmptySpace /\ withinB b pos = true \/
              e = Contested /\ withinB b pos = true)).
Proof.
  intros H. destruct (settle_run p b H) as (Hs & R & Dr & Dc).
  assert (Hwb : withinB (settleB p b) pos = withinB b pos).
  { unfold withinB. rewrite Dr, Dc. reflexivity. }
  unfold flipFirst. rewrite bind_run, Hs. cbv beta iota. rewrite bind_run.
  destruct (withinB b pos) eqn:Hw.
  2: { right. exists OutOfBounds. rewrite slotAt_outside by congruence. auto. }
  rewrite slotAt_within by congruence. cbv beta iota.
  destruct (cellOf (settleB p b) pos) as [s|] eqn:Hc.
  2: { right. exists EmptySpace. auto. }
  destruct (faceUp s) eqn:Eu; simpl.
  - destruct (bool_decide (controller s = None) || bool_decide (controller s = Some p)).
    + left. mrun. erewrite checkRep_ok; [eexists; reflexivity|].
      apply RI_set_firstSelection. eapply RI_control; eassumption.
    + right. exists Contested. mrun. auto.
  - left. mrun. erewrite checkRep_ok; [eexists; reflexivity|].
    apply RI_set_firstSelection, RI_notifyB.
    apply (RI_control (set_grid (alterAt (grid (settleB p b)) (r pos) (c pos) (withFaceUp true))
                                (settleB p b)) pos p (withFaceUp true s)).
    + apply RI_turnUp, R.
    + cells. rewrite decide_True by reflexivity. rewrite Hc. reflexivity.
    + reflexivity.
Qed.

Lemma flipFirstAsync_result pos p b :
  RI b ->
  (exists st b', flipFirstAsync pos p b = (Normal st, b')) \/
  (exists e, flipFirstAsync pos p b = (Thrown e, settleB p b) /\
             (e = OutOfBounds /\ withinB b pos = false \/
              e = EmptySpace /\ withinB b pos = true)).
Proof.
  intros H. destruct (settle_run p b H) as (Hs & R & Dr & Dc).
  assert (Hwb : withinB (settleB p b) pos = withinB b pos).
  { unfold withinB. rewrite Dr, Dc. reflexivity. }
  unfold flipFirstAsync, flipFirstAsync_loop. rewrite bind_run, Hs. cbv beta iota.
  rewrite bind_run.
  destruct (withinB b pos) eqn:Hw.
  2: { right. exists OutOfBounds. rewrite slotAt_outside by congruence. auto. }
  rewrite slotAt_within by congruence. cbv beta iota.
  destruct (cellOf (settleB p b) pos) as [s|] eqn:Hc.
  2: { right. exists EmptySpace. auto. }
  left. destruct (faceUp s) eqn:Eu; simpl.
  - destruct (bool_decide (controller s = None) || bool_decide (controller s = Some p)).
    + mrun. erewrite checkRep_ok; [eexists _, _; reflexivity|].
      apply RI_set_firstSelection. eapply RI_control; eassumption.
    + unfold enqueueAndWait, newDeferred. mrun. eexists _, _; reflexivity.
  - mrun. erewrite checkRep_ok; [eexists _, _; reflexivity|].
    apply RI_set_firstSelection, RI_notifyB.
    apply (RI_control (set_grid (alterAt (grid (settleB p b)) (r pos) (c pos) (withFaceUp true))
                                (settleB p b)) pos p (withFaceUp true s)).
    + apply RI_turnUp, R.
    + cells. rewrite decide_True by reflexivity. rewrite Hc. reflexivity.
    + reflexivity.
Qed.

Lemma settle_nothing_pending p b :
  pending b !! p = None \/ pending b !! p = Some None ->
  settleBeforeNewFirstMove p b = (Normal tt, b).
Proof.
  intros Hp. unfold settleBeforeNewFirstMove. rewrite bind_run. unfold get at 1.
  cbv beta iota. destruct Hp as [-> | ->]; reflexivity.
Qed.

Lemma RI_uncontrol b q :
  RI b -> RI (set_grid (alterAt (grid b) (r q) (c q) (withController None)) b).
Proof.
  intros H. apply RI_alter; [exact H|]. intros s Hs. simpl.
  split; [|reflexivity]. destruct H as (_ & _ & H3 & _). apply (H3 q s Hs).
Qed.

Lemma RI_control_up b q player :
  RI b -> (forall s, cellOf b q = Some s -> faceUp s = true) ->
  RI (set_grid (alterAt (grid b) (r q) (c q) (withController (Some player))) b).
Proof.
  intros H Hu. apply RI_alter; [exact H|]. intros s Hs. simpl.
  split; [|rewrite (Hu s Hs); discriminate].
  destruct H as (_ & _ & H3 & _). apply (H3 q s Hs).
Qed.

(** A second flip either completes the pair or fails by rule 2-A or 2-B,
    leaving the board [relinquishFirstOnly] leaves. *)
Lemma flipSecond_result b pos p first s1 :
  RI b -> FirstHeld b ->
  firstSelection b !! p = Some first -> withinB b first = true ->
  cellOf b first = Some s1 ->
  match flipSecond pos p b with
  | (Normal _, _) => True
  | (Thrown e, b') => (e = EmptyTarget \/ e = SecondContested) /\ b' = releaseB p first b
  end.
Proof.
  intros H HF Hf Hwf Hc1.
  unfold flipSecond. rewrite bind_run. unfold get at 1. cbv beta iota. rewrite Hf.
  rewrite bind_run. unfold within at 1. rewrite bind_run. unfold get at 1. cbv beta iota.
  unfold ret at 1. cbv beta iota.
  assert (Hs2 : (if withinB b pos then getCell (r pos) (c pos) else ret None) b =
                (Normal (if withinB b pos then cellOf b pos else None), b)).
  { destruct (withinB b pos) eqn:Hw; [apply getCell_within; assumption | reflexivity]. }
  rewrite bind_run, Hs2. cbv beta iota.
  destruct (if withinB b pos then cellOf b pos else None) as [s2|] eqn:Es2.
  2: { rewrite bind_run, (relinquish_run p first b) by assumption. cbv beta iota.
       unfold throw. auto. }
  assert (Hw : withinB b pos = true) by (destruct (withinB b pos); [reflexivity | discriminate]).
  rewrite Hw in Es2. rename Es2 into Hc2.
  destruct (faceUp s2 && bool_decide (controller s2 <> None)) eqn:Eb.
  { rewrite bind_run, (relinquish_run p first b) by assumption. cbv beta iota.
    unfold throw. auto. }
  assert (Hfree : ~ (faceUp s2 = true /\ controller s2 <> None)).
  { intros [Hu Hn]. rewrite Hu in Eb. simpl in Eb.
    apply bool_decide_eq_false in Eb. contradiction. }
  destruct (HF p first s1 Hf Hc1) as [Hu1 Hctl1].
  assert (Hne : first <> pos).
  { intros ->. rewrite Hc1 in Hc2. inversion Hc2; subst s2.
    apply Hfree. split; [exact Hu1 | congruence]. }
  assert (Hup : negb (faceUp s2) = false -> faceUp s2 = true).
  { destruct (faceUp s2); [reflexivity | discriminate]. }
  cbv zeta. mrun.
  destruct (negb (faceUp s2)) eqn:Eneg; mrun;
    (rewrite slotAt_within;
     [ cbv beta iota; cells; rewrite ?decide_False by congruence; rewrite Hc1; cbv beta iota
     | first [apply RI_turnUp, H | exact H]
     | autorewrite with cell; exact Hwf ]);
    destruct (bool_decide (label s1 = label s2)); mrun;
    (erewrite checkRep_ok; [exact I|]);
    apply RI_set_firstSelection; try apply RI_notifyB;
    (apply RI_set_pending;
     [ | intros x [= <-]; cbn [outcomeFirst outcomeSecond];
         autorewrite with cell; auto ]);
    try apply RI_wakeNextB; try apply RI_wakeNextB;
    first [ apply RI_control_up; [apply RI_control_up; [first [apply RI_turnUp, H | exact H]|]|]
          | apply RI_uncontrol, RI_uncontrol; first [apply RI_turnUp, H | exact H] ].
  all: intros s; cells; repeat case_decide; subst; try congruence;
       rewrite ?Hc1, ?Hc2; simpl; intros [= <-]; simpl; auto.
Qed.

(** A second flip by a player whose first card is no longer on the
    board: rules 2-A and 2-B as usual, and the internal error otherwise,
    thrown after the second card has been turned up. *)
Lemma flipSecond_first_gone b pos p first :
  RI b -> firstSelection b !! p = Some first -> withinB b first = true ->
  cellOf b first = None ->
  flipSecond pos p b =
    match (if withinB b pos then cellOf b pos else None) with
    | None => (Thrown EmptyTarget, releaseB p first b)
    | Some s2 =>
        if faceUp s2 && bool_decide (controller s2 <> None)
        then (Thrown SecondContested, releaseB p first b)
        else (Thrown InternalFirstMissing,
              if faceUp s2 then b
              else set_grid (alterAt (grid b) (r pos) (c pos) (withFaceUp true)) b)
    end.
Proof.
  intros H Hf Hwf Hc1.
  unfold flipSecond. rewrite bind_run. unfold get at 1. cbv beta iota. rewrite Hf.
  rewrite bind_run. unfold within at 1. rewrite bind_run. unfold get at 1. cbv beta iota.
  unfold ret at 1. cbv beta iota.
  assert (Hs2 : (if withinB b pos then getCell (r pos) (c pos) else ret None) b =
                (Normal (if withinB b pos then cellOf b pos else None), b)).
  { destruct (withinB b pos) eqn:Hw; [apply getCell_within; assumption | reflexivity]. }
  rewrite bind_run, Hs2. cbv beta iota.
  destruct (if withinB b pos then cellOf b pos else None) as [s2|] eqn:Es2.
  2: { rewrite bind_run, (relinquish_run p first b) by assumption. reflexivity. }
  destruct (faceUp s2 && bool_decide (controller s2 <> None)) eqn:Eb.
  { rewrite bind_run, (relinquish_run p first b) by assumption. reflexivity. }
  cbv zeta. destruct (faceUp s2) eqn:Eu; cbn [negb]; mrun.
  - rewrite slotAt_within by assumption. cbv beta iota. rewrite Hc1. reflexivity.
  - rewrite slotAt_within; [| apply RI_turnUp, H | autorewrite with cell; exact Hwf].
    cbv beta iota. cells. destruct (decide _) as [E|E]; [subst pos|]; rewrite Hc1; reflexivity.
Qed.



(** C3, as the code has it.  For a position outside the grid,
    [flipFirst] (plain or waiting) fails [OutOfBounds]; [flipSecond]
    fails [NoFirst] when the player has no first selection and otherwise
    treats the position as an empty space and fails [EmptyTarget]. *)
Theorem flips_outside_the_grid b pos p :
  RI b -> withinB b pos = false ->
  (forall first, firstSelection b !! p = Some first -> withinB b first = true) ->
  fst (flipFirst pos p b) = Thrown OutOfBounds /\
  fst (flipFirstAsync pos p b) = Thrown OutOfBounds /\
  fst (flipSecond pos p b) =
    match firstSelection b !! p with
    | None => Thrown NoFirst
    | Some _ => Thrown EmptyTarget
    end /\
  fst (flipSecondAsync pos p b) =
    match firstSelection b !! p with
    | None => Thrown NoFirst
    | Some _ => Thrown EmptyTarget
    end.
Proof.
  intros H Hw Hfirst.
  assert (Hsecond : fst (flipSecond pos p b) =
                    match firstSelection b !! p with
                    | None => Thrown NoFirst
                    | Some _ => Thrown EmptyTarget
                    end).
  { unfold flipSecond. rewrite bind_run. unfold get at 1. cbv beta iota.
    destruct (firstSelection b !! p) as [first|] eqn:Hf; [|reflexivity].
    rewrite bind_run. unfold within at 1. rewrite bind_run. unfold get at 1. cbv beta iota.
    unfold ret at 1. cbv beta iota. rewrite Hw.
    rewrite bind_run. unfold ret at 1. cbv beta iota.
    rewrite bind_run, (relinquish_run p first b) by auto. reflexivity. }
  split; [|split; [|split]].
  - destruct (flipFirst_result pos p b H) as [[b1 E]|[e1 [E Hc]]].
    + exfalso. destruct (settle_run p b H) as (Hs & R & Dr & Dc).
      unfold flipFirst in E. rewrite bind_run, Hs in E. cbv beta iota in E.
      rewrite bind_run, slotAt_outside in E; [discriminate|].
      unfold withinB. rewrite Dr, Dc. exact Hw.
    + rewrite E. simpl. destruct Hc as [[-> _]|[[_ Hc]|[_ Hc]]]; congruence.
  - destruct (flipFirstAsync_result pos p b H) as [(st & b1 & E)|[e1 [E Hc]]].
    + exfalso. destruct (settle_run p b H) as (Hs & R & Dr & Dc).
      unfold flipFirstAsync, flipFirstAsync_loop in E.
      rewrite bind_run, Hs in E. cbv beta iota in E.
      rewrite bind_run, slotAt_outside in E; [discriminate|].
      unfold withinB. rewrite Dr, Dc. exact Hw.
    + rewrite E. simpl. destruct Hc as [[-> _]|[_ Hc]]; congruence.
  - exact Hsecond.
  - unfold flipSecondAsync. rewrite bind_run.
    destruct (flipSecond pos p b) as [[[]|e] b1]; simpl in *;
      destruct (firstSelection b !! p); congruence.
Qed.

(** ** The string-keyed insertion-ordered map *)

Lemma mapGet_mapSet {V} k k' (v : V) m :
  mapGet k (mapSet k' v m) = if decide (k = k') then Some v else mapGet k m.
Proof.
  induction m as [|[k0 v0] m IH]; simpl.
  - destruct (decide (k = k')); reflexivity.
  - destruct (decide (k' = k0)) as [->|Hne]; simpl.
    + destruct (decide (k = k0)); reflexivity.
    + destruct (decide (k = k0)) as [->|Hne'].
      * rewrite decide_False by congruence. reflexivity.
      * exact IH.
Qed.

Lemma mapGet_None {V} k (m : list (string * V)) :
  mapGet k m = None <-> k ∉ List.map fst m.
Proof.
  induction m as [|[k0 v0] m IH]; simpl.
  - split; [intros _; apply not_elem_of_nil | reflexivity].
  - rewrite not_elem_of_cons. destruct (decide (k = k0)) as [->|Hne].
    + split; [discriminate | intros [Hn _]; contradiction].
    + rewrite IH. tauto.
Qed.

Lemma mapGet_elem {V} k (v : V) m : mapGet k m = Some v -> (k, v) ∈ m.
Proof.
  induction m as [|[k0 v0] m IH]; simpl; [discriminate|].
  destruct (decide (k = k0)) as [->|Hne].
  - intros [= ->]. apply list_elem_of_here.
  - intros H. apply list_elem_of_further, IH, H.
Qed.

Lemma elem_mapGet {V} k (v : V) m :
  NoDup (List.map fst m) -> (k, v) ∈ m -> mapGet k m = Some v.
Proof.
  induction m as [|[k0 v0] m IH]; simpl; intros Hnd Hin.
  - apply elem_of_nil in Hin. contradiction.
  - apply NoDup_cons in Hnd as [Hnotin Hnd].
    apply elem_of_cons in Hin as [[= -> ->]|Hin].
    + rewrite decide_True by reflexivity. reflexivity.
    + destruct (decide (k = k0)) as [->|Hne]; [|apply IH; assumption].
      exfalso. apply Hnotin. apply list_elem_of_fmap. exists (k0, v). auto.
Qed.

Lemma keys_mapSet {V} k (v : V) m :
  List.map fst (mapSet k v m) =
  match mapGet k m with
  | Some _ => List.map fst m
  | None => List.map fst m ++ [k]
  end.
Proof.
  induction m as [|[k0 v0] m IH]; simpl; [reflexivity|].
  destruct (decide (k = k0)) as [->|Hne]; simpl; [reflexivity|].
  rewrite IH. destruct (mapGet k m); reflexivity.
Qed.

Lemma mapGet_app {V} k (m1 m2 : list (string * V)) :
  mapGet k (m1 ++ m2) = match mapGet k m1 with Some v => Some v | None => mapGet k m2 end.
Proof.
  induction m1 as [|[k0 v0] m1 IH]; simpl; [reflexivity|].
  destruct (decide (k = k0)); [reflexivity | exact IH].
Qed.

Lemma mapGet_foldl_mapSet {V} k (l : list (string * V)) m0 :
  mapGet k (foldl (fun m kv => mapSet (fst kv) (snd kv) m) m0 l) =
  match mapGet k (rev l) with Some v => Some v | None => mapGet k m0 end.
Proof.
  revert m0. induction l as [|[k1 v1] l IH]; intros m0; simpl; [reflexivity|].
  rewrite IH, mapGet_app, mapGet_mapSet. simpl.
  destruct (mapGet k (rev l)); [reflexivity|].
  destruct (decide (k = k1)); reflexivity.
Qed.

(** ** The snapshot of positions by label *)

Lemma scanRow_run b i js bv :
  RI b -> 0 <= i < rows b ->
  foldM js (fun byValue j => scanCell byValue i j) bv b =
  (Normal (foldl (scanPure (grid b)) bv (List.map (mkPos i) js)), b).
Proof.
  intros H Hi. revert bv. induction js as [|j js IH]; intros bv; simpl; [reflexivity|].
  rewrite bind_run. unfold scanCell at 1. rewrite bind_run, getCell_in by assumption.
  cbv beta iota. unfold scanPure at 2. simpl.
  destruct (cellAt (grid b) i j); unfold ret at 1; cbv beta iota; apply IH.
Qed.

Lemma scanRows_run b rowIdx bv :
  RI b -> (forall i, In i rowIdx -> 0 <= i < rows b) ->
  foldM rowIdx (fun byValue i =>
    foldM (seqZ 0 (cols b)) (fun byValue j => scanCell byValue i j) byValue) bv b =
  (Normal (foldl (scanPure (grid b)) bv
             (flat_map (fun i => List.map (mkPos i) (seqZ 0 (cols b))) rowIdx)), b).
Proof.
  intros H. revert bv. induction rowIdx as [|i rowIdx IH]; intros bv Hin; simpl; [reflexivity|].
  rewrite bind_run, scanRow_run by (auto; apply Hin; simpl; auto). cbv beta iota.
  rewrite foldl_app. apply IH. intros i' Hi'. apply Hin. simpl; auto.
Qed.

Lemma groupByValue_run b : RI b -> groupByValue b = (Normal (groups b), b).
Proof.
  intros H. unfold groupByValue, groups, positionsOf.
  rewrite bind_run. unfold get at 1. cbv beta iota.
  apply scanRows_run; [exact H|]. intros i Hi. apply In_seqZ in Hi. exact Hi.
Qed.

Lemma elem_positionsOf b p : p ∈ positionsOf b <-> withinB b p = true.
Proof.
  unfold positionsOf, withinB. rewrite list_elem_of_In, in_flat_map. split.
  - intros (i & Hi & Hp). apply in_map_iff in Hp as (j & <- & Hj).
    apply In_seqZ in Hi, Hj. simpl.
    repeat (apply andb_true_iff; split); first [apply Z.geb_le | apply Z.ltb_lt]; lia.
  - intros Hw. apply andb_true_iff in Hw as [Hw Hc2]. apply andb_true_iff in Hw as [Hw Hc1].
    apply andb_true_iff in Hw as [Hr1 Hr2].
    apply Z.geb_le in Hr1, Hc1. apply Z.ltb_lt in Hr2, Hc2.
    exists (r p). split; [apply In_seqZ; lia|].
    apply in_map_iff. exists (c p). split; [apply Pos_eta | apply In_seqZ; lia].
Qed.

Lemma occupied_within b p s : RI b -> cellOf b p = Some s -> withinB b p = true.
Proof.
  intros (H1 & H2 & _) Hc. unfold cellOf, cellAt in Hc.
  destruct (gridRow (grid b) (r p)) as [rw|] eqn:Hrw; [|discriminate].
  pose proof (gridRow_Some _ _ _ Hrw) as Hi.
  pose proof (rowCell_Some _ _ _ Hc) as Hj.
  rewrite Forall_forall in H2. specialize (H2 rw (gridRow_elem _ _ _ Hrw)).
  unfold withinB.
  repeat (apply andb_true_iff; split); first [apply Z.geb_le | apply Z.ltb_lt]; lia.
Qed.

Lemma Grouped_nil g : Grouped g [] [].
Proof.
  repeat split.
  - constructor.
  - simpl in H. discriminate.
  - simpl in H. discriminate.
  - intros p s Hp. apply elem_of_nil in Hp. contradiction.
  - intros k Hk. apply elem_of_nil in Hk. contradiction.
Qed.

Lemma Grouped_step g ps bv p :
  Grouped g ps bv -> Grouped g (ps ++ [p]) (scanPure g bv p).
Proof.
  intros (G1 & G2 & G3 & G4). unfold scanPure.
  destruct (cellAt g (r p) (c p)) as [cell|] eqn:Ec.
  - set (k0 := label cell). set (old := default [] (mapGet k0 bv)).
    split; [|split; [|split]].
    + rewrite keys_mapSet. destruct (mapGet k0 bv) eqn:E; [exact G1|].
      apply NoDup_app. split; [exact G1|]. split; [|apply NoDup_singleton].
      intros x Hx Hx'. apply list_elem_of_singleton in Hx'. subst x.
      apply mapGet_None in E. contradiction.
    + intros k l q. rewrite mapGet_mapSet. destruct (decide (k = k0)) as [->|Hne].
      * intros [= <-] Hq. apply elem_of_app in Hq as [Hq|Hq].
        -- unfold old in Hq. destruct (mapGet k0 bv) as [l0|] eqn:E; simpl in Hq.
           ++ destruct (G2 k0 l0 q E Hq) as [Hin Hs]. split; [|exact Hs].
              apply elem_of_app; auto.
           ++ apply elem_of_nil in Hq. contradiction.
        -- apply list_elem_of_singleton in Hq. subst q. split.
           ++ apply elem_of_app. right. apply list_elem_of_singleton. reflexivity.
           ++ exists cell. auto.
      * intros Hl Hq. destruct (G2 k l q Hl Hq) as [Hin Hs]. split; [|exact Hs].
        apply elem_of_app; auto.
    + intros q s Hq Hs. rewrite mapGet_mapSet.
      destruct (decide (label s = k0)) as [Hk|Hne].
      * eexists. split; [reflexivity|].
        apply elem_of_app in Hq as [Hq|Hq].
        -- destruct (G3 q s Hq Hs) as (l & Hl & Hin). apply elem_of_app. left.
           unfold old. rewrite <- Hk, Hl. exact Hin.
        -- apply elem_of_app. right. exact Hq.
      * apply elem_of_app in Hq as [Hq|Hq]; [apply (G3 q s Hq Hs)|].
        apply list_elem_of_singleton in Hq. subst q.
        rewrite Ec in Hs. inversion Hs; subst s. contradiction.
    + intros k. rewrite keys_mapSet. intros Hk.
      assert (Hcase : k ∈ List.map fst bv \/ k = k0).
      { destruct (mapGet k0 bv); [auto|].
        apply elem_of_app in Hk as [Hk|Hk]; [auto|].
        apply list_elem_of_singleton in Hk. auto. }
      destruct Hcase as [Hk'| ->].
      * destruct (G4 k Hk') as (q & s & Hq & Hs & Hl). exists q, s.
        split; [apply elem_of_app; auto | auto].
      * exists p, cell. split; [|auto].
        apply elem_of_app. right. apply list_elem_of_singleton. reflexivity.
  - split; [exact G1|]. split; [|split].
    + intros k l q Hl Hq. destruct (G2 k l q Hl Hq) as [Hin Hs]. split; [|exact Hs].
      apply elem_of_app; auto.
    + intros q s Hq Hs. apply elem_of_app in Hq as [Hq|Hq]; [apply (G3 q s Hq Hs)|].
      apply list_elem_of_singleton in Hq. subst q. congruence.
    + intros k Hk. destruct (G4 k Hk) as (q & s & Hq & Hs & Hl). exists q, s.
      split; [apply elem_of_app; auto | auto].
Qed.

Lemma Grouped_foldl g ps0 bv0 ps :
  Grouped g ps0 bv0 -> Grouped g (ps0 ++ ps) (foldl (scanPure g) bv0 ps).
Proof.
  revert ps0 bv0. induction ps as [|p ps IH]; intros ps0 bv0 H; simpl.
  - rewrite app_nil_r. exact H.
  - replace (ps0 ++ p :: ps) with ((ps0 ++ [p]) ++ ps) by (rewrite <- app_assoc; reflexivity).
    apply IH, Grouped_step, H.
Qed.

Lemma Grouped_groups b : Grouped (grid b) (positionsOf b) (groups b).
Proof. apply (Grouped_foldl (grid b) [] [] (positionsOf b)), Grouped_nil. Qed.

(** ** Calling the transform *)

Lemma transformAll_calls (transform : string -> string) entries :
  fst (transformAll transform entries) = List.map fst entries.
Proof.
  unfold transformAll. simpl. induction entries as [|e es IH]; simpl; [reflexivity|].
  rewrite IH. reflexivity.
Qed.

Lemma transformAll_result (transform : string -> string) entries :
  snd (transformAll transform entries) =
  if forallb (fun e => negb (invalidOut (transform (fst e)))) entries
  then Normal (List.map (fun e => (fst e, transform (fst e))) entries)
  else Thrown InvalidLabel.
Proof.
  unfold transformAll. simpl. induction entries as [|e es IH]; simpl; [reflexivity|].
  destruct (invalidOut (transform (fst e))); simpl; [reflexivity|].
  rewrite IH. destruct (forallb _ es); reflexivity.
Qed.

Lemma invalidOut_cardRe out : invalidOut out = false -> cardRe out = true.
Proof.
  unfold invalidOut, cardRe. intros H.
  apply orb_false_iff in H as [H H3]. apply orb_false_iff in H as [H1 _].
  rewrite H1, H3. reflexivity.
Qed.

Lemma cardRe_invalidOut out : cardRe out = false -> invalidOut out = true.
Proof.
  unfold invalidOut, cardRe. intros H. apply andb_false_iff in H as [H|H].
  - apply negb_false_iff in H. rewrite H. reflexivity.
  - apply negb_false_iff in H. rewrite H. apply orb_true_r.
Qed.

Lemma elem_of_rev {A} (x : A) (l : list A) : x ∈ rev l <-> x ∈ l.
Proof. rewrite !list_elem_of_In. symmetry. apply in_rev. Qed.

Lemma mapGet_results (transform : string -> string) (entries : list (string * list Pos)) k :
  mapGet k (newMap (List.map (fun e => (fst e, transform (fst e))) entries)) =
  if decide (k ∈ List.map fst entries) then Some (transform k) else None.
Proof.
  unfold newMap. rewrite mapGet_foldl_mapSet. simpl.
  assert (Hgen : forall l : list (string * list Pos),
    mapGet k (List.map (fun e => (fst e, transform (fst e))) l) =
    if decide (k ∈ List.map fst l) then Some (transform k) else None).
  { induction l as [|e l IH]; cbn [mapGet List.map fst].
    - rewrite decide_False by apply not_elem_of_nil. reflexivity.
    - destruct (decide (k = fst e)) as [->|Hne].
      + rewrite decide_True by apply list_elem_of_here. reflexivity.
      + rewrite IH. destruct (decide (k ∈ List.map fst l)) as [Hin|Hnin].
        * rewrite decide_True by (apply list_elem_of_further, Hin). reflexivity.
        * rewrite decide_False; [reflexivity|].
          intros Hc. apply elem_of_cons in Hc as [Hc|Hc]; contradiction. }
  rewrite <- map_rev, Hgen.
  destruct (decide (k ∈ List.map fst (rev entries))) as [Hin|Hnin].
  - rewrite decide_True; [reflexivity|].
    rewrite map_rev in Hin. exact (proj1 (elem_of_rev _ _) Hin).
  - rewrite decide_False; [reflexivity|].
    intros Hc. apply Hnin. rewrite map_rev. exact (proj2 (elem_of_rev _ _) Hc).
Qed.

(** ** The commit loop *)

Lemma cellAt_commitStep v g p q :
  cellAt (commitStep v g p) (r q) (c q) =
  if decide (p = q) then withLabel v <$> cellAt g (r p) (c p) else cellAt g (r q) (c q).
Proof.
  unfold commitStep. destruct (cellAt g (r p) (c p)) eqn:E.
  - rewrite cellAt_alterAt_pos, E. reflexivity.
  - destruct (decide (p = q)) as [<-|]; [rewrite E|]; reflexivity.
Qed.

Lemma length_commitStep v g p : length (commitStep v g p) = length g.
Proof. unfold commitStep. destruct (cellAt _ _ _); [apply length_alterAt | reflexivity]. Qed.

Lemma length_commitPure g writes : length (commitPure g writes) = length g.
Proof.
  unfold commitPure. revert g. induction writes as [|pv ws IH]; intros g; simpl; [reflexivity|].
  rewrite IH. apply length_commitStep.
Qed.

Lemma Forall_length_commitPure g writes n :
  Forall (fun rw => Z.of_nat (length rw) = n) g ->
  Forall (fun rw => Z.of_nat (length rw) = n) (commitPure g writes).
Proof.
  unfold commitPure. revert g. induction writes as [|pv ws IH]; intros g H; simpl; [exact H|].
  apply IH. unfold commitStep. destruct (cellAt _ _ _); [|exact H].
  apply Forall_length_alterAt, H.
Qed.

Lemma commitCell_run v p b :
  is_Some (gridRow (grid b) (r p)) ->
  commitCell v p b = (Normal tt, set_grid (commitStep v (grid b) p) b).
Proof.
  intros [rw Hrw]. unfold commitCell. rewrite bind_run, getCell_run, Hrw. cbv beta iota.
  unfold commitStep, cellAt. rewrite Hrw.
  destruct (rowCell rw (c p)); [reflexivity|]. destruct b; reflexivity.
Qed.

Lemma gridRow_length_eq (g g' : list (list (option Slot))) i :
  length g' = length g -> is_Some (gridRow g i) -> is_Some (gridRow g' i).
Proof.
  intros Hl [rw Hrw]. apply gridRow_Some in Hrw. apply gridRow_is_Some. lia.
Qed.

Lemma commitCells_run v ps b :
  (forall p, In p ps -> is_Some (gridRow (grid b) (r p))) ->
  forEach ps (commitCell v) b =
  (Normal tt, set_grid (commitPure (grid b) (List.map (fun p => (p, v)) ps)) b).
Proof.
  revert b. induction ps as [|p ps IH]; intros b Hrows; simpl.
  - destruct b; reflexivity.
  - rewrite bind_run, commitCell_run by (apply Hrows; simpl; auto). cbv beta iota.
    rewrite IH; [reflexivity|].
    intros q Hq. simpl. eapply gridRow_length_eq; [apply length_commitStep|].
    apply Hrows. simpl; auto.
Qed.

Lemma commitGroups_run entries mapping b :
  (forall e p, In e entries -> In p (snd e) -> is_Some (gridRow (grid b) (r p))) ->
  commitGroups entries mapping b =
  (Normal tt, set_grid (commitPure (grid b) (assignments entries mapping)) b).
Proof.
  unfold commitGroups. revert b. induction entries as [|e es IH]; intros b Hrows; simpl.
  - destruct b; reflexivity.
  - rewrite bind_run.
    assert (Hstep : (match mapGet (fst e) mapping with
                     | Some newVal => forEach (snd e) (commitCell newVal)
                     | None => ret tt
                     end) b =
                    (Normal tt, set_grid (commitPure (grid b)
                       (match mapGet (fst e) mapping with
                        | None => []
                        | Some v => List.map (fun p => (p, v)) (snd e)
                        end)) b)).
    { destruct (mapGet (fst e) mapping).
      - apply commitCells_run. intros p Hp. apply (Hrows e p); simpl; auto.
      - destruct b; reflexivity. }
    rewrite Hstep. cbv beta iota. rewrite IH.
    + unfold assignments, commitPure. simpl. rewrite foldl_app. reflexivity.
    + intros e' p He' Hp. simpl. eapply gridRow_length_eq; [apply length_commitPure|].
      apply (Hrows e' p); simpl; auto.
Qed.

(** The cell at [q] after the writes, when every write to [q] carries
    the same label [w]. *)
Lemma cellAt_commitPure g writes q w :
  (forall v, (q, v) ∈ writes -> v = w) ->
  cellAt (commitPure g writes) (r q) (c q) =
  if decide (q ∈ List.map fst writes) then withLabel w <$> cellAt g (r q) (c q)
  else cellAt g (r q) (c q).
Proof.
  unfold commitPure. revert g.
  induction writes as [|[p v] ws IH]; intros g Hw; cbn [foldl List.map fst snd].
  - rewrite decide_False by apply not_elem_of_nil. reflexivity.
  - rewrite IH by (intros v' Hv'; apply Hw, list_elem_of_further, Hv').
    rewrite !cellAt_commitStep.
    destruct (decide (p = q)) as [->|Hne].
    + rewrite (Hw v) by apply list_elem_of_here.
      assert (Hh : q ∈ q :: List.map fst ws) by apply list_elem_of_here.
      destruct (decide (q ∈ q :: List.map fst ws)); [|contradiction].
      destruct (decide (q ∈ List.map fst ws)); [|reflexivity].
      destruct (cellAt g (r q) (c q)); reflexivity.
    + destruct (decide (q ∈ p :: List.map fst ws)) as [Hc|Hc];
        destruct (decide (q ∈ List.map fst ws)) as [Hin|Hnin]; try reflexivity.
      * apply elem_of_cons in Hc as [Hc|Hc]; [congruence | contradiction].
      * exfalso. apply Hc, list_elem_of_further, Hin.
Qed.

Lemma elem_assignments entries mapping p v :
  (p, v) ∈ assignments entries mapping <->
  exists e, e ∈ entries /\ p ∈ snd e /\ mapGet (fst e) mapping = Some v.
Proof.
  unfold assignments. rewrite list_elem_of_In, in_flat_map. split.
  - intros (e & He & Hp). exists e. apply list_elem_of_In in He.
    destruct (mapGet (fst e) mapping) as [v'|]; [|contradiction].
    apply in_map_iff in Hp as (p' & [= -> ->] & Hp'). apply list_elem_of_In in Hp'. auto.
  - intros (e & He & Hp & Hm). exists e. split; [apply list_elem_of_In, He|].
    rewrite Hm. apply in_map_iff. exists p. split; [reflexivity | apply list_elem_of_In, Hp].
Qed.

(** ** What [map] computes *)

Lemma groups_rows b e p :
  RI b -> In e (groups b) -> In p (snd e) -> is_Some (gridRow (grid b) (r p)).
Proof.
  intros H He Hp. destruct (Grouped_groups b) as (G1 & G2 & _).
  destruct e as [k l]. apply list_elem_of_In in He, Hp. simpl in Hp.
  destruct (G2 k l p (elem_mapGet k l _ G1 He) Hp) as [Hin _].
  apply elem_positionsOf in Hin.
  destruct (withinB_row b p H Hin) as (rw & Hrw & _). rewrite Hrw. eauto.
Qed.

Lemma transformAll_Normal (transform : string -> string) entries rs :
  snd (transformAll transform entries) = Normal rs ->
  rs = List.map (fun e => (fst e, transform (fst e))) entries.
Proof.
  rewrite transformAll_result. destruct (forallb _ entries); [|discriminate].
  intros [= <-]. reflexivity.
Qed.

(** Every write of the commit loop puts, at a position, the transform
    of the label that position had in the snapshot board. *)
Lemma writes_sound b transform rs q v :
  RI b -> snd (transformAll transform (groups b)) = Normal rs ->
  (q, v) ∈ assignments (groups b) (newMap rs) ->
  exists s, cellOf b q = Some s /\ v = transform (label s).
Proof.
  intros H Hrs Hin. apply transformAll_Normal in Hrs. subst rs.
  destruct (Grouped_groups b) as (G1 & G2 & _).
  apply elem_assignments in Hin as ([k l] & He & Hq & Hm). simpl in *.
  rewrite mapGet_results in Hm. destruct (decide _); [|discriminate].
  inversion Hm; subst v.
  destruct (G2 k l q (elem_mapGet k l _ G1 He) Hq) as [_ (s & Hs & <-)].
  exists s. auto.
Qed.

Lemma writes_complete b transform rs q s :
  RI b -> snd (transformAll transform (groups b)) = Normal rs ->
  cellOf b q = Some s ->
  q ∈ List.map fst (assignments (groups b) (newMap rs)).
Proof.
  intros H Hrs Hc. apply transformAll_Normal in Hrs. subst rs.
  destruct (Grouped_groups b) as (G1 & G2 & G3 & _).
  assert (Hq : q ∈ positionsOf b) by (apply elem_positionsOf; eapply occupied_within; eassumption).
  destruct (G3 q s Hq Hc) as (l & Hl & Hin).
  apply list_elem_of_fmap. exists (q, transform (label s)). split; [reflexivity|].
  apply elem_assignments. exists (label s, l). split; [apply mapGet_elem, Hl|].
  split; [exact Hin|]. simpl. rewrite mapGet_results.
  rewrite decide_True; [reflexivity|].
  apply list_elem_of_fmap. exists (label s, l). split; [reflexivity | apply mapGet_elem, Hl].
Qed.

(** The commit of a snapshot taken on [b], run on any grid [g1]: a
    position occupied in [b] gets the transform of its label in [b] (if
    it is still occupied in [g1]); the other positions are untouched. *)
Lemma commit_cells b transform rs g1 q :
  RI b -> snd (transformAll transform (groups b)) = Normal rs ->
  cellAt (commitPure g1 (assignments (groups b) (newMap rs))) (r q) (c q) =
  match cellOf b q with
  | Some s => withLabel (transform (label s)) <$> cellAt g1 (r q) (c q)
  | None => cellAt g1 (r q) (c q)
  end.
Proof.
  intros H Hrs. destruct (cellOf b q) as [s|] eqn:Hc.
  - rewrite (cellAt_commitPure _ _ q (transform (label s))).
    + rewrite decide_True by (eapply writes_complete; eassumption). reflexivity.
    + intros v Hv. destruct (writes_sound b transform rs q v H Hrs Hv) as (s' & Hs' & ->).
      congruence.
  - rewrite (cellAt_commitPure _ _ q EmptyString).
    + rewrite decide_False; [reflexivity|].
      intros Hin. apply list_elem_of_fmap in Hin as ([q' v] & -> & Hin). simpl in Hc.
      destruct (writes_sound b transform rs q' v H Hrs Hin) as (s' & Hs' & _). congruence.
    + intros v Hv. destruct (writes_sound b transform rs q v H Hrs Hv) as (s' & Hs' & _).
      congruence.
Qed.

Lemma map_run transform b :
  RI b ->
  map transform b =
  match snd (transformAll transform (groups b)) with
  | Thrown e => (Thrown e, b)
  | Normal rs => (fst (checkRep (committed b rs)), committed b rs)
  end.
Proof.
  intros H. unfold map. rewrite bind_run, groupByValue_run by assumption. cbv beta iota.
  destruct (snd (transformAll transform (groups b))) as [rs|e]; [|reflexivity].
  unfold map_commit. rewrite bind_run, commitGroups_run.
  - cbv beta iota. apply checkRep_run.
  - intros e p He Hp. eapply groups_rows; eassumption.
Qed.

Lemma cellOf_committed transform b rs q :
  RI b -> snd (transformAll transform (groups b)) = Normal rs ->
  cellOf (committed b rs) q = relabel transform <$> cellOf b q.
Proof.
  intros H Hrs. unfold committed, cellOf at 1. simpl.
  rewrite (commit_cells b transform rs (grid b) q H Hrs).
  unfold cellOf. destruct (cellAt (grid b) (r q) (c q)); reflexivity.
Qed.

Lemma RI_committed transform b rs :
  RI b -> snd (transformAll transform (groups b)) = Normal rs ->
  RI (committed b rs).
Proof.
  intros H Hrs. pose proof H as (H1 & H2 & H3 & H4).
  split; [|split; [|split]].
  - simpl. rewrite length_commitPure. exact H1.
  - simpl. apply Forall_length_commitPure, H2.
  - intros q s'. rewrite (cellOf_committed transform) by assumption.
    destruct (cellOf b q) as [s|] eqn:Hc; simpl; [|discriminate].
    intros [= <-]. simpl. split; [|apply (H3 q s Hc)].
    apply invalidOut_cardRe.
    rewrite transformAll_result in Hrs.
    destruct (forallb _ (groups b)) eqn:Ef; [|discriminate].
    rewrite forallb_forall in Ef.
    destruct (Grouped_groups b) as (_ & _ & G3 & _).
    assert (Hq : q ∈ positionsOf b)
      by (apply elem_positionsOf; eapply occupied_within; eassumption).
    destruct (G3 q s Hq Hc) as (l & Hl & _).
    specialize (Ef (label s, l) (proj1 (list_elem_of_In _ _) (mapGet_elem _ _ _ Hl))).
    simpl in Ef. apply negb_true_iff in Ef. exact Ef.
  - exact H4.
Qed.

(** [map] with a transform whose results are all valid. *)
Lemma map_spec transform b :
  RI b ->
  (forall q s, cellOf b q = Some s -> invalidOut (transform (label s)) = false) ->
  exists b',
    map transform b = (Normal tt, b') /\ RI b' /\
    (forall q, cellOf b' q = relabel transform <$> cellOf b q).
Proof.
  intros H Hvalid.
  assert (Hrs : snd (transformAll transform (groups b)) =
                Normal (List.map (fun e => (fst e, transform (fst e))) (groups b))).
  { rewrite transformAll_result.
    replace (forallb _ (groups b)) with true; [reflexivity|].
    symmetry. apply forallb_forall. intros [k l] He. simpl.
    destruct (Grouped_groups b) as (_ & _ & _ & G4).
    destruct (G4 k) as (q & s & _ & Hs & <-).
    { apply list_elem_of_fmap. exists (k, l). split; [reflexivity | apply list_elem_of_In, He]. }
    rewrite (Hvalid q s Hs). reflexivity. }
  exists (committed b (List.map (fun e => (fst e, transform (fst e))) (groups b))).
  pose proof (RI_committed transform b _ H Hrs) as R.
  rewrite map_run, Hrs by assumption. rewrite (checkRep_ok _ R).
  split; [reflexivity|]. split; [exact R|].
  intros q. apply cellOf_committed; assumption.
Qed.

(** C6. If the transform of the label of some card on the board is
    empty or contains whitespace, [map] (and [mapCards]) fails
    [InvalidLabel] and leaves the board as it was: no label is changed. *)
Theorem map_invalid_label_changes_nothing transform b q s player :
  RI b -> cellOf b q = Some s ->
  transform (label s) = EmptyString \/ hasSpace (transform (label s)) = true ->
  map transform b = (Thrown InvalidLabel, b) /\
  mapCards player transform b = (Thrown InvalidLabel, b).
Proof.
  intros H Hc Hbad.
  assert (Hinv : invalidOut (transform (label s)) = true).
  { unfold invalidOut. destruct Hbad as [-> | ->]; [reflexivity | apply orb_true_r]. }
  assert (Hrs : snd (transformAll transform (groups b)) = Thrown InvalidLabel).
  { rewrite transformAll_result.
    destruct (forallb _ (groups b)) eqn:Ef; [|reflexivity].
    rewrite forallb_forall in Ef.
    destruct (Grouped_groups b) as (_ & _ & G3 & _).
    assert (Hq : q ∈ positionsOf b)
      by (apply elem_positionsOf; eapply occupied_within; eassumption).
    destruct (G3 q s Hq Hc) as (l & Hl & _).
    specialize (Ef (label s, l) (proj1 (list_elem_of_In _ _) (mapGet_elem _ _ _ Hl))).
    simpl in Ef. rewrite Hinv in Ef. discriminate. }
  split.
  - rewrite map_run, Hrs by assumption. reflexivity.
  - unfold mapCards. rewrite bind_run, groupByValue_run by assumption.
    cbv beta iota. rewrite Hrs. reflexivity.
Qed.

Lemma mapCalls_keys (transform : string -> string) b :
  RI b -> mapCalls transform b = List.map fst (groups b).
Proof.
  intros H. unfold mapCalls. rewrite groupByValue_run by assumption.
  apply transformAll_calls.
Qed.

(** C7. Within one [map], [transform] is called once for each distinct
    label present on the board at the start, and for no other argument.
    When the call returns, any two cards that had the same label at the
    start and are still on the board carry the same label; this also
    holds when the commit runs on a later board [b1] of the same grid,
    after other methods have run at the [await]. *)
Theorem map_calls_once_and_keeps_groups transform b :
  RI b ->
  NoDup (mapCalls transform b) /\
  (forall k, k ∈ mapCalls transform b <-> exists q s, cellOf b q = Some s /\ label s = k) /\
  (forall b' q1 q2 s1 s2 s1' s2',
     map transform b = (Normal tt, b') ->
     cellOf b q1 = Some s1 -> cellOf b q2 = Some s2 -> label s1 = label s2 ->
     cellOf b' q1 = Some s1' -> cellOf b' q2 = Some s2' -> label s1' = label s2') /\
  (forall rs b1 q1 q2 s1 s2 s1' s2',
     snd (transformAll transform (groups b)) = Normal rs ->
     length (grid b1) = length (grid b) ->
     cellOf b q1 = Some s1 -> cellOf b q2 = Some s2 -> label s1 = label s2 ->
     cellOf (snd (map_commit (groups b) rs b1)) q1 = Some s1' ->
     cellOf (snd (map_commit (groups b) rs b1)) q2 = Some s2' ->
     label s1' = label s2').
Proof.
  intros H. destruct (Grouped_groups b) as (G1 & G2 & G3 & G4).
  rewrite mapCalls_keys by assumption.
  split; [exact G1|]. split; [|split].
  - intros k. split.
    + intros Hk. destruct (G4 k Hk) as (q & s & _ & Hs & Hl). exists q, s. auto.
    + intros (q & s & Hs & <-).
      assert (Hq : q ∈ positionsOf b)
        by (apply elem_positionsOf; eapply occupied_within; eassumption).
      destruct (G3 q s Hq Hs) as (l & Hl & _).
      apply list_elem_of_fmap. exists (label s, l). split; [reflexivity | apply mapGet_elem, Hl].
  - intros b' q1 q2 s1 s2 s1' s2' Hmap H1 H2 Hl.
    rewrite map_run in Hmap by assumption.
    destruct (snd (transformAll transform (groups b))) as [rs|e] eqn:Hrs; [|discriminate].
    inversion Hmap; subst b'.
    rewrite !(cellOf_committed transform) by assumption. rewrite H1, H2. simpl.
    intros [= <-] [= <-]. simpl. congruence.
  - intros rs b1 q1 q2 s1 s2 s1' s2' Hrs Hlen H1 H2 Hl.
    unfold map_commit. rewrite bind_run, commitGroups_run.
    2: { intros e p He Hp. eapply gridRow_length_eq; [exact Hlen|].
         eapply groups_rows; eassumption. }
    cbv beta iota. rewrite checkRep_run. unfold cellOf. simpl.
    rewrite !(commit_cells b transform rs) by assumption. rewrite H1, H2.
    destruct (cellAt (grid b1) (r q1) (c q1)); simpl; [|discriminate].
    destruct (cellAt (grid b1) (r q2) (c q2)); simpl; [|discriminate].
    intros [= <-] [= <-]. simpl. congruence.
Qed.

(** C10. [map] does not ask the transform to be injective: when two
    distinct labels are sent to the same valid label [v], the call
    succeeds, and every card that carried either label now carries [v]. *)
Theorem map_merges_labels transform b l1 l2 v :
  RI b ->
  (forall q s, cellOf b q = Some s -> invalidOut (transform (label s)) = false) ->
  l1 <> l2 -> transform l1 = v -> transform l2 = v ->
  exists b',
    map transform b = (Normal tt, b') /\
    forall q s, cellOf b q = Some s -> label s = l1 \/ label s = l2 ->
                exists s', cellOf b' q = Some s' /\ label s' = v.
Proof.
  intros H Hvalid _ H1 H2.
  destruct (map_spec transform b H Hvalid) as (b' & Hmap & _ & Hcells).
  exists b'. split; [exact Hmap|].
  intros q s Hs Hl. exists (relabel transform s). rewrite Hcells, Hs.
  split; [reflexivity|]. simpl. destruct Hl as [-> | ->]; assumption.
Qed.

(** ** What [map] leaves alone *)

Lemma LabelsOnly_refl b : LabelsOnly b b.
Proof. repeat split. Qed.

Lemma keeps_LabelsOnly_commitCell b0 v p : keeps (LabelsOnly b0) (commitCell v p).
Proof.
  unfold commitCell. apply keeps_bind_read; [apply readOnly_getCell|].
  intros b [s|] H _; [|exact H].
  rewrite updSlot_run. simpl.
  destruct H as (H1 & H2 & H3 & H4 & H5 & H6 & H7 & H8 & H9).
  repeat split; try assumption.
  intros q. rewrite cellOf_alter. destruct (decide _) as [<-|_]; [|apply H9].
  rewrite <- H9. destruct (cellOf b p); reflexivity.
Qed.

Lemma keeps_LabelsOnly_map_commit b0 entries results :
  keeps (LabelsOnly b0) (map_commit entries results).
Proof.
  unfold map_commit, commitGroups. apply keeps_bind.
  - apply keeps_forEach. intros e.
    destruct (mapGet (fst e) (newMap results)); [|apply keeps_ret].
    apply keeps_forEach. intros p. apply keeps_LabelsOnly_commitCell.
  - intros _. apply keeps_readOnly, readOnly_checkRep.
Qed.

(** C8. Whatever the transform and whatever the outcome, [map] changes
    nothing but labels: the dimensions, every player's first selection
    and pending outcome, the wait queues, the watchers and the promise
    runtime are the same, and every cell keeps its occupancy, its face
    and its controller.  The same holds for the commit phase alone, on
    whatever board it runs. *)
Theorem map_changes_only_labels transform b :
  LabelsOnly b (snd (map transform b)) /\
  forall entries results, LabelsOnly b (snd (map_commit entries results b)).
Proof.
  split.
  - unfold map.
    apply (keeps_bind (LabelsOnly b)); [| |apply LabelsOnly_refl].
    + apply keeps_readOnly, readOnly_groupByValue.
    + intros entries. destruct (snd (transformAll transform entries));
        [apply keeps_LabelsOnly_map_commit | apply keeps_throw].
  - intros entries results. apply keeps_LabelsOnly_map_commit, LabelsOnly_refl.
Qed.

(** ** Scenarios on the 3x3 board of the specification *)

Lemma RI_perfect : RI perfect.
Proof. apply checkRep_RI. vm_compute. reflexivity. Qed.

Lemma RI_aliceFirst : RI aliceFirst.
Proof. apply checkRep_RI. vm_compute. reflexivity. Qed.

Lemma RI_aliceMatched : RI aliceMatched.
Proof. apply checkRep_RI. vm_compute. reflexivity. Qed.

Lemma RI_aliceAndBob : RI aliceAndBob.
Proof. apply checkRep_RI. vm_compute. reflexivity. Qed.

Lemma reachable_twoWaiters : reachable twoWaiters.
Proof.
  unfold twoWaiters, aliceMatched, aliceFirst, after.
  do 2 apply reach_flipFirstAsync. apply reach_flipSecond, reach_flipFirst.
  apply (reach_new 3 3 ["u"; "u"; "a"; "b"; "b"; "c"; "c"; "a"; "x"]).
  vm_compute. reflexivity.
Qed.

(** C1: what the code does instead.  Bob and Charlie are queued, in that
    order, on a card of Alice's matched pair.  Alice's cleanup removes the
    pair and resolves Bob's deferred only: Bob, resumed, fails
    [EmptySpace]; Charlie's deferred stays in the queue of the removed
    cell, unresolved. *)
Theorem removal_wakes_only_the_head_waiter :
  reachable twoWaiters /\
  pending twoWaiters !! "alice" = Some (Some (matched (mkPos 0 0) (mkPos 0 1))) /\
  fst (flipFirstAsync (mkPos 0 0) "bob" aliceMatched) = Normal (Await 0%nat) /\
  fst (flipFirstAsync (mkPos 0 0) "charlie"
         (after (flipFirstAsync (mkPos 0 0) "bob") aliceMatched)) = Normal (Await 1%nat) /\
  queueOf twoWaiters (mkPos 0 0) = [0%nat; 1%nat] /\
  cellOf (after (settleBeforeNewFirstMove "alice") twoWaiters) (mkPos 0 0) = None /\
  cellOf (after (settleBeforeNewFirstMove "alice") twoWaiters) (mkPos 0 1) = None /\
  resolved (after (settleBeforeNewFirstMove "alice") twoWaiters) = [0%nat] /\
  queueOf (after (settleBeforeNewFirstMove "alice") twoWaiters) (mkPos 0 0) = [1%nat] /\
  fst (flipFirstAsync_resume (mkPos 0 0) "bob"
         (after (settleBeforeNewFirstMove "alice") twoWaiters)) = Thrown EmptySpace.
Proof.
  split; [exact reachable_twoWaiters|].
  vm_compute. repeat split.
Qed.

(** C2: what the code does instead.  With Bob watching, [map] with the
    transform that prefixes every label succeeds and rewrites the labels,
    yet Bob's deferred is still among the watchers and nothing has been
    resolved; [mapCards] on the same board does broadcast. *)
Theorem map_rewrites_labels_without_broadcast :
  watchers watched = [0%nat] /\
  fst (map prefixT watched) = Normal tt /\
  label <$> cellOf watched (mkPos 0 0) = Some "u" /\
  label <$> cellOf (after (map prefixT) watched) (mkPos 0 0) = Some "T_u" /\
  watchers (after (map prefixT) watched) = [0%nat] /\
  resolved (after (map prefixT) watched) = [] /\
  watchers (after (mapCards "bob" prefixT) watched) = [] /\
  resolved (after (mapCards "bob" prefixT) watched) = [0%nat].
Proof. vm_compute. repeat split. Qed.

(** C3 fails as stated: with a first card selected, [flipSecond] on a
    position outside the grid fails [EmptyTarget], not [OutOfBounds]. *)
Lemma flipSecond_outside_is_EmptyTarget :
  withinB aliceFirst (mkPos 5 5) = false /\
  firstSelection aliceFirst !! "alice" = Some (mkPos 0 0) /\
  fst (flipSecond (mkPos 5 5) "alice" aliceFirst) = Thrown EmptyTarget /\
  fst (flipSecond (mkPos 5 5) "alice" aliceFirst) <> Thrown OutOfBounds.
Proof.
  assert (E : fst (flipSecond (mkPos 5 5) "alice" aliceFirst) = Thrown EmptyTarget)
    by (vm_compute; reflexivity).
  split; [vm_compute; reflexivity|]. split; [vm_compute; reflexivity|].
  split; [exact E|]. rewrite E. discriminate.
Qed.






Lemma RI_firstRemoved : RI firstRemoved.
Proof. apply checkRep_RI. vm_compute. reflexivity. Qed.




(** The part of C4 on second flips fails as stated, too.  On a board the
    methods lead to, Dana's recorded first card has been removed; Dana's
    second flip on the face-down card (2,2) throws the internal error
    after turning (2,2) face up: the card stays up, no watcher is told,
    and the selection is kept. *)
Lemma flipSecond_first_card_removed :
  firstSelection firstRemoved !! "dana" = Some (mkPos 0 0) /\
  cellOf firstRemoved (mkPos 0 0) = None /\
  cellOf firstRemoved (mkPos 2 2) = Some (mkSlot "x" false None) /\
  fst (flipSecond (mkPos 2 2) "dana" firstRemoved) = Thrown InternalFirstMissing /\
  cellOf (after (flipSecond (mkPos 2 2) "dana") firstRemoved) (mkPos 2 2) =
    Some (mkSlot "x" true None) /\
  firstSelection (after (flipSecond (mkPos 2 2) "dana") firstRemoved) !! "dana" =
    Some (mkPos 0 0).
Proof. repeat split; vm_compute; reflexivity. Qed.

(** ** Instances *)

Lemma flips_outside_the_grid_witness :
  fst (flipFirst (mkPos (-1) 0) "alice" aliceFirst) = Thrown OutOfBounds /\
  fst (flipFirstAsync (mkPos (-1) 0) "alice" aliceFirst) = Thrown OutOfBounds /\
  fst (flipSecond (mkPos (-1) 0) "alice" aliceFirst) =
    match firstSelection aliceFirst !! "alice" with
    | None => Thrown NoFirst
    | Some _ => Thrown EmptyTarget
    end /\
  fst (flipSecondAsync (mkPos (-1) 0) "alice" aliceFirst) =
    match firstSelection aliceFirst !! "alice" with
    | None => Thrown NoFirst
    | Some _ => Thrown EmptyTarget
    end.
Proof.
  apply (flips_outside_the_grid aliceFirst (mkPos (-1) 0) "alice").
  - exact RI_aliceFirst.
  - vm_compute. reflexivity.
  - intros first Hf. vm_compute in Hf. inversion Hf. vm_compute. reflexivity.
Defined.


Lemma reachable_aliceAndBob : reachable aliceAndBob.
Proof.
  unfold aliceAndBob, aliceFirst, after.
  do 2 apply reach_flipFirst.
  apply (reach_new 3 3 ["u"; "u"; "a"; "b"; "b"; "c"; "c"; "a"; "x"]).
  vm_compute. reflexivity.
Qed.



Lemma map_invalid_label_changes_nothing_witness :
  map spaced perfect = (Thrown InvalidLabel, perfect) /\
  mapCards "alice" spaced perfect = (Thrown InvalidLabel, perfect).
Proof.
  apply (map_invalid_label_changes_nothing spaced perfect (mkPos 0 2)
           (mkSlot "a" false None) "alice").
  - exact RI_perfect.
  - vm_compute. reflexivity.
  - right. vm_compute. reflexivity.
Defined.

Lemma map_calls_once_and_keeps_groups_witness :
  NoDup (mapCalls prefixT aliceMatched).
Proof.
  apply (map_calls_once_and_keeps_groups prefixT aliceMatched). exact RI_aliceMatched.
Defined.

Lemma face_down_uncontrolled_witness :
  controller (mkSlot "a" false None) = None.
Proof.
  apply (face_down_uncontrolled twoWaiters (mkPos 0 2) (mkSlot "a" false None)).
  - exact reachable_twoWaiters.
  - vm_compute. reflexivity.
  - reflexivity.
Defined.

Lemma map_merges_labels_witness :
  exists b',
    map allX perfect = (Normal tt, b') /\
    forall q s, cellOf perfect q = Some s -> label s = "u" \/ label s = "a" ->
                exists s', cellOf b' q = Some s' /\ label s' = "X".
Proof.
  apply (map_merges_labels allX perfect "u" "a" "X").
  - exact RI_perfect.
  - intros q s _. vm_compute. reflexivity.
  - discriminate.
  - reflexivity.
  - reflexivity.
Defined.

(** ** Supplements *)

Lemma cellOf_removeB b p q :
  RI b -> withinB b p = true ->
  cellOf (removeB p b) q = if decide (p = q) then None else cellOf b q.
Proof.
  intros H Hw. destruct (withinB_row b p H Hw) as (rw & Hrw & _ & Hc).
  unfold removeB, cellOf. simpl.
  rewrite cellAt_setAt by (rewrite ?Hrw; eauto; lia).
  destruct p as [pi pj], q as [qi qj]; simpl.
  destruct (decide (pi = qi /\ pj = qj)) as [[-> ->]|Hn];
    destruct (decide (_ = _)) as [E|E]; try reflexivity.
  - exfalso; apply E; reflexivity.
  - inversion E; subst. exfalso; apply Hn; auto.
Qed.

(** Rule 3-A as coded: both cards are removed, and of the waiters queued
    on each of them only the head is woken. *)
Lemma settle_matched_wakes_heads p a b' b :
  RI b -> pending b !! p = Some (Some (matched a b')) -> key a <> key b' ->
  cellOf (after (settleBeforeNewFirstMove p) b) a = None /\
  cellOf (after (settleBeforeNewFirstMove p) b) b' = None /\
  queueOf (after (settleBeforeNewFirstMove p) b) a = drop 1 (queueOf b a) /\
  queueOf (after (settleBeforeNewFirstMove p) b) b' = drop 1 (queueOf b b') /\
  resolved (after (settleBeforeNewFirstMove p) b) =
    resolved b ++ take 1 (queueOf b a) ++ take 1 (queueOf b b') ++ watchers b.
Proof.
  intros H Hp Hk. unfold after. destruct (settle_run p b H) as (-> & _).
  pose proof H as (_ & _ & _ & H4). destruct (H4 p _ Hp) as [Ha Hb]. simpl in Ha, Hb.
  assert (R1 : RI (removeB a b)) by (apply RI_remove; assumption).
  unfold settleB. rewrite Hp. simpl.
  set (b2 := removeB b' (removeB a b)).
  destruct (wakeNextB_queue a b2) as (Q1 & Q2 & Q3).
  destruct (wakeNextB_queue b' (wakeNextB a b2)) as (Q4 & Q5 & Q6).
  assert (Hcells : forall q, cellOf b2 q =
            if decide (b' = q) then None else if decide (a = q) then None else cellOf b q).
  { intros q. unfold b2. rewrite cellOf_removeB by assumption.
    destruct (decide (b' = q)); [reflexivity|]. apply cellOf_removeB; assumption. }
  repeat split.
  - unfold cellOf. simpl. rewrite !grid_wakeNextB. fold (cellOf b2 a). rewrite Hcells.
    destruct (decide (b' = a)); [reflexivity|]. rewrite decide_True by reflexivity. reflexivity.
  - unfold cellOf. simpl. rewrite !grid_wakeNextB. fold (cellOf b2 b'). rewrite Hcells.
    rewrite decide_True by reflexivity. reflexivity.
  - change (queueOf (wakeNextB b' (wakeNextB a b2)) a = drop 1 (queueOf b a)).
    rewrite Q6 by assumption. exact Q2.
  - change (queueOf (wakeNextB b' (wakeNextB a b2)) b' = drop 1 (queueOf b b')).
    rewrite Q5, Q3 by congruence. reflexivity.
  - simpl. rewrite watchers_wakeNextB, watchers_wakeNextB. rewrite Q4, Q1, Q3 by congruence.
    rewrite <- !app_assoc. reflexivity.
Qed.

(** [flipSecondAsync] never parks, whatever the board. *)
Lemma flipSecondAsync_never_awaits pos p b d :
  fst (flipSecondAsync pos p b) <> Normal (Await d).
Proof.
  unfold flipSecondAsync. rewrite bind_run.
  destruct (flipSecond pos p b) as [[[]|e] b']; simpl; discriminate.
Qed.

(** [map] never touches the watchers: it resolves none of them. *)
Lemma map_never_broadcasts transform b :
  watchers (after (map transform) b) = watchers b /\
  resolved (after (map transform) b) = resolved b.
Proof.
  assert (H : LabelsOnly b (snd (map transform b))).
  { unfold map. apply (keeps_bind (LabelsOnly b)); [| |apply LabelsOnly_refl].
    - apply keeps_readOnly, readOnly_groupByValue.
    - intros entries. destruct (snd (transformAll transform entries));
        [apply keeps_LabelsOnly_map_commit | apply keeps_throw]. }
  destruct H as (_ & _ & _ & _ & _ & H6 & H7 & _). auto.
Qed.

(** * Further properties of the code *)

(** ** The invariant check *)

(** [checkRep] returns, instead of throwing, on exactly the boards that
    satisfy the representation invariant documented in the class header;
    it never changes the board. *)
Theorem checkRep_accepts_exactly_RI b :
  (checkRep b = (Normal tt, b) <-> RI b) /\ snd (checkRep b) = b.
Proof.
  split; [split|].
  - intros H. apply checkRep_RI. rewrite H. reflexivity.
  - apply checkRep_ok.
  - apply readOnly_checkRep.
Qed.

(** ** Validation of transformed labels *)

Lemma trimStart_id l : Forall (fun a => isSpace a = false) l -> trimStart l = l.
Proof. intros H. destruct H as [|a l Ha _]; simpl; [reflexivity|]. rewrite Ha. reflexivity. Qed.

Lemma hasSpace_Forall s :
  hasSpace s = false <-> Forall (fun a => isSpace a = false) (list_ascii_of_string s).
Proof.
  induction s as [|a s IH]; simpl.
  - split; [constructor | reflexivity].
  - rewrite orb_false_iff, IH. split.
    + intros [Ha Hs]. constructor; assumption.
    + intros H. inversion H; subst. auto.
Qed.

Lemma trim_id s : hasSpace s = false -> trim s = s.
Proof.
  intros H. apply hasSpace_Forall in H. unfold trim.
  rewrite (trimStart_id _ H).
  rewrite trimStart_id
    by (apply Forall_forall; intros a Ha; apply (proj1 (elem_of_rev _ _)) in Ha;
        rewrite Forall_forall in H; apply H, Ha).
  rewrite rev_involutive. apply string_of_list_ascii_of_string.
Qed.

Lemma invalidOut_negb_cardRe out : invalidOut out = negb (cardRe out).
Proof.
  unfold invalidOut, cardRe. rewrite negb_andb, !negb_involutive.
  destruct (hasSpace out) eqn:E.
  - rewrite !orb_true_r. reflexivity.
  - rewrite (trim_id out E), bool_decide_eq_true_2 by reflexivity.
    simpl. rewrite !orb_false_r. reflexivity.
Qed.

(** The test [map] and [mapCards] apply to a transformed label rejects
    exactly the strings that fail the card expression of the
    representation invariant: the comparison with [out.trim()] never
    decides. *)
Theorem transformed_labels_are_checked_like_cards out :
  invalidOut out = negb (cardRe out) /\
  invalidOut out = (String.length out =? 0)%nat || hasSpace out.
Proof.
  split; [apply invalidOut_negb_cardRe|].
  rewrite invalidOut_negb_cardRe. unfold cardRe.
  rewrite negb_andb, !negb_involutive. reflexivity.
Qed.
(** ** Snapshots *)

Lemma snapshotRow_run forPlayer b i js out :
  RI b -> 0 <= i < rows b ->
  foldM js (fun out j =>
    let* cell := getCell i j in ret (out ++ [spot forPlayer cell])) out b =
  (Normal (out ++ List.map (fun q => spot forPlayer (cellOf b q)) (List.map (mkPos i) js)), b).
Proof.
  intros H Hi. revert out. induction js as [|j js IH]; intros out; simpl.
  - rewrite app_nil_r. reflexivity.
  - rewrite bind_run, bind_run, getCell_in by assumption. cbv beta iota.
    unfold ret at 1. cbv beta iota. rewrite IH, <- app_assoc. reflexivity.
Qed.

Lemma snapshotRows_run forPlayer b rowIdx out :
  RI b -> (forall i, In i rowIdx -> 0 <= i < rows b) ->
  foldM rowIdx (fun out i =>
    foldM (seqZ 0 (cols b)) (fun out j =>
      let* cell := getCell i j in ret (out ++ [spot forPlayer cell])) out) out b =
  (Normal (out ++ List.map (fun q => spot forPlayer (cellOf b q))
                     (flat_map (fun i => List.map (mkPos i) (seqZ 0 (cols b))) rowIdx)), b).
Proof.
  intros H. revert out. induction rowIdx as [|i rowIdx IH]; intros out Hin; simpl.
  - rewrite app_nil_r. reflexivity.
  - rewrite bind_run, snapshotRow_run by (auto; apply Hin; simpl; auto). cbv beta iota.
    rewrite IH by (intros i' Hi'; apply Hin; simpl; auto).
    rewrite List.map_app, <- app_assoc. reflexivity.
Qed.

Lemma snapshot_run forPlayer b :
  RI b ->
  snapshot forPlayer b = (Normal (String.concat newline (view forPlayer b) +:+ newline), b).
Proof.
  intros H. unfold snapshot, snapshotLines. rewrite !bind_run. unfold get at 1.
  cbv beta iota. rewrite snapshotRows_run; [reflexivity | exact H |].
  intros i Hi. apply In_seqZ in Hi. exact Hi.
Qed.

Lemma positionsFrom_lookup (m k : Z) (n : nat) (i j : Z) :
  k <= i < k + Z.of_nat n -> 0 <= j < m ->
  flat_map (fun i => List.map (mkPos i) (seqZ 0 m)) (seqZ k (Z.of_nat n))
    !! Z.to_nat ((i - k) * m + j) = Some (mkPos i j).
Proof.
  revert k. induction n as [|n IH]; intros k Hi Hj; [lia|].
  rewrite (seqZ_cons k) by lia. cbn [flat_map].
  replace (Z.pred (Z.of_nat (S n))) with (Z.of_nat n) by lia.
  assert (Hlen : length (List.map (mkPos k) (seqZ 0 m)) = Z.to_nat m).
  { rewrite length_map, length_seqZ. reflexivity. }
  destruct (decide (i = k)) as [->|Hne].
  - rewrite lookup_app_l by (rewrite Hlen; nia).
    replace ((k - k) * m + j) with j by lia.
    rewrite list_lookup_fmap, lookup_seqZ_lt by lia. simpl. f_equal. f_equal. lia.
  - rewrite lookup_app_r by (rewrite Hlen; nia). rewrite Hlen.
    replace (Z.to_nat ((i - k) * m + j) - Z.to_nat m)%nat
      with (Z.to_nat ((i - Z.succ k) * m + j)) by nia.
    apply IH; lia.
Qed.

Lemma positionsOf_lookup b q :
  0 <= rows b -> withinB b q = true ->
  positionsOf b !! Z.to_nat (r q * cols b + c q) = Some q.
Proof.
  intros Hr Hw. unfold withinB in Hw.
  apply andb_true_iff in Hw as [Hw Hc2]. apply andb_true_iff in Hw as [Hw Hc1].
  apply andb_true_iff in Hw as [Hr1 Hr2].
  apply Z.geb_le in Hr1, Hc1. apply Z.ltb_lt in Hr2, Hc2.
  unfold positionsOf.
  pose proof (positionsFrom_lookup (cols b) 0 (Z.to_nat (rows b)) (r q) (c q)) as L.
  rewrite Z2Nat.id, Z.sub_0_r, Pos_eta in L by lia. apply L; lia.
Qed.

Lemma length_positionsOf b :
  0 <= rows b -> (0 < rows b -> 0 <= cols b) ->
  Z.of_nat (length (positionsOf b)) = rows b * cols b.
Proof.
  intros Hr Hc. unfold positionsOf.
  assert (Hgen : forall l : list Z,
    length (flat_map (fun i => List.map (mkPos i) (seqZ 0 (cols b))) l) =
    (length l * Z.to_nat (cols b))%nat).
  { induction l as [|i l IH]; simpl; [reflexivity|].
    rewrite length_app, IH, length_map, length_seqZ. reflexivity. }
  rewrite Hgen, length_seqZ.
  destruct (decide (rows b = 0)) as [->|Hn]; [simpl; lia|]. nia.
Qed.

Lemma RI_dims b : RI b -> 0 <= rows b /\ (0 < rows b -> 0 <= cols b).
Proof.
  intros (H1 & H2 & _). split; [lia|]. intros Hpos.
  destruct (grid b) as [|rw g]; simpl in *; [lia|].
  inversion H2; subst. lia.
Qed.

(** On a well-formed board [snapshot] does not fail and changes nothing.
    Its text is the header line [RxC] followed by one line per cell, row
    after row, each line ended by a line feed: [rows * cols + 1] lines,
    the line of the cell at [(r, c)] being line [1 + r * cols + c]. *)
Theorem snapshot_lists_every_cell forPlayer b :
  RI b ->
  snapshot forPlayer b =
    (Normal (String.concat newline (view forPlayer b) +:+ newline), b) /\
  Z.of_nat (length (view forPlayer b)) = 1 + rows b * cols b /\
  view forPlayer b !! 0%nat = Some (pretty (rows b) +:+ "x" +:+ pretty (cols b)) /\
  forall q, withinB b q = true ->
    view forPlayer b !! Z.to_nat (1 + r q * cols b + c q) = Some (spot forPlayer (cellOf b q)).
Proof.
  intros H. destruct (RI_dims b H) as [Hr Hc].
  split; [apply snapshot_run, H|]. split; [|split; [reflexivity|]].
  - unfold view. cbn [length]. rewrite length_map.
    pose proof (length_positionsOf b Hr Hc). lia.
  - intros q Hw. unfold view.
    assert (Hq : 0 <= r q * cols b + c q).
    { unfold withinB in Hw.
      apply andb_true_iff in Hw as [Hw Hc2]. apply andb_true_iff in Hw as [Hw Hc1].
      apply andb_true_iff in Hw as [Hr1 Hr2].
      apply Z.geb_le in Hr1, Hc1. apply Z.ltb_lt in Hr2, Hc2. nia. }
    replace (Z.to_nat (1 + r q * cols b + c q)) with (S (Z.to_nat (r q * cols b + c q))) by lia.
    change (((fun q => spot forPlayer (cellOf b q)) <$> positionsOf b) !!
              Z.to_nat (r q * cols b + c q) = Some (spot forPlayer (cellOf b q))).
    rewrite list_lookup_fmap, positionsOf_lookup by assumption. reflexivity.
Qed.

Lemma spot_looksSame forPlayer x y :
  looksSame forPlayer x y -> spot forPlayer x = spot forPlayer y.
Proof.
  destruct x as [s|], y as [s'|]; simpl; try contradiction; [|reflexivity].
  intros [Hf Hup]. rewrite <- Hf. destruct (faceUp s); simpl; [|reflexivity].
  destruct (Hup eq_refl) as [-> Hctl].
  destruct (bool_decide (controller s = Some forPlayer)) eqn:E.
  - apply bool_decide_eq_true in E. rewrite bool_decide_eq_true_2 by (apply Hctl, E).
    reflexivity.
  - apply bool_decide_eq_false in E.
    rewrite bool_decide_eq_false_2 by (intros E'; apply E, Hctl, E'). reflexivity.
Qed.

(** A snapshot shows a player nothing but the dimensions, which cells
    are empty, which cards are face down, the labels of the face-up cards
    and which of those the player controls: two well-formed boards that
    agree on these give the player the same text, whatever the labels of
    their face-down cards and whoever else controls a card. *)
Theorem snapshot_shows_only_what_is_visible forPlayer b b' :
  RI b -> RI b' -> rows b = rows b' -> cols b = cols b' ->
  (forall q, withinB b q = true -> looksSame forPlayer (cellOf b q) (cellOf b' q)) ->
  fst (snapshot forPlayer b) = fst (snapshot forPlayer b').
Proof.
  intros H H' Hr Hc Hsame. rewrite !snapshot_run by assumption. cbn [fst].
  assert (Hview : view forPlayer b = view forPlayer b'); [|rewrite Hview; reflexivity].
  unfold view, headerLine, positionsOf. rewrite <- Hr, <- Hc. f_equal.
  apply map_ext_in. intros q Hq. apply spot_looksSame, Hsame.
  apply elem_positionsOf, list_elem_of_In, Hq.
Qed.
(** ** The promise discipline *)

Lemma Orderly_frame b b' :
  Orderly b -> waitQueues b' = waitQueues b -> watchers b' = watchers b ->
  resolved b' = resolved b -> allocated b' = allocated b -> Orderly b'.
Proof. unfold Orderly. intros H -> -> -> ->. exact H. Qed.

Lemma Orderly_wakeNextB p b : Orderly b -> Orderly (wakeNextB p b).
Proof.
  intros H. unfold wakeNextB.
  destruct (waitQueues b !! key p) as [[|d q']|] eqn:E; try exact H.
  destruct H as (O1 & O2 & O3 & O4 & O5 & O6 & O7 & O8 & O9).
  pose proof (O4 _ _ E) as Hnd. apply NoDup_cons in Hnd as [Hd Hnd].
  assert (Hdq : d ∈ d :: q') by apply list_elem_of_here.
  destruct (O5 _ _ d E Hdq) as [Hr Hw].
  unfold Orderly; simpl. repeat split.
  - apply NoDup_app. split; [exact O1|]. split; [|apply NoDup_singleton].
    intros x Hx Hx'. apply list_elem_of_singleton in Hx'. subst x. contradiction.
  - exact O2.
  - intros x Hx Hx'. apply elem_of_app in Hx' as [Hx'|Hx'].
    + apply (O3 x Hx Hx').
    + apply list_elem_of_singleton in Hx'. subst x. contradiction.
  - intros k q Hq. apply lookup_insert_Some in Hq as [[_ <-]|[_ Hq]].
    + exact Hnd.
    + apply (O4 _ _ Hq).
  - intros Hx'. apply lookup_insert_Some in H as [[_ <-]|[Hne Hq]].
    + apply elem_of_app in Hx' as [Hx'|Hx'].
      * apply (proj1 (O5 _ _ d0 E (list_elem_of_further _ _ _ H0))), Hx'.
      * apply list_elem_of_singleton in Hx'. subst d0. contradiction.
    + apply elem_of_app in Hx' as [Hx'|Hx'].
      * apply (proj1 (O5 _ _ d0 Hq H0)), Hx'.
      * apply list_elem_of_singleton in Hx'. subst d0.
        apply Hne. symmetry. apply (O6 _ _ _ _ d Hq E H0 Hdq).
  - apply lookup_insert_Some in H as [[_ <-]|[Hne Hq]].
    + apply (proj2 (O5 _ _ d0 E (list_elem_of_further _ _ _ H0))).
    + apply (proj2 (O5 _ _ d0 Hq H0)).
  - intros k k' q q0 x Hq Hq0 Hx Hx0.
    apply lookup_insert_Some in Hq as [[Hk <-]|[Hne Hq]];
      apply lookup_insert_Some in Hq0 as [[Hk0 <-]|[Hne0 Hq0]].
    + congruence.
    + subst k. apply (O6 _ _ _ _ x E Hq0); [apply list_elem_of_further, Hx | exact Hx0].
    + subst k'. apply (O6 _ _ _ _ x Hq E); [exact Hx | apply list_elem_of_further, Hx0].
    + apply (O6 _ _ _ _ x Hq Hq0 Hx Hx0).
  - intros x Hx. apply elem_of_app in Hx as [Hx|Hx]; [apply O7, Hx|].
    apply list_elem_of_singleton in Hx. subst x. apply (O9 _ _ d E Hdq).
  - exact O8.
  - intros k q x Hq Hx. apply lookup_insert_Some in Hq as [[_ <-]|[_ Hq]].
    + apply (O9 _ _ x E), list_elem_of_further, Hx.
    + apply (O9 _ _ x Hq Hx).
Qed.

Lemma Orderly_notifyB b : Orderly b -> Orderly (notifyB b).
Proof.
  intros (O1 & O2 & O3 & O4 & O5 & O6 & O7 & O8 & O9).
  unfold Orderly, notifyB; simpl. repeat split.
  - apply NoDup_app. split; [exact O1|]. split; [|exact O2].
    intros x Hx Hx'. apply (O3 x Hx' Hx).
  - constructor.
  - intros d Hd. apply elem_of_nil in Hd. contradiction.
  - exact O4.
  - intros Hx. apply elem_of_app in Hx as [Hx|Hx].
    + apply (proj1 (O5 _ _ d H H0)), Hx.
    + apply (proj2 (O5 _ _ d H H0)), Hx.
  - apply not_elem_of_nil.
  - exact O6.
  - intros d Hd. apply elem_of_app in Hd as [Hd|Hd]; [apply O7 | apply O8]; exact Hd.
  - intros d Hd. apply elem_of_nil in Hd. contradiction.
  - exact O9.
Qed.

Lemma keeps_Orderly_wakeNext p : keeps Orderly (wakeNext p).
Proof. intros b H. rewrite wakeNext_run. apply Orderly_wakeNextB, H. Qed.

Lemma keeps_Orderly_notifyChange : keeps Orderly notifyChange.
Proof. intros b H. rewrite notifyChange_run. apply Orderly_notifyB, H. Qed.

Lemma enqueueAndWait_run p b :
  enqueueAndWait p b =
  (Normal (allocated b),
   set_waitQueues (<[key p := queueOf b p ++ [allocated b]]> (waitQueues b))
                  (set_allocated (S (allocated b)) b)).
Proof. reflexivity. Qed.

Lemma watch_run forPlayer b :
  watch forPlayer b =
  (Normal (Await (allocated b)),
   set_watchers (watchers b ++ [allocated b]) (set_allocated (S (allocated b)) b)).
Proof. reflexivity. Qed.

Lemma keeps_Orderly_enqueueAndWait p : keeps Orderly (enqueueAndWait p).
Proof.
  intros b (O1 & O2 & O3 & O4 & O5 & O6 & O7 & O8 & O9). rewrite enqueueAndWait_run.
  assert (Hq : forall d, d ∈ queueOf b p -> exists q, waitQueues b !! key p = Some q /\ d ∈ q).
  { unfold queueOf. intros d. destruct (waitQueues b !! key p) as [q|]; simpl.
    - eauto.
    - intros Hd. apply elem_of_nil in Hd. contradiction. }
  assert (Hnd : NoDup (queueOf b p)).
  { unfold queueOf. destruct (waitQueues b !! key p) as [q|] eqn:E; simpl;
      [apply (O4 _ _ E) | constructor]. }
  unfold Orderly; simpl. repeat split; try assumption.
  - intros k q Hk. apply lookup_insert_Some in Hk as [[_ <-]|[_ Hk]]; [|apply (O4 _ _ Hk)].
    apply NoDup_app. split; [exact Hnd|]. split; [|apply NoDup_singleton].
    intros x Hx Hx'. apply list_elem_of_singleton in Hx'. subst x.
    destruct (Hq _ Hx) as (q0 & E & Hin). pose proof (O9 _ _ _ E Hin). lia.
  - intros Hr. apply lookup_insert_Some in H as [[_ <-]|[_ Hk]].
    + apply elem_of_app in H0 as [Hx|Hx].
      * destruct (Hq _ Hx) as (q0 & E & Hin). apply (proj1 (O5 _ _ d E Hin)), Hr.
      * apply list_elem_of_singleton in Hx. subst d. pose proof (O7 _ Hr). lia.
    + apply (proj1 (O5 _ _ d Hk H0)), Hr.
  - intros Hr. apply lookup_insert_Some in H as [[_ <-]|[_ Hk]].
    + apply elem_of_app in H0 as [Hx|Hx].
      * destruct (Hq _ Hx) as (q0 & E & Hin). apply (proj2 (O5 _ _ d E Hin)), Hr.
      * apply list_elem_of_singleton in Hx. subst d. pose proof (O8 _ Hr). lia.
    + apply (proj2 (O5 _ _ d Hk H0)), Hr.
  - intros k k' q q0 x Hk Hk0 Hx Hx0.
    apply lookup_insert_Some in Hk as [[Ek <-]|[Hne Hk]];
      apply lookup_insert_Some in Hk0 as [[Ek0 <-]|[Hne0 Hk0]].
    + congruence.
    + exfalso. apply elem_of_app in Hx as [Hx|Hx].
      * destruct (Hq _ Hx) as (q1 & E & Hin). apply Hne0. apply (O6 _ _ _ _ x E Hk0 Hin Hx0).
      * apply list_elem_of_singleton in Hx. subst x. pose proof (O9 _ _ _ Hk0 Hx0). lia.
    + exfalso. apply elem_of_app in Hx0 as [Hx0|Hx0].
      * destruct (Hq _ Hx0) as (q1 & E & Hin). apply Hne. apply (O6 _ _ _ _ x E Hk Hin Hx).
      * apply list_elem_of_singleton in Hx0. subst x. pose proof (O9 _ _ _ Hk Hx). lia.
    + apply (O6 _ _ _ _ x Hk Hk0 Hx Hx0).
  - intros d Hd. pose proof (O7 _ Hd). lia.
  - intros d Hd. pose proof (O8 _ Hd). lia.
  - intros k q x Hk Hx. apply lookup_insert_Some in Hk as [[_ <-]|[_ Hk]].
    + apply elem_of_app in Hx as [Hx|Hx].
      * destruct (Hq _ Hx) as (q1 & E & Hin). pose proof (O9 _ _ _ E Hin). lia.
      * apply list_elem_of_singleton in Hx. subst x. lia.
    + pose proof (O9 _ _ _ Hk Hx). lia.
Qed.

Lemma keeps_Orderly_watch forPlayer : keeps Orderly (watch forPlayer).
Proof.
  intros b (O1 & O2 & O3 & O4 & O5 & O6 & O7 & O8 & O9). rewrite watch_run.
  unfold Orderly; simpl. repeat split; try assumption.
  - apply NoDup_app. split; [exact O2|]. split; [|apply NoDup_singleton].
    intros x Hx Hx'. apply list_elem_of_singleton in Hx'. subst x.
    pose proof (O8 _ Hx). lia.
  - intros d Hd Hr. apply elem_of_app in Hd as [Hd|Hd]; [apply (O3 _ Hd Hr)|].
    apply list_elem_of_singleton in Hd. subst d. pose proof (O7 _ Hr). lia.
  - apply (proj1 (O5 _ _ d H H0)).
  - intros Hw. apply elem_of_app in Hw as [Hw|Hw]; [apply (proj2 (O5 _ _ d H H0)), Hw|].
    apply list_elem_of_singleton in Hw. subst d. pose proof (O9 _ _ _ H H0). lia.
  - intros d Hd. pose proof (O7 _ Hd). lia.
  - intros d Hd. apply elem_of_app in Hd as [Hd|Hd]; [pose proof (O8 _ Hd); lia|].
    apply list_elem_of_singleton in Hd. subst d. lia.
  - intros k q x Hk Hx. pose proof (O9 _ _ _ Hk Hx). lia.
Qed.
Lemma keeps_Orderly_modify f :
  (forall b, waitQueues (f b) = waitQueues b /\ watchers (f b) = watchers b /\
             resolved (f b) = resolved b /\ allocated (f b) = allocated b) ->
  keeps Orderly (modify f).
Proof.
  intros Hf b H. destruct (Hf b) as (E1 & E2 & E3 & E4).
  apply (Orderly_frame b); assumption.
Qed.

(** Walks through the code of a method: every step is a read, a write
    to the grid or to the player registry, or one of the queue and
    watcher helpers. *)
Ltac orderly :=
  cbv zeta;
  repeat first
    [ apply keeps_ret
    | apply keeps_throw
    | apply keeps_Orderly_wakeNext
    | apply keeps_Orderly_notifyChange
    | apply keeps_Orderly_enqueueAndWait
    | apply keeps_Orderly_watch
    | apply keeps_readOnly;
      first [ apply readOnly_get | apply readOnly_within | apply readOnly_getCell
            | apply readOnly_slotAt | apply readOnly_checkRep | apply readOnly_groupByValue
            | apply readOnly_snapshot ]
    | apply keeps_Orderly_modify; intros ?; repeat split; reflexivity
    | apply keeps_bind; [|intros ?]
    | apply keeps_forEach; intros ?
    | apply keeps_foldM; intros ? ?
    | match goal with
      | |- keeps _ (match ?x with _ => _ end) => destruct x
      end
    | progress unfold setCell, row, updSlot, takeFirst, commitCell, commitCellChanged ].

Lemma keeps_Orderly_settle p : keeps Orderly (settleBeforeNewFirstMove p).
Proof. unfold settleBeforeNewFirstMove. orderly. Qed.

Lemma keeps_Orderly_flipFirstAsync_loop pos p : keeps Orderly (flipFirstAsync_loop pos p).
Proof. unfold flipFirstAsync_loop. orderly. Qed.

Lemma keeps_Orderly_flipFirst pos p : keeps Orderly (flipFirst pos p).
Proof. unfold flipFirst. orderly; apply keeps_Orderly_settle. Qed.

Lemma keeps_Orderly_relinquish p : keeps Orderly (relinquishFirstOnly p).
Proof. unfold relinquishFirstOnly. orderly. Qed.

Lemma keeps_Orderly_flipSecond pos p : keeps Orderly (flipSecond pos p).
Proof. unfold flipSecond. orderly; apply keeps_Orderly_relinquish. Qed.

Lemma keeps_Orderly_map_commit entries results : keeps Orderly (map_commit entries results).
Proof. unfold map_commit, commitGroups. orderly. Qed.

Lemma keeps_Orderly_mapCards_commit entries results :
  keeps Orderly (mapCards_commit entries results).
Proof. unfold mapCards_commit, commitGroupsChanged. orderly. Qed.

Lemma newBoard_Orderly nrows ncols labels b :
  newBoard nrows ncols labels = Normal b -> Orderly b.
Proof.
  unfold newBoard. destruct (initialGrid nrows ncols labels) as [g|]; [|discriminate].
  rewrite checkRep_run. destruct (fst (checkRep _)); [|discriminate].
  intros [= <-]. unfold Orderly; simpl.
  repeat split; try constructor; try (intros; rewrite lookup_empty in *; discriminate);
    intros d Hd; apply elem_of_nil in Hd; contradiction.
Qed.

Lemma reachable_Orderly b : reachable b -> Orderly b.
Proof.
  induction 1 as [nrows ncols labels b Hn | | | | | | | | | | | | ].
  - eapply newBoard_Orderly; eassumption.
  - apply keeps_Orderly_settle; assumption.
  - apply keeps_Orderly_flipFirst; assumption.
  - apply keeps_Orderly_flipSecond; assumption.
  - revert IHreachable. apply keeps_bind; [apply keeps_Orderly_settle|].
    intros _. apply keeps_Orderly_flipFirstAsync_loop.
  - apply keeps_Orderly_flipFirstAsync_loop; assumption.
  - revert IHreachable. apply keeps_bind; [apply keeps_Orderly_flipSecond|].
    intros _. apply keeps_ret.
  - apply keeps_readOnly; [apply readOnly_snapshot | assumption].
  - apply keeps_Orderly_watch; assumption.
  - revert IHreachable. unfold map.
    apply keeps_bind; [apply keeps_readOnly, readOnly_groupByValue|].
    intros entries. destruct (snd (transformAll transform entries));
      [apply keeps_Orderly_map_commit | apply keeps_throw].
  - apply keeps_Orderly_map_commit; assumption.
  - revert IHreachable. unfold mapCards.
    apply keeps_bind; [apply keeps_readOnly, readOnly_groupByValue|].
    intros entries. destruct (snd (transformAll transform entries));
      [apply keeps_Orderly_mapCards_commit | apply keeps_throw].
  - apply keeps_Orderly_mapCards_commit; assumption.
Qed.

Lemma elem_queueOf b p d :
  d ∈ queueOf b p -> exists q, waitQueues b !! key p = Some q /\ d ∈ q.
Proof.
  unfold queueOf. destruct (waitQueues b !! key p) as [q|]; simpl; [eauto|].
  intros Hd. apply elem_of_nil in Hd. contradiction.
Qed.

(** On every board reachable through the methods, [resolve] has been
    called at most once on each deferred; a deferred that still waits,
    among the watchers or in the queue of a position, has not been
    resolved and waits in that one place only; and a queue never holds a
    deferred twice. *)
Theorem each_deferred_is_resolved_at_most_once b :
  reachable b ->
  NoDup (resolved b) /\ NoDup (watchers b) /\
  (forall d, d ∈ watchers b -> d ∉ resolved b) /\
  (forall p, NoDup (queueOf b p)) /\
  (forall p d, d ∈ queueOf b p -> (d ∉ resolved b) /\ (d ∉ watchers b)) /\
  (forall p p' d, d ∈ queueOf b p -> d ∈ queueOf b p' -> key p = key p').
Proof.
  intros Hr. destruct (reachable_Orderly b Hr) as (O1 & O2 & O3 & O4 & O5 & O6 & _).
  split; [exact O1|]. split; [exact O2|]. split; [exact O3|]. split; [|split].
  - intros p. unfold queueOf. destruct (waitQueues b !! key p) as [q|] eqn:E; simpl;
      [apply (O4 _ _ E) | constructor].
  - intros p d Hd. destruct (elem_queueOf _ _ _ Hd) as (q & E & Hin). apply (O5 _ _ _ E Hin).
  - intros p p' d Hd Hd'.
    destruct (elem_queueOf _ _ _ Hd) as (q & E & Hin).
    destruct (elem_queueOf _ _ _ Hd') as (q' & E' & Hin').
    apply (O6 _ _ _ _ d E E' Hin Hin').
Qed.
(** ** Every method keeps the representation invariant *)

Lemma keeps_RI_settle p : keeps RI (settleBeforeNewFirstMove p).
Proof. intros b H. destruct (settle_run p b H) as (-> & R & _). exact R. Qed.

Lemma keeps_RI_flipFirstAsync_loop pos p : keeps RI (flipFirstAsync_loop pos p).
Proof.
  unfold flipFirstAsync_loop. apply keeps_bind_read; [apply readOnly_slotAt|].
  intros b [s|] H Hs; [|exact H].
  apply slotAt_cellOf in Hs as (_ & Hw & Hc).
  destruct (faceUp s) eqn:Eu; simpl.
  - destruct (bool_decide (controller s = None) || bool_decide (controller s = Some p)).
    + mrun. mcheck; simpl; apply RI_set_firstSelection; eapply RI_control; eassumption.
    + rewrite bind_run, enqueueAndWait_run. simpl. apply (RI_frame b); auto.
  - mrun. mcheck; simpl; apply RI_set_firstSelection, RI_notifyB;
      (apply (RI_control (set_grid (alterAt (grid b) (r pos) (c pos) (withFaceUp true)) b)
                         pos p (withFaceUp true s));
       [ apply RI_turnUp, H
       | cells; rewrite decide_True by reflexivity; rewrite Hc; reflexivity
       | reflexivity ]).
Qed.

Lemma keeps_RI_flipFirst pos p : keeps RI (flipFirst pos p).
Proof.
  unfold flipFirst. apply keeps_bind; [apply keeps_RI_settle|]. intros _.
  apply keeps_bind_read; [apply readOnly_slotAt|].
  intros b [s|] H Hs; [|exact H].
  apply slotAt_cellOf in Hs as (_ & Hw & Hc).
  destruct (faceUp s) eqn:Eu; simpl.
  - destruct (bool_decide (controller s = None) || bool_decide (controller s = Some p)).
    + mrun. mcheck; simpl; apply RI_set_firstSelection; eapply RI_control; eassumption.
    + mrun. exact H.
  - mrun. mcheck; simpl; apply RI_set_firstSelection, RI_notifyB;
      (apply (RI_control (set_grid (alterAt (grid b) (r pos) (c pos) (withFaceUp true)) b)
                         pos p (withFaceUp true s));
       [ apply RI_turnUp, H
       | cells; rewrite decide_True by reflexivity; rewrite Hc; reflexivity
       | reflexivity ]).
Qed.

Lemma keeps_RI_relinquish p : keeps RI (relinquishFirstOnly p).
Proof.
  unfold relinquishFirstOnly. apply keeps_bind_read; [apply readOnly_get|].
  intros b b0 H Hg. inversion Hg; subst b0. clear Hg.
  destruct (firstSelection b !! p) as [first|] eqn:Ef; [|exact H].
  rewrite bind_run. destruct (slotAt first b) as [[s1|e] b1] eqn:Es.
  2: { apply readOnly_eq in Es; [subst b1; exact H | apply readOnly_slotAt]. }
  apply slotAt_cellOf in Es as (-> & _ & Hc).
  destruct s1 as [s1|]; mrun; mcheck; simpl; apply RI_set_firstSelection;
    try apply RI_wakeNextB, RI_uncontrol; exact H.
Qed.
Lemma WellFormed_Inv b : WellFormed b -> Inv b.
Proof.
  intros [(_ & _ & H3 & _) HF]. split; [|exact HF].
  intros q s Hq. apply (H3 q s Hq).
Qed.

Lemma RI_flipSecond pos p b : RI b -> FirstHeld b -> RI (snd (flipSecond pos p b)).
Proof.
  intros H HF. unfold flipSecond. rewrite bind_run. unfold get at 1. cbv beta iota.
  destruct (firstSelection b !! p) as [first|] eqn:Ef; [|exact H].
  rewrite bind_run. unfold within at 1. mrun.
  destruct ((if withinB b pos then getCell (r pos) (c pos) else fun b0 => (Normal None, b0)) b)
    as [[s2|e] b1] eqn:Es2.
  2: { destruct (withinB b pos); [|discriminate].
       apply readOnly_eq in Es2; [subst b1; exact H | apply readOnly_getCell]. }
  assert (b1 = b /\ forall s, s2 = Some s -> cellOf b pos = Some s /\ withinB b pos = true)
    as [-> Hc].
  { destruct (withinB b pos).
    - apply getCell_normal in Es2 as [-> ->]. auto.
    - inversion Es2; subst. split; [reflexivity | discriminate]. }
  destruct s2 as [s2|].
  2: { pose proof (keeps_RI_relinquish p b H) as R. rewrite bind_run.
       destruct (relinquishFirstOnly p b) as [[[]|e] b2]; exact R. }
  destruct (Hc s2 eq_refl) as [Hc2 Hw]. clear Hc Es2.
  destruct (faceUp s2 && bool_decide (controller s2 <> None)) eqn:Eb.
  { pose proof (keeps_RI_relinquish p b H) as R. rewrite bind_run.
    destruct (relinquishFirstOnly p b) as [[[]|e] b2]; exact R. }
  assert (Hfree : ~ (faceUp s2 = true /\ controller s2 <> None)).
  { intros [Hu Hn]. rewrite Hu in Eb. simpl in Eb.
    apply bool_decide_eq_false in Eb. contradiction. }
  assert (Hne : first <> pos).
  { intros ->. destruct (HF p pos s2 Ef Hc2) as [Hu Hctl].
    apply Hfree. split; [exact Hu | congruence]. }
  set (b1 := if negb (faceUp s2)
             then set_grid (alterAt (grid b) (r pos) (c pos) (withFaceUp true)) b
             else b).
  assert (Hb1 : RI b1).
  { unfold b1. destruct (negb (faceUp s2)); [apply RI_turnUp|]; exact H. }
  assert (Hrun : (if negb (faceUp s2) then updSlot pos (withFaceUp true)
                  else fun b0 => (Normal tt, b0)) b
                 = (Normal tt, b1)).
  { unfold b1. destruct (negb (faceUp s2)); reflexivity. }
  cbv zeta. rewrite bind_run, Hrun. cbv beta iota.
  rewrite bind_run. destruct (slotAt first b1) as [[s1|e] b2] eqn:Es1.
  2: { apply readOnly_eq in Es1; [subst b2; exact Hb1 | apply readOnly_slotAt]. }
  apply slotAt_cellOf in Es1 as (-> & Hwf & Hc1).
  destruct s1 as [s1|]; [|exact Hb1].
  assert (Hwf' : withinB b first = true).
  { unfold b1 in Hwf. destruct (negb (faceUp s2)); exact Hwf. }
  assert (Hc1' : cellOf b first = Some s1).
  { unfold b1 in Hc1. destruct (negb (faceUp s2)); [|exact Hc1].
    revert Hc1. cells. rewrite decide_False by congruence. auto. }
  destruct (HF p first s1 Ef Hc1') as [Hu1 _].
  assert (Hup : negb (faceUp s2) = false -> faceUp s2 = true).
  { destruct (faceUp s2); [reflexivity | discriminate]. }
  clear Hrun Hb1 Hc1 Hwf. subst b1.
  destruct (bool_decide (label s1 = label s2));
    mrun; destruct (negb (faceUp s2)) eqn:Eneg; mrun; mcheck; cbn [snd];
    apply RI_set_firstSelection; try apply RI_notifyB;
    (apply RI_set_pending;
     [ | intros x [= <-]; cbn [outcomeFirst outcomeSecond];
         autorewrite with cell; auto ]);
    try apply RI_wakeNextB; try apply RI_wakeNextB;
    first [ apply RI_control_up; [apply RI_control_up; [first [apply RI_turnUp, H | exact H]|]|]
          | apply RI_uncontrol, RI_uncontrol; first [apply RI_turnUp, H | exact H] ].
  all: intros s; cells; repeat case_decide; subst; try congruence;
       rewrite ?Hc1', ?Hc2; simpl; intros [= <-]; simpl; auto.
Qed.
Lemma RI_relabel b p v :
  RI b -> cardRe v = true ->
  RI (set_grid (alterAt (grid b) (r p) (c p) (withLabel v)) b).
Proof.
  intros H Hv. apply RI_alter; [exact H|]. intros s Hs. simpl.
  split; [exact Hv|]. destruct H as (_ & _ & H3 & _). apply (H3 p s Hs).
Qed.

Lemma results_valid (transform : string -> string) (entries : list (string * list Pos)) rs k v :
  snd (transformAll transform entries) = Normal rs ->
  mapGet k (newMap rs) = Some v -> cardRe v = true.
Proof.
  intros Hrs Hk. pose proof (transformAll_Normal _ _ _ Hrs) as ->.
  rewrite transformAll_result in Hrs.
  destruct (forallb _ entries) eqn:Ef; [|discriminate]. clear Hrs.
  rewrite mapGet_results in Hk. destruct (decide _) as [Hin|]; [|discriminate].
  inversion Hk; subst v. apply invalidOut_cardRe.
  apply list_elem_of_fmap in Hin as (e & -> & He).
  rewrite forallb_forall in Ef. specialize (Ef e (proj1 (list_elem_of_In _ _) He)).
  apply negb_true_iff in Ef. exact Ef.
Qed.

Lemma keeps_RI_commitGroups entries mapping :
  (forall k v, mapGet k mapping = Some v -> cardRe v = true) ->
  keeps RI (commitGroups entries mapping).
Proof.
  intros Hvalid. unfold commitGroups. apply keeps_forEach. intros e.
  destruct (mapGet (fst e) mapping) as [v|] eqn:E; [|apply keeps_ret].
  apply keeps_forEach. intros p. unfold commitCell.
  apply keeps_bind_read; [apply readOnly_getCell|].
  intros b [s|] H _; [|exact H].
  rewrite updSlot_run. apply RI_relabel; [exact H | apply (Hvalid _ _ E)].
Qed.

Lemma keeps_RI_commitGroupsChanged entries mapping :
  (forall k v, mapGet k mapping = Some v -> cardRe v = true) ->
  keeps RI (commitGroupsChanged entries mapping).
Proof.
  intros Hvalid. unfold commitGroupsChanged. apply keeps_foldM. intros ch e.
  destruct (mapGet (fst e) mapping) as [v|] eqn:E; [|apply keeps_ret].
  destruct (bool_decide _); [apply keeps_ret|].
  apply keeps_foldM. intros ch' p. unfold commitCellChanged.
  apply keeps_bind_read; [apply readOnly_getCell|].
  intros b [s|] H _; [|exact H].
  destruct (bool_decide (label s <> v)); [|exact H].
  rewrite bind_run, updSlot_run. apply RI_relabel; [exact H | apply (Hvalid _ _ E)].
Qed.

Lemma keeps_RI_map_commit (transform : string -> string) entries rs :
  snd (transformAll transform entries) = Normal rs ->
  keeps RI (map_commit entries rs).
Proof.
  intros Hrs. unfold map_commit. apply keeps_bind.
  - apply keeps_RI_commitGroups. intros k v. apply (results_valid transform entries rs k v Hrs).
  - intros _. apply keeps_readOnly, readOnly_checkRep.
Qed.

Lemma keeps_RI_mapCards_commit (transform : string -> string) entries rs :
  snd (transformAll transform entries) = Normal rs ->
  keeps RI (mapCards_commit entries rs).
Proof.
  intros Hrs. unfold mapCards_commit. apply keeps_bind.
  - apply keeps_RI_commitGroupsChanged. intros k v.
    apply (results_valid transform entries rs k v Hrs).
  - intros ch. apply keeps_bind; [|intros _; apply keeps_readOnly, readOnly_checkRep].
    destruct ch; [|apply keeps_ret].
    intros b H. rewrite notifyChange_run. apply RI_notifyB, H.
Qed.

Lemma keeps_RI_map transform : keeps RI (map transform).
Proof.
  unfold map. apply keeps_bind; [apply keeps_readOnly, readOnly_groupByValue|].
  intros entries. destruct (snd (transformAll transform entries)) as [rs|e] eqn:E;
    [apply (keeps_RI_map_commit transform), E | apply keeps_throw].
Qed.

Lemma keeps_RI_mapCards player transform : keeps RI (mapCards player transform).
Proof.
  unfold mapCards. apply keeps_bind; [apply keeps_readOnly, readOnly_groupByValue|].
  intros entries. destruct (snd (transformAll transform entries)) as [rs|e] eqn:E;
    [apply (keeps_RI_mapCards_commit transform), E | apply keeps_throw].
Qed.

Lemma keeps_RI_watch forPlayer : keeps RI (watch forPlayer).
Proof. intros b H. rewrite watch_run. apply (RI_frame b); auto. Qed.

(** Every method of the class leaves a well-formed board well formed,
    whether it returns, throws or parks: the representation invariant
    holds again and each recorded first selection still on the board is
    held by its player.  This covers the resumption of a parked first
    flip and the commit of a [map] or [mapCards] whose transformed
    labels passed the validation, run on any later board. *)
Theorem methods_keep_the_board_well_formed b :
  WellFormed b ->
  (forall p, WellFormed (after (settleBeforeNewFirstMove p) b)) /\
  (forall pos p,
     WellFormed (after (flipFirst pos p) b) /\
     WellFormed (after (flipFirstAsync pos p) b) /\
     WellFormed (after (flipFirstAsync_resume pos p) b) /\
     WellFormed (after (flipSecond pos p) b) /\
     WellFormed (after (flipSecondAsync pos p) b)) /\
  (forall p, WellFormed (after (snapshot p) b) /\ WellFormed (after (watch p) b)) /\
  (forall transform,
     WellFormed (after (map transform) b) /\
     (forall p, WellFormed (after (mapCards p transform) b)) /\
     (forall entries rs, snd (transformAll transform entries) = Normal rs ->
        WellFormed (after (map_commit entries rs) b) /\
        WellFormed (after (mapCards_commit entries rs) b))).
Proof.
  intros W. pose proof (WellFormed_Inv b W) as I. destruct W as [H HF]. unfold after.
  split; [|split; [|split]].
  - intros p. split; [apply keeps_RI_settle, H | apply keeps_settle, I].
  - intros pos p. split; [|split; [|split; [|split]]].
    + split; [apply keeps_RI_flipFirst, H | apply keeps_flipFirst, I].
    + split; [|apply keeps_flipFirstAsync, I].
      revert H. apply keeps_bind; [apply keeps_RI_settle|].
      intros _. apply keeps_RI_flipFirstAsync_loop.
    + split; [apply keeps_RI_flipFirstAsync_loop, H | apply keeps_flipFirstAsync_loop, I].
    + split; [apply RI_flipSecond; assumption | apply keeps_flipSecond, I].
    + split; [|apply keeps_flipSecondAsync, I].
      unfold flipSecondAsync. rewrite bind_run.
      pose proof (RI_flipSecond pos p b H HF) as R.
      destruct (flipSecond pos p b) as [[[]|e] b']; exact R.
  - intros p. split.
    + rewrite readOnly_snapshot. split; assumption.
    + split; [apply keeps_RI_watch, H | apply keeps_watch, I].
  - intros transform. split; [|split].
    + split; [apply keeps_RI_map, H | apply keeps_map, I].
    + intros p. split; [apply keeps_RI_mapCards, H | apply keeps_mapCards, I].
    + intros entries rs Hrs. split.
      * split; [apply (keeps_RI_map_commit transform), H; exact Hrs | apply keeps_map_commit, I].
      * split; [apply (keeps_RI_mapCards_commit transform), H; exact Hrs
               | apply keeps_mapCards_commit, I].
Qed.
(** ** The rules of the first flip *)

Lemma after_settle p b : RI b -> after (settleBeforeNewFirstMove p) b = settleB p b.
Proof. intros H. unfold after. destruct (settle_run p b H) as (-> & _). reflexivity. Qed.

(** Rules 1-B and 1-C.  After the cleanup of the player's pending
    outcome, a first flip on a card that is face down, or face up and
    controlled by nobody or by the player, succeeds at once in both
    variants: the card is face up and controlled by the player, it is
    recorded as the player's first selection, no other cell, queue or
    pending outcome changes, and the watchers are resolved exactly when
    the card was turned up. *)
Theorem flipFirst_takes_a_free_card b pos p s :
  RI b ->
  cellOf (after (settleBeforeNewFirstMove p) b) pos = Some s ->
  faceUp s = false \/ controller s = None \/ controller s = Some p ->
  exists b',
    flipFirst pos p b = (Normal tt, b') /\
    flipFirstAsync pos p b = (Normal Done, b') /\
    cellOf b' pos = Some (mkSlot (label s) true (Some p)) /\
    (forall q, q <> pos -> cellOf b' q = cellOf (after (settleBeforeNewFirstMove p) b) q) /\
    firstSelection b' = <[p := pos]> (firstSelection (after (settleBeforeNewFirstMove p) b)) /\
    pending b' = pending (after (settleBeforeNewFirstMove p) b) /\
    waitQueues b' = waitQueues (after (settleBeforeNewFirstMove p) b) /\
    watchers b' =
      (if faceUp s then watchers (after (settleBeforeNewFirstMove p) b) else []) /\
    resolved b' =
      resolved (after (settleBeforeNewFirstMove p) b) ++
      (if faceUp s then [] else watchers (after (settleBeforeNewFirstMove p) b)).
Proof.
  intros H. rewrite (after_settle p b H).
  destruct (settle_run p b H) as (Hs & R & _).
  unfold flipFirst, flipFirstAsync, flipFirstAsync_loop. rewrite !bind_run, Hs. cbv beta iota.
  revert R. clear Hs H. generalize (settleB p b). clear b. intros b R Hc Hfree.
  assert (Hw : withinB b pos = true) by (eapply occupied_within; eassumption).
  rewrite !bind_run, slotAt_within by assumption. cbv beta iota. rewrite Hc.
  destruct (faceUp s) eqn:Eu; cbn [negb].
  - assert (Ectl : bool_decide (controller s = None) || bool_decide (controller s = Some p) = true).
    { destruct Hfree as [Hf|[Hf|Hf]]; [discriminate| |].
      - rewrite (bool_decide_eq_true_2 _ Hf). reflexivity.
      - rewrite (bool_decide_eq_true_2 (controller s = Some p) Hf). apply orb_true_r. }
    rewrite Ectl. mrun.
    rewrite checkRep_ok by (apply RI_set_firstSelection; eapply RI_control; eassumption).
    eexists. split; [reflexivity|]. split; [reflexivity|].
    rewrite app_nil_r. repeat split.
    + cells. rewrite decide_True by reflexivity. rewrite Hc. simpl.
      unfold withController. rewrite Eu. reflexivity.
    + intros q Hq. cells. rewrite decide_False by congruence. reflexivity.
  - mrun.
    rewrite checkRep_ok.
    2: { apply RI_set_firstSelection, RI_notifyB.
         apply (RI_control (set_grid (alterAt (grid b) (r pos) (c pos) (withFaceUp true)) b)
                           pos p (withFaceUp true s)).
         - apply RI_turnUp, R.
         - cells. rewrite decide_True by reflexivity. rewrite Hc. reflexivity.
         - reflexivity. }
    eexists. split; [reflexivity|]. split; [reflexivity|]. repeat split.
    + cells. rewrite !decide_True by reflexivity. rewrite Hc. reflexivity.
    + intros q Hq. cells. rewrite !decide_False by congruence. reflexivity.
Qed.
Lemma held_is_up b q s other : RI b -> cellOf b q = Some s -> controller s = Some other -> faceUp s = true.
Proof.
  intros (_ & _ & H3 & _) Hc Hctl. destruct (H3 q s Hc) as [_ Hd].
  destruct (faceUp s); [reflexivity|]. rewrite Hd in Hctl by reflexivity. discriminate.
Qed.

Lemma held_not_free s p other :
  controller s = Some other -> other <> p ->
  bool_decide (controller s = None) || bool_decide (controller s = Some p) = false.
Proof.
  intros Hctl Hne. rewrite Hctl.
  rewrite bool_decide_eq_false_2 by discriminate.
  rewrite bool_decide_eq_false_2 by congruence. reflexivity.
Qed.

Lemma queueOf_enqueue b pos q :
  queueOf (set_waitQueues (<[key pos := queueOf b pos ++ [allocated b]]> (waitQueues b))
                          (set_allocated (S (allocated b)) b)) q =
  if decide (key q = key pos) then queueOf b pos ++ [allocated b] else queueOf b q.
Proof.
  unfold queueOf at 1. simpl. destruct (decide (key q = key pos)) as [->|Hne].
  - rewrite lookup_insert_eq. reflexivity.
  - rewrite lookup_insert_ne by congruence. reflexivity.
Qed.

(** Rule 1-D.  After the cleanup of the player's pending outcome, a
    first flip on a card controlled by another player fails [Contested]
    in the plain variant and parks in the waiting variant: a new
    deferred is appended to the queue of that position, behind the
    waiters already there, and nothing else changes. *)
Theorem flipFirst_on_a_held_card b pos p s other :
  RI b ->
  cellOf (after (settleBeforeNewFirstMove p) b) pos = Some s ->
  controller s = Some other -> other <> p ->
  flipFirst pos p b = (Thrown Contested, after (settleBeforeNewFirstMove p) b) /\
  exists b',
    flipFirstAsync pos p b =
      (Normal (Await (allocated (after (settleBeforeNewFirstMove p) b))), b') /\
    queueOf b' pos =
      queueOf (after (settleBeforeNewFirstMove p) b) pos ++
      [allocated (after (settleBeforeNewFirstMove p) b)] /\
    (forall q, key q <> key pos ->
       queueOf b' q = queueOf (after (settleBeforeNewFirstMove p) b) q) /\
    allocated b' = S (allocated (after (settleBeforeNewFirstMove p) b)) /\
    grid b' = grid (after (settleBeforeNewFirstMove p) b) /\
    firstSelection b' = firstSelection (after (settleBeforeNewFirstMove p) b) /\
    pending b' = pending (after (settleBeforeNewFirstMove p) b) /\
    watchers b' = watchers (after (settleBeforeNewFirstMove p) b) /\
    resolved b' = resolved (after (settleBeforeNewFirstMove p) b).
Proof.
  intros H. rewrite (after_settle p b H).
  destruct (settle_run p b H) as (Hs & R & _).
  unfold flipFirst, flipFirstAsync, flipFirstAsync_loop. rewrite !bind_run, Hs. cbv beta iota.
  revert R. clear Hs H. generalize (settleB p b). clear b. intros b R Hc Hctl Hne.
  assert (Hw : withinB b pos = true) by (eapply occupied_within; eassumption).
  rewrite !bind_run, slotAt_within by assumption. cbv beta iota. rewrite Hc.
  rewrite (held_is_up b pos s other R Hc Hctl). cbn [negb].
  rewrite (held_not_free s p other Hctl Hne). split; [reflexivity|].
  rewrite bind_run, enqueueAndWait_run. cbv beta iota.
  eexists. split; [reflexivity|]. split; [|split].
  - rewrite queueOf_enqueue, decide_True by reflexivity. reflexivity.
  - intros q Hq. rewrite queueOf_enqueue, decide_False by assumption. reflexivity.
  - repeat split.
Qed.

(** A parked first flip that is resumed goes back to the top of its
    loop, on the board as it is then: it fails [EmptySpace] if the card
    is gone, takes the card if it is free, and otherwise parks again on
    a new deferred at the back of the queue. *)
Theorem resumed_first_flip_retries b pos p :
  RI b -> withinB b pos = true ->
  match cellOf b pos with
  | None => flipFirstAsync_resume pos p b = (Thrown EmptySpace, b)
  | Some s =>
      if negb (faceUp s) || bool_decide (controller s = None)
         || bool_decide (controller s = Some p)
      then exists b',
             flipFirstAsync_resume pos p b = (Normal Done, b') /\
             cellOf b' pos = Some (mkSlot (label s) true (Some p)) /\
             firstSelection b' = <[p := pos]> (firstSelection b) /\
             waitQueues b' = waitQueues b
      else exists b',
             flipFirstAsync_resume pos p b = (Normal (Await (allocated b)), b') /\
             queueOf b' pos = queueOf b pos ++ [allocated b] /\
             grid b' = grid b /\ firstSelection b' = firstSelection b
  end.
Proof.
  intros R Hw. unfold flipFirstAsync_resume, flipFirstAsync_loop.
  rewrite bind_run, slotAt_within by assumption. cbv beta iota.
  destruct (cellOf b pos) as [s|] eqn:Hc; [|reflexivity].
  destruct (faceUp s) eqn:Eu; cbn [negb orb].
  - destruct (bool_decide (controller s = None) || bool_decide (controller s = Some p)) eqn:Ef.
    + mrun.
      rewrite checkRep_ok by (apply RI_set_firstSelection; eapply RI_control; eassumption).
      eexists. split; [reflexivity|]. repeat split.
      cells. rewrite decide_True by reflexivity. rewrite Hc. simpl.
      unfold withController. rewrite Eu. reflexivity.
    + rewrite bind_run, enqueueAndWait_run. cbv beta iota.
      eexists. split; [reflexivity|]. split; [|split; reflexivity].
      rewrite queueOf_enqueue, decide_True by reflexivity. reflexivity.
  - mrun.
    rewrite checkRep_ok.
    2: { apply RI_set_firstSelection, RI_notifyB.
         apply (RI_control (set_grid (alterAt (grid b) (r pos) (c pos) (withFaceUp true)) b)
                           pos p (withFaceUp true s)).
         - apply RI_turnUp, R.
         - cells. rewrite decide_True by reflexivity. rewrite Hc. reflexivity.
         - reflexivity. }
    eexists. split; [reflexivity|]. repeat split.
    cells. rewrite !decide_True by reflexivity. rewrite Hc. reflexivity.
Qed.
(** ** The rules of the second flip *)

Lemma key_inj a c : key a = key c -> a = c.
Proof. destruct a, c. unfold key. simpl. intros [= -> ->]. reflexivity. Qed.

Lemma wake_two b a c :
  key a <> key c ->
  queueOf (wakeNextB c (wakeNextB a b)) a = drop 1 (queueOf b a) /\
  queueOf (wakeNextB c (wakeNextB a b)) c = drop 1 (queueOf b c) /\
  (forall q, key q <> key a -> key q <> key c ->
     queueOf (wakeNextB c (wakeNextB a b)) q = queueOf b q) /\
  resolved (wakeNextB c (wakeNextB a b)) =
    resolved b ++ take 1 (queueOf b a) ++ take 1 (queueOf b c) /\
  watchers (wakeNextB c (wakeNextB a b)) = watchers b.
Proof.
  intros Hk.
  destruct (wakeNextB_queue a b) as (Q1 & Q2 & Q3).
  destruct (wakeNextB_queue c (wakeNextB a b)) as (Q4 & Q5 & Q6).
  split; [|split; [|split; [|split]]].
  - rewrite Q6 by assumption. exact Q2.
  - rewrite Q5, Q3 by congruence. reflexivity.
  - intros q Ha Hc. rewrite Q6, Q3 by assumption. reflexivity.
  - rewrite Q4, Q1, Q3 by congruence. rewrite <- app_assoc. reflexivity.
  - rewrite !watchers_wakeNextB. reflexivity.
Qed.

Lemma queueOf_frame b b' q : waitQueues b' = waitQueues b -> queueOf b' q = queueOf b q.
Proof. unfold queueOf. intros ->. reflexivity. Qed.

(** Rules 2-C, 2-D and 2-E.  With a first card held, a second flip on a
    card that is on the board and controlled by nobody succeeds: the
    card is turned up if it was down, the player's first selection is
    cleared, and no cell other than the two cards changes.  If the
    labels are equal the player controls both cards and the pair is
    recorded as matched, nobody being woken; otherwise nobody controls
    them, the pair is recorded as mismatched and the head waiter of each
    of the two positions is woken.  The watchers are resolved exactly
    when the second card was turned up. *)
Theorem flipSecond_completes_the_turn b p first s1 pos s2 :
  RI b -> FirstHeld b ->
  firstSelection b !! p = Some first -> cellOf b first = Some s1 ->
  cellOf b pos = Some s2 -> faceUp s2 = false \/ controller s2 = None ->
  exists b',
    flipSecond pos p b = (Normal tt, b') /\
    firstSelection b' = delete p (firstSelection b) /\
    (forall q, q <> first -> q <> pos -> cellOf b' q = cellOf b q) /\
    watchers b' = (if faceUp s2 then watchers b else []) /\
    if bool_decide (label s1 = label s2) then
      cellOf b' first = Some (mkSlot (label s1) true (Some p)) /\
      cellOf b' pos = Some (mkSlot (label s2) true (Some p)) /\
      pending b' = <[p := Some (matched first pos)]> (pending b) /\
      waitQueues b' = waitQueues b /\
      resolved b' = resolved b ++ (if faceUp s2 then [] else watchers b)
    else
      cellOf b' first = Some (mkSlot (label s1) true None) /\
      cellOf b' pos = Some (mkSlot (label s2) true None) /\
      pending b' = <[p := Some (mismatched first pos)]> (pending b) /\
      queueOf b' first = drop 1 (queueOf b first) /\
      queueOf b' pos = drop 1 (queueOf b pos) /\
      (forall q, key q <> key first -> key q <> key pos -> queueOf b' q = queueOf b q) /\
      resolved b' =
        resolved b ++ take 1 (queueOf b first) ++ take 1 (queueOf b pos) ++
        (if faceUp s2 then [] else watchers b).
Proof.
  intros H HF Hf Hc1 Hc2 Hfree2.
  assert (Hwf : withinB b first = true) by (eapply occupied_within; eassumption).
  assert (Hw : withinB b pos = true) by (eapply occupied_within; eassumption).
  destruct (HF p first s1 Hf Hc1) as [Hu1 Hctl1].
  assert (Hne : first <> pos).
  { intros ->. rewrite Hc1 in Hc2. inversion Hc2; subst s2.
    destruct Hfree2; congruence. }
  assert (Hk : key first <> key pos) by (intros E; apply Hne, key_inj, E).
  assert (Eb : faceUp s2 && bool_decide (controller s2 <> None) = false).
  { destruct Hfree2 as [-> | ->]; [reflexivity|].
    rewrite bool_decide_eq_false_2 by (intros E; apply E; reflexivity). apply andb_false_r. }
  assert (Hd2 : faceUp s2 = false -> controller s2 = None).
  { destruct H as (_ & _ & H3 & _). apply (H3 pos s2 Hc2). }
  unfold flipSecond. rewrite bind_run. unfold get at 1. cbv beta iota. rewrite Hf.
  rewrite bind_run. unfold within at 1. rewrite bind_run. unfold get at 1. cbv beta iota.
  unfold ret at 1. cbv beta iota. rewrite Hw.
  rewrite bind_run, getCell_within by assumption. cbv beta iota. rewrite Hc2, Eb. cbv zeta.
  destruct (faceUp s2) eqn:Eu; cbn [negb]; mrun;
    (rewrite slotAt_within;
     [ cbv beta iota; cells; rewrite ?decide_False by congruence; rewrite Hc1; cbv beta iota
     | first [apply RI_turnUp, H | exact H]
     | autorewrite with cell; exact Hwf ]);
    destruct (bool_decide (label s1 = label s2)); mrun;
    (rewrite checkRep_ok;
     [ eexists; split; [reflexivity|]
     | apply RI_set_firstSelection; try apply RI_notifyB;
       (apply RI_set_pending;
        [ | intros x [= <-]; cbn [outcomeFirst outcomeSecond];
            autorewrite with cell; auto ]);
       try apply RI_wakeNextB; try apply RI_wakeNextB;
       (first [ apply RI_control_up;
                [apply RI_control_up; [first [apply RI_turnUp, H | exact H]|]|]
              | apply RI_uncontrol, RI_uncontrol; first [apply RI_turnUp, H | exact H] ]);
       intros s; cells; repeat case_decide; subst; try congruence;
       rewrite ?Hc1, ?Hc2; simpl; intros [= <-]; simpl; auto ]).
  all: try match goal with
       | Hk : key ?a <> key ?c |- context [wakeNextB ?c (wakeNextB ?a ?G)] =>
           destruct (wake_two G a c Hk) as (W1 & W2 & W3 & W4 & W5)
       end.
  all: (split; [cells; reflexivity|]).
  all: (split; [intros q Hq1 Hq2; cells; rewrite ?decide_False by congruence; reflexivity|]).
  all: (split; [cells; rewrite ?W5; reflexivity|]).
  all: repeat split.
  all: try (cells;
            repeat first [rewrite decide_True by reflexivity | rewrite decide_False by congruence];
            rewrite ?Hc1, ?Hc2; simpl; unfold withController; simpl;
            rewrite ?Hu1, ?Eu, ?app_nil_r; reflexivity).
  all: try first [exact W1 | exact W2 | exact W3].
  all: cells; unfold queueOf in *; fields; rewrite W4, ?W5;
       rewrite <- ?app_assoc, ?app_nil_r; reflexivity.
Qed.
(** ** The cleanup before a first move *)

Lemma cellOf_flipDownB a b q :
  cellOf (flipDownB a b) q =
  if bool_decide (a = q) && turnsDown a b then withFaceUp false <$> cellOf b q else cellOf b q.
Proof.
  unfold flipDownB. destruct (turnsDown a b) eqn:E.
  - rewrite cellOf_alter. destruct (decide (a = q)) as [->|Hne].
    + rewrite bool_decide_eq_true_2 by reflexivity. reflexivity.
    + rewrite bool_decide_eq_false_2 by assumption. reflexivity.
  - rewrite andb_false_r. reflexivity.
Qed.

Lemma turnsDown_flipDownB a b q :
  turnsDown q (flipDownB a b) = turnsDown q b && negb (bool_decide (a = q) && turnsDown a b).
Proof.
  unfold turnsDown at 1. rewrite cellOf_flipDownB.
  destruct (bool_decide (a = q)) eqn:E; simpl.
  - apply bool_decide_eq_true in E. subst q.
    destruct (turnsDown a b) eqn:Et; simpl.
    + unfold turnsDown in Et. destruct (cellOf b a); simpl; [reflexivity | discriminate].
    + exact Et.
  - rewrite andb_true_r. reflexivity.
Qed.

Lemma flipDownB_frame a b :
  pending (flipDownB a b) = pending b /\ firstSelection (flipDownB a b) = firstSelection b /\
  waitQueues (flipDownB a b) = waitQueues b /\ watchers (flipDownB a b) = watchers b /\
  resolved (flipDownB a b) = resolved b.
Proof. unfold flipDownB. destruct (turnsDown a b); repeat split. Qed.

(** Rule 3-B.  The cleanup of a mismatched pair never fails on a
    well-formed board.  It turns face down each of the two cards that
    is still on the board, face up and controlled by nobody, and leaves
    every other cell, a card that somebody controls included, as it
    was; the player's pending outcome is cleared; no waiter is woken;
    and the watchers are resolved exactly when a card was turned down. *)
Theorem cleanup_turns_down_unclaimed_cards b p first second :
  RI b -> pending b !! p = Some (Some (mismatched first second)) ->
  exists b',
    settleBeforeNewFirstMove p b = (Normal tt, b') /\
    (forall q, cellOf b' q =
       if bool_decide (q = first \/ q = second) && turnsDown q b
       then withFaceUp false <$> cellOf b q else cellOf b q) /\
    pending b' = <[p := None]> (pending b) /\
    firstSelection b' = firstSelection b /\ waitQueues b' = waitQueues b /\
    watchers b' = (if turnsDown first b || turnsDown second b then [] else watchers b) /\
    resolved b' =
      resolved b ++ (if turnsDown first b || turnsDown second b then watchers b else []).
Proof.
  intros H Hp. destruct (settle_run p b H) as (Hs & _).
  exists (settleB p b). split; [exact Hs|]. clear Hs.
  unfold settleB. rewrite Hp. cbv zeta.
  set (b1 := flipDownB first b). set (b2 := flipDownB second b1).
  assert (Hor : turnsDown first b || turnsDown second b1 = turnsDown first b || turnsDown second b).
  { unfold b1. rewrite turnsDown_flipDownB.
    destruct (turnsDown first b); [reflexivity|]. rewrite andb_false_r, andb_true_r. reflexivity. }
  rewrite Hor.
  assert (Hsame : pending b2 = pending b /\ firstSelection b2 = firstSelection b /\
                  waitQueues b2 = waitQueues b /\ watchers b2 = watchers b /\
                  resolved b2 = resolved b).
  { destruct (flipDownB_frame first b) as (F1 & F2 & F3 & F4 & F5).
    destruct (flipDownB_frame second b1) as (G1 & G2 & G3 & G4 & G5).
    unfold b2. fold b1 in F1, F2, F3, F4, F5. repeat split; congruence. }
  destruct Hsame as (E1 & E2 & E3 & E4 & E5).
  assert (Hcells : forall q, cellOf b2 q =
            if bool_decide (q = first \/ q = second) && turnsDown q b
            then withFaceUp false <$> cellOf b q else cellOf b q).
  { intros q. unfold b2. rewrite cellOf_flipDownB. unfold b1.
    rewrite turnsDown_flipDownB, cellOf_flipDownB.
    destruct (decide (second = q)) as [->|Hn2]; destruct (decide (first = q)) as [->|Hn1].
    - rewrite !bool_decide_eq_true_2 by auto. simpl.
      destruct (turnsDown q b); reflexivity.
    - rewrite (bool_decide_eq_true_2 (q = q)) by reflexivity.
      rewrite (bool_decide_eq_false_2 (first = q)) by assumption.
      rewrite (bool_decide_eq_true_2 (q = first \/ q = q)) by auto. simpl.
      rewrite andb_true_r. reflexivity.
    - rewrite (bool_decide_eq_false_2 (second = q)) by assumption.
      rewrite (bool_decide_eq_true_2 (q = q)) by reflexivity.
      rewrite (bool_decide_eq_true_2 (q = q \/ q = second)) by auto. reflexivity.
    - rewrite (bool_decide_eq_false_2 (second = q)) by assumption.
      rewrite (bool_decide_eq_false_2 (first = q)) by assumption.
      rewrite (bool_decide_eq_false_2 (q = first \/ q = second))
        by (intros [E|E]; congruence).
      reflexivity. }
  destruct (turnsDown first b || turnsDown second b); simpl;
    rewrite ?E1, ?E2, ?E3, ?E4, ?E5, ?app_nil_r; repeat split; auto.
Qed.

(** The cleanup never fails on a well-formed board and leaves the player
    without a pending outcome, so that running it again changes
    nothing. *)
Theorem cleanup_runs_once b p :
  RI b ->
  fst (settleBeforeNewFirstMove p b) = Normal tt /\
  (pending (after (settleBeforeNewFirstMove p) b) !! p = None \/
   pending (after (settleBeforeNewFirstMove p) b) !! p = Some None) /\
  settleBeforeNewFirstMove p (after (settleBeforeNewFirstMove p) b) =
    (Normal tt, after (settleBeforeNewFirstMove p) b).
Proof.
  intros H. rewrite (after_settle p b H). destruct (settle_run p b H) as (Hs & _).
  rewrite Hs. split; [reflexivity|].
  assert (Hp : pending (settleB p b) !! p = None \/ pending (settleB p b) !! p = Some None).
  { unfold settleB. destruct (pending b !! p) as [[[a b'|first second]|]|] eqn:E; auto;
      right; cbv zeta; try destruct (_ || _); simpl; apply lookup_insert_eq. }
  split; [exact Hp|]. apply settle_nothing_pending, Hp.
Qed.

(** ** The wait queue of a position *)

Lemma take_S_drop {A} (n : nat) (l : list A) : take (S n) l = take n l ++ take 1 (drop n l).
Proof.
  revert l. induction n as [|n IH]; intros [|x l]; try reflexivity.
  simpl. f_equal. apply (IH l).
Qed.

(** The queue of a position is first in, first out: [n] calls of
    [wakeNext] resolve the [n] oldest waiters, in the order in which
    they were queued, and leave the others queued in their order; and
    [enqueueAndWait] puts its new deferred behind all of them. *)
Theorem waiters_are_woken_in_arrival_order p b n :
  resolved (Nat.iter n (after (wakeNext p)) b) = resolved b ++ take n (queueOf b p) /\
  queueOf (Nat.iter n (after (wakeNext p)) b) p = drop n (queueOf b p) /\
  fst (enqueueAndWait p b) = Normal (allocated b) /\
  queueOf (after (enqueueAndWait p) b) p = queueOf b p ++ [allocated b].
Proof.
  assert (Hiter : resolved (Nat.iter n (after (wakeNext p)) b) =
                    resolved b ++ take n (queueOf b p) /\
                  queueOf (Nat.iter n (after (wakeNext p)) b) p = drop n (queueOf b p)).
  { induction n as [|n [IH1 IH2]]; simpl.
    - rewrite app_nil_r. auto.
    - unfold after at 1 3. rewrite wakeNext_run. simpl.
      destruct (wakeNextB_queue p (Nat.iter n (after (wakeNext p)) b)) as (Q1 & Q2 & _).
      rewrite Q1, Q2, IH1, IH2. split.
      + rewrite <- app_assoc. f_equal. symmetry. apply take_S_drop.
      + rewrite drop_drop. f_equal. lia. }
  destruct Hiter as [H1 H2]. split; [exact H1|]. split; [exact H2|].
  split; [reflexivity|].
  unfold after. rewrite enqueueAndWait_run. simpl.
  rewrite queueOf_enqueue, decide_True by reflexivity. reflexivity.
Qed.
(** ** Construction *)

Lemma traverse_total {A B} (f : A -> option B) xs :
  (forall x, In x xs -> is_Some (f x)) -> is_Some (traverse f xs).
Proof.
  induction xs as [|x xs IH]; intros H; simpl; [eauto|].
  destruct (H x) as [y Hy]; [simpl; auto|]. rewrite Hy.
  destruct IH as [ys Hys]; [intros x' Hx'; apply H; simpl; auto|].
  rewrite Hys. eauto.
Qed.

Lemma traverse_None {A B} (f : A -> option B) xs x :
  In x xs -> f x = None -> traverse f xs = None.
Proof.
  induction xs as [|x' xs IH]; intros Hin Hx; simpl; [contradiction|].
  destruct Hin as [->|Hin].
  - rewrite Hx. reflexivity.
  - destruct (f x'); [|reflexivity]. rewrite (IH Hin Hx). reflexivity.
Qed.

Lemma traverse_lookup {A B} (f : A -> option B) xs ys n x :
  traverse f xs = Some ys -> xs !! n = Some x -> exists y, ys !! n = Some y /\ f x = Some y.
Proof.
  intros H Hx. apply traverse_Forall2 in H.
  destruct (Forall2_lookup_l _ _ _ _ _ H Hx) as (y & Hy & Hf). eauto.
Qed.

Lemma traverse_length {A B} (f : A -> option B) xs ys :
  traverse f xs = Some ys -> length ys = length xs.
Proof. intros H. apply traverse_Forall2 in H. symmetry. eapply Forall2_length, H. Qed.

(** The cells of a grid the constructor builds. *)
Lemma initialGrid_shape nrows ncols labels g :
  initialGrid nrows ncols labels = Some g ->
  length g = Z.to_nat nrows /\
  Forall (fun rw => length rw = Z.to_nat ncols) g /\
  forall i j, 0 <= i < nrows -> 0 <= j < ncols ->
    exists l, labels !! Z.to_nat (i * ncols + j) = Some l /\
              cellAt g i j = Some (mkSlot l false None).
Proof.
  unfold initialGrid. intros Hg. split; [|split].
  - rewrite (traverse_length _ _ _ Hg), length_seqZ. reflexivity.
  - apply Forall_forall. intros rw Hrw. apply list_elem_of_lookup in Hrw as [n Hn].
    pose proof (traverse_Forall2 _ _ _ Hg) as F.
    destruct (Forall2_lookup_r _ _ _ _ _ F Hn) as (i & _ & Hrow).
    rewrite (traverse_length _ _ _ Hrow), length_seqZ. reflexivity.
  - intros i j Hi Hj.
    assert (Hsi : seqZ 0 nrows !! Z.to_nat i = Some i).
    { rewrite lookup_seqZ_lt by lia. f_equal. lia. }
    assert (Hsj : seqZ 0 ncols !! Z.to_nat j = Some j).
    { rewrite lookup_seqZ_lt by lia. f_equal. lia. }
    destruct (traverse_lookup _ _ _ _ _ Hg Hsi) as (rw & Hrw & Hrow).
    destruct (traverse_lookup _ _ _ _ _ Hrow Hsj) as (cell & Hcell & Hlab).
    destruct (labels !! Z.to_nat (i * ncols + j)) as [l|]; [|discriminate].
    inversion Hlab; subst cell. exists l. split; [reflexivity|].
    unfold cellAt, gridRow, rowCell.
    destruct (Z.ltb_spec i 0); [lia|]. rewrite Hrw.
    destruct (Z.ltb_spec j 0); [lia|]. rewrite Hcell. reflexivity.
Qed.

Lemma initialGrid_total nrows ncols labels :
  0 <= nrows -> 0 <= ncols -> nrows * ncols <= Z.of_nat (length labels) ->
  is_Some (initialGrid nrows ncols labels).
Proof.
  intros Hr Hc Hlen. unfold initialGrid. apply traverse_total. intros i Hi.
  apply In_seqZ in Hi. apply traverse_total. intros j Hj. apply In_seqZ in Hj.
  destruct (lookup_lt_is_Some_2 labels (Z.to_nat (i * ncols + j))) as [l Hl]; [nia|].
  rewrite Hl. eauto.
Qed.

Lemma withinB_bounds b q :
  withinB b q = true <-> 0 <= r q < rows b /\ 0 <= c q < cols b.
Proof.
  unfold withinB. rewrite !andb_true_iff, !Z.geb_le, !Z.ltb_lt. lia.
Qed.

Lemma newBoard_ok nrows ncols labels :
  0 <= nrows -> 0 <= ncols -> nrows * ncols <= Z.of_nat (length labels) ->
  (forall k l, (k < Z.to_nat (nrows * ncols))%nat -> labels !! k = Some l ->
     cardRe l = true) ->
  exists b,
    newBoard nrows ncols labels = Normal b /\ WellFormed b /\
    rows b = nrows /\ cols b = ncols /\
    (forall q, withinB b q = true ->
       exists l, labels !! Z.to_nat (r q * ncols + c q) = Some l /\
                 cellOf b q = Some (mkSlot l false None)) /\
    firstSelection b = ∅ /\ pending b = ∅ /\ waitQueues b = ∅ /\
    watchers b = [] /\ resolved b = [].
Proof.
  intros Hr Hc Hlen Hvalid.
  destruct (initialGrid_total nrows ncols labels Hr Hc Hlen) as [g Hg].
  destruct (initialGrid_shape _ _ _ _ Hg) as (Hl & Hrows & Hcells).
  set (b := mkBoard nrows ncols g ∅ ∅ ∅ [] [] 0).
  assert (R : RI b).
  { split; [|split; [|split]].
    - simpl. lia.
    - simpl. eapply Forall_impl; [exact Hrows|]. intros rw Hrw. simpl in Hrw. lia.
    - intros [i j] s Hs. unfold cellOf in Hs. simpl in Hs.
      assert (Hi : 0 <= i < nrows /\ 0 <= j < ncols).
      { unfold cellAt in Hs. destruct (gridRow g i) as [rw|] eqn:Erw; [|discriminate].
        pose proof (gridRow_Some _ _ _ Erw). pose proof (rowCell_Some _ _ _ Hs).
        rewrite Forall_forall in Hrows. pose proof (Hrows rw (gridRow_elem _ _ _ Erw)). lia. }
      destruct (Hcells i j (proj1 Hi) (proj2 Hi)) as (l & Hlab & Hcell).
      rewrite Hcell in Hs. inversion Hs; subst s. simpl. split; [|reflexivity].
      apply (Hvalid (Z.to_nat (i * ncols + j)) l); [nia | exact Hlab].
    - intros p o Hp. simpl in Hp. rewrite lookup_empty in Hp. discriminate. }
  exists b. unfold newBoard. rewrite Hg. fold b. rewrite (checkRep_ok b R).
  split; [reflexivity|]. split.
  { split; [exact R|]. intros p q s Hp. simpl in Hp. rewrite lookup_empty in Hp. discriminate. }
  split; [reflexivity|]. split; [reflexivity|]. split; [|repeat split].
  intros q Hw. apply withinB_bounds in Hw. simpl in Hw.
  destruct (Hcells (r q) (c q) (proj1 Hw) (proj2 Hw)) as (l & Hlab & Hcell).
  exists l. split; [exact Hlab | exact Hcell].
Qed.

(** [new Board(rows, cols, labels)] with non-negative dimensions, at
    least [rows * cols] labels, and the labels it uses all matching the
    card expression, returns a well-formed board of these dimensions on
    which the card at [(r, c)] carries label number [r * cols + c], face
    down and uncontrolled; nobody has a selection or a pending outcome,
    nobody waits or watches. *)
Theorem newBoard_deals_the_labels_face_down nrows ncols labels :
  0 <= nrows -> 0 <= ncols -> nrows * ncols <= Z.of_nat (length labels) ->
  (forall k l, (k < Z.to_nat (nrows * ncols))%nat -> labels !! k = Some l ->
     cardRe l = true) ->
  exists b,
    newBoard nrows ncols labels = Normal b /\ WellFormed b /\
    rows b = nrows /\ cols b = ncols /\
    (forall q, withinB b q = true ->
       exists l, labels !! Z.to_nat (r q * ncols + c q) = Some l /\
                 cellOf b q = Some (mkSlot l false None)) /\
    firstSelection b = ∅ /\ pending b = ∅ /\ waitQueues b = ∅ /\
    watchers b = [] /\ resolved b = [].
Proof. apply newBoard_ok. Qed.

(** The constructor throws when it runs out of labels, and its own
    invariant check refuses negative dimensions. *)
Theorem newBoard_rejects_bad_arguments nrows ncols labels :
  (0 < nrows -> 0 < ncols -> Z.of_nat (length labels) < nrows * ncols ->
   newBoard nrows ncols labels = Thrown InternalMissingLabel) /\
  (nrows < 0 -> newBoard nrows ncols labels = Thrown RIRowCount) /\
  (0 < nrows -> ncols < 0 -> newBoard nrows ncols labels = Thrown RIColCount).
Proof.
  split; [|split].
  - intros Hr Hc Hlen. unfold newBoard.
    replace (initialGrid nrows ncols labels) with (@None (list (list (option Slot))));
      [reflexivity|].
    symmetry. unfold initialGrid.
    apply (traverse_None _ _ (nrows - 1)); [apply In_seqZ; lia|].
    apply (traverse_None _ _ (ncols - 1)); [apply In_seqZ; lia|].
    rewrite lookup_ge_None_2; [reflexivity | nia].
  - intros Hr. unfold newBoard, initialGrid.
    rewrite (seqZ_nil 0 nrows) by lia. simpl.
    unfold checkRep. rewrite bind_run. unfold get at 1. cbv beta iota. rewrite bind_run.
    simpl. rewrite bool_decide_eq_true_2 by lia. reflexivity.
  - intros Hr Hc. unfold newBoard, initialGrid.
    rewrite (seqZ_nil 0 ncols) by lia. simpl.
    rewrite (seqZ_cons 0 nrows) by lia. simpl.
    destruct (traverse _ (seqZ (Z.succ 0) (Z.pred nrows))) as [g|] eqn:Eg.
    2: { exfalso. destruct (traverse_total (fun _ : Z => Some (@nil (option Slot)))
                              (seqZ (Z.succ 0) (Z.pred nrows))) as [g Hg]; [eauto|].
         rewrite Hg in Eg. discriminate. }
    pose proof (traverse_length _ _ _ Eg) as Hlen. rewrite length_seqZ in Hlen.
    unfold checkRep. rewrite bind_run. unfold get at 1. cbv beta iota. rewrite bind_run.
    simpl. rewrite bool_decide_eq_false_2 by lia.
    rewrite bool_decide_eq_true_2 by (simpl; lia). reflexivity.
Qed.
(** ** Reading a board file *)

Lemma parseFrom_acc (l : list ascii) (acc : Z) :
  fold_left (fun acc a => 10 * acc + digitValue a) l acc =
  acc * 10 ^ Z.of_nat (length l) + fold_left (fun acc a => 10 * acc + digitValue a) l 0.
Proof.
  revert acc. induction l as [|a l IH]; intros acc; simpl fold_left.
  - simpl. lia.
  - rewrite (IH (10 * acc + digitValue a)), (IH (10 * 0 + digitValue a)).
    replace (Z.of_nat (length (a :: l))) with (Z.succ (Z.of_nat (length l)))
      by (simpl length; lia).
    rewrite Z.pow_succ_r by lia. ring.
Qed.

Lemma length_list_ascii s : length (list_ascii_of_string s) = String.length s.
Proof. induction s as [|a s IH]; simpl; congruence. Qed.

Lemma parseInt_String a s :
  parseInt (String a s) = digitValue a * 10 ^ Z.of_nat (String.length s) + parseInt s.
Proof.
  unfold parseInt. simpl. rewrite parseFrom_acc, length_list_ascii. f_equal; try lia.
Qed.

Lemma digit_char (d : N) :
  (d < 10)%N -> digitValue (pretty_N_char d) = Z.of_N d /\ isDigit (pretty_N_char d) = true.
Proof.
  intros Hd.
  assert (d = 0 \/ d = 1 \/ d = 2 \/ d = 3 \/ d = 4 \/ d = 5 \/ d = 6 \/ d = 7 \/ d = 8 \/ d = 9)%N
    as Hcases by lia.
  repeat (destruct Hcases as [->|Hcases]; [split; reflexivity|]).
  subst d. split; reflexivity.
Qed.

Lemma pretty_N_go_digits x s :
  allDigits s = true ->
  allDigits (pretty_N_go x s) = true /\
  parseInt (pretty_N_go x s) = Z.of_N x * 10 ^ Z.of_nat (String.length s) + parseInt s /\
  ((0 < x)%N -> pretty_N_go x s <> EmptyString).
Proof.
  revert s. induction (N.lt_wf_0 x) as [x _ IH]. intros s Hs.
  destruct (decide (x = 0)%N) as [->|Hx].
  - rewrite pretty_N_go_0. split; [exact Hs|]. split; [simpl; lia | lia].
  - assert (Hpos : (0 < x)%N) by lia.
    rewrite pretty_N_go_step by assumption.
    destruct (digit_char (x `mod` 10)%N) as [Hv Hd]; [apply N.mod_lt; lia|].
    destruct (IH (x `div` 10)%N (N.div_lt x 10 Hpos eq_refl)
                 (String (pretty_N_char (x `mod` 10)) s)) as (I1 & I2 & I3).
    { simpl. rewrite Hd, Hs. reflexivity. }
    split; [exact I1|]. split.
    + rewrite I2, parseInt_String, Hv. simpl String.length.
      rewrite Nat2Z.inj_succ, Z.pow_succ_r by lia.
      pose proof (N.div_mod x 10 ltac:(discriminate)) as Hdm.
      assert (Hz : Z.of_N x = 10 * Z.of_N (x `div` 10) + Z.of_N (x `mod` 10)) by lia.
      rewrite Hz. ring.
    + intros _. destruct (decide (x `div` 10 = 0)%N) as [E|E].
      * rewrite E, pretty_N_go_0. discriminate.
      * apply I3. apply N.neq_0_lt_0. exact E.
Qed.

(** Decimal rendering and [parseInt] are inverse on the positive
    integers. *)
Lemma pretty_digits (n : Z) :
  0 < n ->
  allDigits (pretty n) = true /\ parseInt (pretty n) = n /\ pretty n <> EmptyString.
Proof.
  intros Hn. destruct n as [|x|x]; try lia.
  unfold pretty, pretty_Z, pretty, pretty_positive, pretty, pretty_N.
  rewrite decide_False by discriminate.
  destruct (pretty_N_go_digits (N.pos x) EmptyString eq_refl) as (D1 & D2 & D3).
  split; [exact D1|]. split; [|apply D3; reflexivity].
  rewrite D2. change (parseInt EmptyString) with 0.
  change (Z.of_nat (String.length EmptyString)) with 0. rewrite Z.pow_0_r. lia.
Qed.

Lemma spanDigits_app d rest :
  allDigits d = true ->
  spanDigits (d +:+ String "x" rest) = (d, String "x" rest).
Proof.
  induction d as [|a d IH]; simpl; intros Hd; [reflexivity|].
  apply andb_true_iff in Hd as [Ha Hd]. rewrite Ha, (IH Hd). reflexivity.
Qed.

Lemma matchHeader_pretty nrows ncols :
  0 < nrows -> 0 < ncols ->
  matchHeader (pretty nrows +:+ "x" +:+ pretty ncols) = Some (pretty nrows, pretty ncols).
Proof.
  intros Hr Hc.
  destruct (pretty_digits nrows Hr) as (D1 & _ & N1).
  destruct (pretty_digits ncols Hc) as (D2 & _ & N2).
  unfold matchHeader.
  change (pretty nrows +:+ "x" +:+ pretty ncols)
    with (pretty nrows +:+ String "x" (pretty ncols)).
  rewrite (spanDigits_app _ _ D1).
  destruct (pretty nrows) as [|a d1]; [contradiction|].
  rewrite D2. destruct (pretty ncols) as [|a2 d2]; [contradiction|]. reflexivity.
Qed.
Lemma eqb_CR_LF : Ascii.eqb LF CR = false.
Proof. reflexivity. Qed.

Lemma replaceCRLF_cons a s :
  Ascii.eqb a CR = false -> replaceCRLF (String a s) = String a (replaceCRLF s).
Proof. intros Ha. simpl. rewrite Ha. destruct s; reflexivity. Qed.

Lemma replaceCRLF_app l s :
  hasBreak l = false -> replaceCRLF (l +:+ s) = l +:+ replaceCRLF s.
Proof.
  induction l as [|a l IH]; intros Hl; [reflexivity|].
  simpl in Hl. apply orb_false_iff in Hl as [Ha Hl]. apply orb_false_iff in Ha as [Ha _].
  change (String a l +:+ s) with (String a (l +:+ s)).
  rewrite replaceCRLF_cons, (IH Hl) by assumption. reflexivity.
Qed.

Lemma replaceCR_app l s :
  hasBreak l = false -> replaceCR (l +:+ s) = l +:+ replaceCR s.
Proof.
  induction l as [|a l IH]; intros Hl; [reflexivity|].
  simpl in Hl. apply orb_false_iff in Hl as [Ha Hl]. apply orb_false_iff in Ha as [Ha _].
  simpl. rewrite Ha, (IH Hl). reflexivity.
Qed.

Lemma normalize_eol eol s :
  eol = eolLF \/ eol = eolCRLF \/ eol = eolCR ->
  (eol = eolCR -> startsLF s = false) ->
  replaceCR (replaceCRLF (eol +:+ s)) = String LF (replaceCR (replaceCRLF s)).
Proof.
  intros [-> | [-> | ->]] Hs.
  - change (eolLF +:+ s) with (String LF s).
    rewrite replaceCRLF_cons by reflexivity. reflexivity.
  - reflexivity.
  - specialize (Hs eq_refl). change (eolCR +:+ s) with (String CR s).
    destruct s as [|a s]; [reflexivity|]. simpl in Hs.
    cbn [replaceCRLF]. change (Ascii.eqb CR CR) with true. rewrite Hs. reflexivity.
Qed.

Lemma startsLF_app l s :
  hasBreak l = false -> startsLF (l +:+ s) = match l with EmptyString => startsLF s | _ => false end.
Proof.
  destruct l as [|a l]; [reflexivity|]. simpl. intros Hl.
  apply orb_false_iff in Hl as [Ha _]. apply orb_false_iff in Ha as [_ Ha]. exact Ha.
Qed.

Lemma concat_cons2 sep x y ps :
  String.concat sep (x :: y :: ps) = x +:+ sep +:+ String.concat sep (y :: ps).
Proof. reflexivity. Qed.

Lemma startsLF_concat_CR ps :
  Forall (fun l => hasBreak l = false) ps -> startsLF (String.concat eolCR ps) = false.
Proof.
  intros H. destruct H as [|x ps Hx Hps]; [reflexivity|].
  destruct ps as [|y ps].
  - simpl. destruct x as [|a x]; [reflexivity|]. simpl in *.
    apply orb_false_iff in Hx as [Ha _]. apply orb_false_iff in Ha as [_ Ha]. exact Ha.
  - rewrite concat_cons2, startsLF_app by assumption. destruct x; reflexivity.
Qed.

Lemma normalize_concat eol ps :
  eol = eolLF \/ eol = eolCRLF \/ eol = eolCR ->
  Forall (fun l => hasBreak l = false) ps ->
  replaceCR (replaceCRLF (String.concat eol ps)) = String.concat eolLF ps.
Proof.
  intros Heol H. induction H as [|x ps Hx Hps IH]; [reflexivity|].
  destruct ps as [|y ps].
  - simpl. clear IH Hps. induction x as [|a x IHx]; [reflexivity|].
    simpl in Hx. apply orb_false_iff in Hx as [Ha Hx]. apply orb_false_iff in Ha as [Ha _].
    rewrite replaceCRLF_cons by assumption. simpl. rewrite Ha, (IHx Hx). reflexivity.
  - rewrite !concat_cons2.
    rewrite replaceCRLF_app by assumption.
    rewrite replaceCR_app by assumption. f_equal.
    rewrite normalize_eol; [rewrite IH; reflexivity | exact Heol |].
    intros ->. apply startsLF_concat_CR, Hps.
Qed.
Lemma splitLF_nonempty s : splitLF s <> [].
Proof.
  induction s as [|a s IH]; simpl; [discriminate|].
  destruct (Ascii.eqb a LF); [discriminate|]. destruct (splitLF s); discriminate.
Qed.

Lemma splitLF_app l s :
  hasBreak l = false ->
  splitLF (l +:+ s) =
  match splitLF s with
  | x :: xs => (l +:+ x) :: xs
  | [] => [l]
  end.
Proof.
  induction l as [|a l IH]; intros Hl.
  - change (EmptyString +:+ s) with s. pose proof (splitLF_nonempty s).
    destruct (splitLF s); [contradiction | reflexivity].
  - simpl in Hl. apply orb_false_iff in Hl as [Ha Hl]. apply orb_false_iff in Ha as [_ Ha].
    simpl. rewrite Ha, (IH Hl). destruct (splitLF s); reflexivity.
Qed.

Lemma append_empty_r x : x +:+ EmptyString = x.
Proof.
  induction x as [|a x IH]; [reflexivity|].
  change (String a x +:+ EmptyString) with (String a (x +:+ EmptyString)).
  rewrite IH. reflexivity.
Qed.

Lemma splitLF_concat ps :
  Forall (fun l => hasBreak l = false) ps ->
  splitLF (String.concat eolLF ps) = match ps with [] => [EmptyString] | _ => ps end.
Proof.
  intros H. induction H as [|x ps Hx Hps IH]; [reflexivity|].
  destruct ps as [|y ps].
  - cbn [String.concat].
    replace (splitLF x) with (splitLF (x +:+ EmptyString))
      by (rewrite append_empty_r; reflexivity).
    rewrite splitLF_app by assumption. cbn [splitLF]. rewrite append_empty_r. reflexivity.
  - rewrite concat_cons2, splitLF_app by assumption.
    change (eolLF +:+ String.concat eolLF (y :: ps))
      with (String LF (String.concat eolLF (y :: ps))).
    cbn [splitLF]. change (Ascii.eqb LF LF) with true. cbv iota. rewrite IH.
    rewrite append_empty_r. reflexivity.
Qed.

(** The non-empty lines of a text whose pieces are joined by one of the
    three line terminators are its non-empty pieces. *)
Lemma fileLines_concat eol ps :
  eol = eolLF \/ eol = eolCRLF \/ eol = eolCR ->
  Forall (fun l => hasBreak l = false) ps ->
  fileLines (String.concat eol ps) =
  List.filter (fun l => negb (String.length l =? 0)%nat) ps.
Proof.
  intros Heol H. unfold fileLines.
  rewrite normalize_concat, splitLF_concat by assumption.
  destruct ps; reflexivity.
Qed.

Lemma finite_below_2_53 n : n < 2 ^ 53 -> isFiniteNum n = true.
Proof.
  intros H. unfold isFiniteNum. apply Z.ltb_lt.
  assert (2 ^ 53 <= 2 ^ 1024 - 2 ^ 970) by (vm_compute; discriminate). lia.
Qed.

Lemma cardRe_Forall cards :
  forallb cardRe cards = true <-> Forall (fun c => cardRe c = true) cards.
Proof.
  induction cards as [|x cards IH]; simpl.
  - split; [constructor | reflexivity].
  - rewrite andb_true_iff, IH. split.
    + intros [Hx Hc]. constructor; assumption.
    + intros H. inversion H; subst. auto.
Qed.

(** A text in the board-file format is read back as the board it
    describes.  Take pieces without line breaks, joined by line feeds,
    by carriage returns or by both; let the non-empty pieces be the
    header [RxC], with positive [R] and [C] in decimal, followed by
    [R * C] cards that match the card expression.  Then [parseFromFile]
    returns the board [new Board(R, C, cards)] builds.  Blank lines, a
    line terminator after the last card included, are ignored. *)
Theorem parseFromFile_reads_a_board_file eol pieces nrows ncols cards :
  eol = eolLF \/ eol = eolCRLF \/ eol = eolCR ->
  Forall (fun l => hasBreak l = false) pieces ->
  List.filter (fun l => negb (String.length l =? 0)%nat) pieces =
    (pretty nrows +:+ "x" +:+ pretty ncols) :: cards ->
  0 < nrows -> 0 < ncols -> nrows * ncols < 2 ^ 53 ->
  Z.of_nat (length cards) = nrows * ncols ->
  Forall (fun c => cardRe c = true) cards ->
  exists b,
    parseFromFile (String.concat eol pieces) = inr (Normal b) /\
    newBoard nrows ncols cards = Normal b /\
    rows b = nrows /\ cols b = ncols /\
    forall q, withinB b q = true ->
      exists l, cards !! Z.to_nat (r q * ncols + c q) = Some l /\
                cellOf b q = Some (mkSlot l false None).
Proof.
  intros Heol Hpieces Hlines Hr Hc Hbound Hlen Hcards.
  destruct (newBoard_ok nrows ncols cards) as (b & Hb & _ & Hrows & Hcols & Hcells & _);
    try lia.
  { intros k l _ Hl. rewrite Forall_forall in Hcards.
    apply Hcards. eapply list_elem_of_lookup_2, Hl. }
  exists b. split; [|split; [exact Hb|split; [exact Hrows|split; [exact Hcols|exact Hcells]]]].
  unfold parseFromFile. rewrite fileLines_concat, Hlines by assumption.
  rewrite matchHeader_pretty by assumption.
  destruct (pretty_digits nrows Hr) as (_ & -> & _).
  destruct (pretty_digits ncols Hc) as (_ & -> & _).
  rewrite !finite_below_2_53 by nia.
  destruct (Z.leb_spec nrows 0); [lia|]. destruct (Z.leb_spec ncols 0); [lia|].
  cbn [negb orb]. rewrite (proj2 (Z.eqb_eq _ _) Hlen). cbn [negb].
  rewrite (proj2 (cardRe_Forall cards) Hcards). cbn [negb]. rewrite Hb. reflexivity.
Qed.

(** [parseFromFile] returns a board only from a header with positive
    dimensions followed by exactly [rows * cols] valid cards; the
    board is then well formed, every card lies face down and
    uncontrolled at its place in row-major order, and nobody has a
    selection, a pending outcome or a parked call.  The checks it makes
    leave no way for the constructor to throw. *)
Theorem parseFromFile_builds_only_valid_boards text :
  match parseFromFile text with
  | inl _ => True
  | inr (Thrown _) => False
  | inr (Normal b) =>
      exists header cards,
        fileLines text = header :: cards /\
        WellFormed b /\ 0 < rows b /\ 0 < cols b /\
        Z.of_nat (length cards) = rows b * cols b /\
        (forall q, withinB b q = true ->
           exists l, cards !! Z.to_nat (r q * cols b + c q) = Some l /\
                     cardRe l = true /\ cellOf b q = Some (mkSlot l false None)) /\
        firstSelection b = ∅ /\ pending b = ∅ /\ waitQueues b = ∅ /\
        watchers b = [] /\ resolved b = []
  end.
Proof.
  unfold parseFromFile.
  destruct (fileLines text) as [|header cards] eqn:El; [exact I|].
  destruct (matchHeader header) as [[d1 d2]|]; [|exact I].
  cbv zeta. set (nrows := parseInt d1). set (ncols := parseInt d2).
  destruct (negb (isFiniteNum nrows) || negb (isFiniteNum ncols)
            || (nrows <=? 0) || (ncols <=? 0)) eqn:Ed; [exact I|].
  apply orb_false_iff in Ed as [Ed Ec]. apply orb_false_iff in Ed as [_ Er].
  apply Z.leb_gt in Er, Ec.
  destruct (Z.eqb_spec (Z.of_nat (length cards)) (nrows * ncols)) as [Hlen|]; [|exact I].
  cbn [negb]. destruct (forallb cardRe cards) eqn:Ecards; [|exact I]. cbn [negb].
  apply cardRe_Forall in Ecards.
  destruct (newBoard_ok nrows ncols cards) as (b & Hb & W & Hrows & Hcols & Hcells & Hrest);
    try lia.
  { intros k l _ Hl. rewrite Forall_forall in Ecards.
    apply Ecards. eapply list_elem_of_lookup_2, Hl. }
  rewrite Hb. exists header, cards. rewrite Hrows, Hcols.
  split; [reflexivity|]. split; [exact W|]. split; [exact Er|]. split; [exact Ec|].
  split; [exact Hlen|]. split; [|exact Hrest].
  intros q Hq. destruct (Hcells q Hq) as (l & Hl & Hcell). exists l.
  split; [exact Hl|]. split; [|exact Hcell].
  rewrite Forall_forall in Ecards. apply Ecards. eapply list_elem_of_lookup_2, Hl.
Qed.
(** ** Composing transformations *)

Lemma grid_ext (g g' : list (list (option Slot))) (n : Z) :
  length g = length g' ->
  Forall (fun rw => Z.of_nat (length rw) = n) g ->
  Forall (fun rw => Z.of_nat (length rw) = n) g' ->
  (forall i j, cellAt g i j = cellAt g' i j) ->
  g = g'.
Proof.
  intros Hlen F F' Hcells. apply list_eq. intros i.
  destruct (g !! i) as [rw|] eqn:E; destruct (g' !! i) as [rw'|] eqn:E'.
  - f_equal. rewrite Forall_forall in F, F'.
    pose proof (F rw (list_elem_of_lookup_2 _ _ _ E)) as L.
    pose proof (F' rw' (list_elem_of_lookup_2 _ _ _ E')) as L'.
    apply list_eq. intros j.
    destruct (rw !! j) as [cell|] eqn:C; destruct (rw' !! j) as [cell'|] eqn:C'.
    + f_equal. specialize (Hcells (Z.of_nat i) (Z.of_nat j)).
      unfold cellAt, gridRow, rowCell in Hcells.
      destruct (Z.ltb_spec (Z.of_nat i) 0); [lia|].
      destruct (Z.ltb_spec (Z.of_nat j) 0); [lia|].
      rewrite !Nat2Z.id, E, E', C, C' in Hcells. exact Hcells.
    + apply lookup_lt_Some in C. apply lookup_ge_None in C'. lia.
    + apply lookup_ge_None in C. apply lookup_lt_Some in C'. lia.
    + reflexivity.
  - apply lookup_lt_Some in E. apply lookup_ge_None in E'. lia.
  - apply lookup_ge_None in E. apply lookup_lt_Some in E'. lia.
  - reflexivity.
Qed.

(** Two well-formed boards that differ at most in labels and agree on
    every cell are the same board. *)
Lemma board_ext b b' :
  RI b -> RI b' -> LabelsOnly b b' -> (forall q, cellOf b' q = cellOf b q) -> b' = b.
Proof.
  intros (H1 & H2 & _) (H1' & H2' & _) (L1 & L2 & L3 & L4 & L5 & L6 & L7 & L8 & _) Hcells.
  assert (Hg : grid b' = grid b).
  { apply (grid_ext _ _ (cols b)).
    - lia.
    - rewrite <- L2. exact H2'.
    - exact H2.
    - intros i j. apply (Hcells (mkPos i j)). }
  destruct b, b'; simpl in *; congruence.
Qed.

Lemma LabelsOnly_map transform b : LabelsOnly b (snd (map transform b)).
Proof.
  unfold map. apply (keeps_bind (LabelsOnly b)); [| |apply LabelsOnly_refl].
  - apply keeps_readOnly, readOnly_groupByValue.
  - intros entries. destruct (snd (transformAll transform entries));
      [apply keeps_LabelsOnly_map_commit | apply keeps_throw].
Qed.

Lemma LabelsOnly_trans b0 b1 b2 : LabelsOnly b0 b1 -> LabelsOnly b1 b2 -> LabelsOnly b0 b2.
Proof.
  intros (A1 & A2 & A3 & A4 & A5 & A6 & A7 & A8 & A9) (B1 & B2 & B3 & B4 & B5 & B6 & B7 & B8 & B9).
  repeat split; try congruence; intros q; rewrite B9; apply A9.
Qed.

Lemma LabelsOnly_sym b0 b1 : LabelsOnly b0 b1 -> LabelsOnly b1 b0.
Proof.
  intros (A1 & A2 & A3 & A4 & A5 & A6 & A7 & A8 & A9).
  repeat split; try congruence; intros q; symmetry; apply A9.
Qed.

(** [map] with a transform that sends every label on the board to
    itself returns and leaves the board exactly as it was; and one [map]
    after another is the [map] of the composed transform, provided the
    labels the first one produces are valid: both give the same board. *)
Theorem map_composes f g b :
  RI b ->
  ((forall q s, cellOf b q = Some s -> f (label s) = label s) ->
   map f b = (Normal tt, b)) /\
  ((forall q s, cellOf b q = Some s ->
      invalidOut (f (label s)) = false /\ invalidOut (g (f (label s))) = false) ->
   exists b',
     map (fun l => g (f l)) b = (Normal tt, b') /\
     map g (after (map f) b) = (Normal tt, b')).
Proof.
  intros H. split.
  - intros Hfix.
    destruct (map_spec f b H) as (b' & Hmap & R' & Hcells).
    { intros q s Hs. rewrite (Hfix q s Hs), invalidOut_negb_cardRe.
      destruct H as (_ & _ & H3 & _). rewrite (proj1 (H3 q s Hs)). reflexivity. }
    rewrite Hmap. f_equal. apply board_ext; try assumption.
    + pose proof (LabelsOnly_map f b) as L. rewrite Hmap in L. exact L.
    + intros q. rewrite Hcells. destruct (cellOf b q) as [s|] eqn:Hs; [|reflexivity].
      simpl. unfold relabel. rewrite (Hfix q s Hs). destruct s; reflexivity.
  - intros Hvalid.
    destruct (map_spec f b H) as (b1 & Hmap1 & R1 & Hcells1).
    { intros q s Hs. apply (Hvalid q s Hs). }
    destruct (map_spec g b1 R1) as (b2 & Hmap2 & R2 & Hcells2).
    { intros q s1. rewrite Hcells1. destruct (cellOf b q) as [s|] eqn:Hs; [|discriminate].
      intros [= <-]. apply (Hvalid q s Hs). }
    destruct (map_spec (fun l => g (f l)) b H) as (b3 & Hmap3 & R3 & Hcells3).
    { intros q s Hs. apply (Hvalid q s Hs). }
    exists b3. split; [exact Hmap3|].
    unfold after. rewrite Hmap1. simpl. rewrite Hmap2. f_equal.
    symmetry. apply board_ext; try assumption.
    + apply (LabelsOnly_trans b2 b).
      * apply LabelsOnly_sym. apply (LabelsOnly_trans b b1).
        -- pose proof (LabelsOnly_map f b) as L. rewrite Hmap1 in L. exact L.
        -- pose proof (LabelsOnly_map g b1) as L. rewrite Hmap2 in L. exact L.
      * pose proof (LabelsOnly_map (fun l => g (f l)) b) as L. rewrite Hmap3 in L. exact L.
    + intros q. rewrite Hcells3, Hcells2, Hcells1.
      destruct (cellOf b q); reflexivity.
Qed.
(** ** [mapCards] *)

Lemma alterAt_id g i j f s : cellAt g i j = Some s -> f s = s -> alterAt g i j f = g.
Proof.
  unfold cellAt, gridRow, rowCell, alterAt. intros Hc Hf.
  destruct (Z.ltb_spec i 0); [discriminate|].
  destruct (g !! Z.to_nat i) as [rw|] eqn:E; [|discriminate].
  destruct (Z.ltb_spec j 0); [discriminate|].
  destruct (rw !! Z.to_nat j) as [cell|] eqn:C; [|discriminate]. subst cell. simpl.
  apply list_eq. intros i'. destruct (decide (Z.to_nat i = i')) as [<-|Hne].
  - rewrite list_lookup_alter_eq, E. simpl. f_equal.
    apply list_eq. intros j'. destruct (decide (Z.to_nat j = j')) as [<-|Hne'].
    + rewrite list_lookup_alter_eq, C. simpl. rewrite Hf. reflexivity.
    + rewrite list_lookup_alter_ne by assumption. reflexivity.
  - rewrite list_lookup_alter_ne by assumption. reflexivity.
Qed.

Lemma fst_commitStepChanged v st p :
  fst (commitStepChanged v st p) = commitStep v (fst st) p.
Proof.
  unfold commitStepChanged, commitStep.
  destruct (cellAt (fst st) (r p) (c p)) as [cell|] eqn:E; [|reflexivity].
  destruct (bool_decide (label cell <> v)) eqn:Eb; [reflexivity|].
  apply bool_decide_eq_false in Eb.
  assert (Hl : label cell = v) by (destruct (decide (label cell = v)); [assumption|contradiction]).
  symmetry. apply (alterAt_id _ _ _ _ cell E). unfold withLabel. rewrite <- Hl.
  destruct cell; reflexivity.
Qed.

Lemma fst_commitCellsChanged v st ps :
  fst (foldl (commitStepChanged v) st ps) =
  commitPure (fst st) (List.map (fun p => (p, v)) ps).
Proof.
  revert st. induction ps as [|p ps IH]; intros st; [reflexivity|].
  cbn [foldl List.map]. rewrite IH, fst_commitStepChanged. reflexivity.
Qed.

Lemma assignments_cons e entries mapping :
  assignments (e :: entries) mapping =
  match mapGet (fst e) mapping with
  | None => []
  | Some v => List.map (fun p => (p, v)) (snd e)
  end ++ assignments entries mapping.
Proof. reflexivity. Qed.

Lemma fst_commitEntriesChanged mapping st entries :
  fst (foldl (commitEntryChanged mapping) st entries) =
  commitPure (fst st) (assignments (effective entries mapping) mapping).
Proof.
  revert st. induction entries as [|e entries IH]; intros st; [reflexivity|].
  cbn [foldl]. rewrite IH. unfold effective. cbn [List.filter]. unfold commitEntryChanged.
  destruct (mapGet (fst e) mapping) as [v|] eqn:Em.
  - destruct (bool_decide (v = fst e)) eqn:Ev.
    + apply bool_decide_eq_true in Ev. subst v.
      rewrite bool_decide_eq_true_2 by reflexivity. reflexivity.
    + apply bool_decide_eq_false in Ev.
      rewrite bool_decide_eq_false_2 by congruence. cbn [negb].
      rewrite assignments_cons, Em. unfold commitPure at 2. rewrite foldl_app.
      rewrite fst_commitCellsChanged. reflexivity.
  - rewrite bool_decide_eq_false_2 by discriminate. cbn [negb].
    rewrite assignments_cons, Em. reflexivity.
Qed.

Lemma commitStepChanged_cases v st p :
  commitStepChanged v st p = st \/ snd (commitStepChanged v st p) = true.
Proof.
  unfold commitStepChanged. destruct (cellAt _ _ _) as [cell|]; [|auto].
  destruct (bool_decide _); auto.
Qed.

Lemma commitCellsChanged_cases v st ps :
  foldl (commitStepChanged v) st ps = st \/ snd (foldl (commitStepChanged v) st ps) = true.
Proof.
  revert st. induction ps as [|p ps IH]; intros st; [auto|].
  cbn [foldl]. destruct (IH (commitStepChanged v st p)) as [E|E]; [|auto].
  rewrite E. apply commitStepChanged_cases.
Qed.

Lemma commitStepChanged_true v st p : snd st = true -> snd (commitStepChanged v st p) = true.
Proof.
  intros H. unfold commitStepChanged. destruct (cellAt _ _ _) as [cell|]; [|exact H].
  destruct (bool_decide _); [reflexivity | exact H].
Qed.

Lemma commitCellsChanged_true v st ps :
  snd st = true -> snd (foldl (commitStepChanged v) st ps) = true.
Proof.
  revert st. induction ps as [|p ps IH]; intros st H; [exact H|].
  cbn [foldl]. apply IH, commitStepChanged_true, H.
Qed.

Lemma commitEntryChanged_cases mapping st e :
  commitEntryChanged mapping st e = st \/ snd (commitEntryChanged mapping st e) = true.
Proof.
  unfold commitEntryChanged. destruct (mapGet _ _) as [v|]; [|auto].
  destruct (bool_decide _); [auto|]. apply commitCellsChanged_cases.
Qed.

Lemma commitEntryChanged_true mapping st e :
  snd st = true -> snd (commitEntryChanged mapping st e) = true.
Proof.
  intros H. unfold commitEntryChanged. destruct (mapGet _ _) as [v|]; [|exact H].
  destruct (bool_decide _); [exact H|]. apply commitCellsChanged_true, H.
Qed.

Lemma commitEntriesChanged_true mapping st entries :
  snd st = true -> snd (foldl (commitEntryChanged mapping) st entries) = true.
Proof.
  revert st. induction entries as [|e entries IH]; intros st H; [exact H|].
  cbn [foldl]. apply IH, commitEntryChanged_true, H.
Qed.

(** Nothing is written, and the flag stays down, when the mapping
    changes no label. *)
Lemma commitEntriesChanged_none mapping st entries :
  (forall e v, In e entries -> mapGet (fst e) mapping = Some v -> v = fst e) ->
  foldl (commitEntryChanged mapping) st entries = st.
Proof.
  induction entries as [|e entries IH]; intros H; [reflexivity|].
  cbn [foldl].
  assert (Hstep : commitEntryChanged mapping st e = st).
  { unfold commitEntryChanged.
    destruct (mapGet (fst e) mapping) as [v|] eqn:Em; [|reflexivity].
    rewrite bool_decide_eq_true_2; [reflexivity|]. apply (H e v); simpl; auto. }
  rewrite Hstep. apply IH. intros e' v He'. apply H. simpl; auto.
Qed.

(** The flag goes up as soon as an entry whose label changes is
    committed on the untouched grid. *)
Lemma commitEntriesChanged_some mapping g0 st entries e v p s :
  fst st = g0 \/ snd st = true ->
  In e entries -> mapGet (fst e) mapping = Some v -> v <> fst e ->
  In p (snd e) ->
  (forall p', In p' (snd e) -> exists s', cellAt g0 (r p') (c p') = Some s' /\ label s' = fst e) ->
  cellAt g0 (r p) (c p) = Some s ->
  snd (foldl (commitEntryChanged mapping) st entries) = true.
Proof.
  intros Hst He Hm Hv Hp Hcells Hs. revert st Hst.
  induction entries as [|e0 entries IH]; intros st Hst; [contradiction|].
  cbn [foldl]. destruct Hst as [Hg|Ht].
  2: { apply commitEntriesChanged_true, commitEntryChanged_true, Ht. }
  destruct He as [->|He].
  - apply commitEntriesChanged_true. unfold commitEntryChanged. rewrite Hm.
    rewrite bool_decide_eq_false_2 by assumption.
    destruct (snd e) as [|p0 ps] eqn:Eps; [contradiction|].
    cbn [foldl]. apply commitCellsChanged_true.
    destruct (Hcells p0) as (s0 & Hs0 & Hl0); [simpl; auto|].
    unfold commitStepChanged. rewrite Hg, Hs0.
    rewrite bool_decide_eq_true_2 by congruence. reflexivity.
  - apply (IH He).
    destruct (commitEntryChanged_cases mapping st e0) as [E|E]; [rewrite E; auto | auto].
Qed.
Lemma set_grid_same b : set_grid (grid b) b = b.
Proof. destruct b; reflexivity. Qed.

Lemma commitCellChanged_run v ch p b :
  is_Some (gridRow (grid b) (r p)) ->
  commitCellChanged v ch p b =
  (Normal (snd (commitStepChanged v (grid b, ch) p)),
   set_grid (fst (commitStepChanged v (grid b, ch) p)) b).
Proof.
  intros [rw Hrw]. unfold commitCellChanged. rewrite bind_run, getCell_run, Hrw.
  cbv beta iota. unfold commitStepChanged, cellAt. cbn [fst]. rewrite Hrw.
  destruct (rowCell rw (c p)) as [cell|].
  - destruct (bool_decide (label cell <> v)); [reflexivity|].
    cbn [fst snd]. rewrite set_grid_same. reflexivity.
  - cbn [fst snd]. rewrite set_grid_same. reflexivity.
Qed.

Lemma length_fst_commitCellsChanged v st ps :
  length (fst (foldl (commitStepChanged v) st ps)) = length (fst st).
Proof. rewrite fst_commitCellsChanged. apply length_commitPure. Qed.

Lemma commitCellsChanged_run v ps ch b :
  (forall p, In p ps -> is_Some (gridRow (grid b) (r p))) ->
  foldM ps (commitCellChanged v) ch b =
  (Normal (snd (foldl (commitStepChanged v) (grid b, ch) ps)),
   set_grid (fst (foldl (commitStepChanged v) (grid b, ch) ps)) b).
Proof.
  revert ch b. induction ps as [|p ps IH]; intros ch b Hrows.
  - cbn [foldM foldl fst snd]. rewrite set_grid_same. reflexivity.
  - cbn [foldM foldl]. rewrite bind_run, commitCellChanged_run by (apply Hrows; simpl; auto).
    cbv beta iota. rewrite IH.
    + destruct (commitStepChanged v (grid b, ch) p) as [g1 ch1]. reflexivity.
    + intros q Hq. cbn [grid set_grid].
      eapply gridRow_length_eq; [|apply Hrows; simpl; auto].
      rewrite fst_commitStepChanged. apply length_commitStep.
Qed.

Lemma length_fst_commitEntryChanged mapping st e :
  length (fst (commitEntryChanged mapping st e)) = length (fst st).
Proof.
  unfold commitEntryChanged. destruct (mapGet _ _) as [v|]; [|reflexivity].
  destruct (bool_decide _); [reflexivity|]. apply length_fst_commitCellsChanged.
Qed.

Lemma commitGroupsChanged_run entries mapping ch b :
  (forall e p, In e entries -> In p (snd e) -> is_Some (gridRow (grid b) (r p))) ->
  foldM entries (fun changed entry =>
    match mapGet (fst entry) mapping with
    | None => ret changed
    | Some newVal =>
        if bool_decide (newVal = fst entry) then ret changed
        else foldM (snd entry) (commitCellChanged newVal) changed
    end) ch b =
  (Normal (snd (foldl (commitEntryChanged mapping) (grid b, ch) entries)),
   set_grid (fst (foldl (commitEntryChanged mapping) (grid b, ch) entries)) b).
Proof.
  revert ch b. induction entries as [|e entries IH]; intros ch b Hrows.
  - cbn [foldM foldl fst snd]. rewrite set_grid_same. reflexivity.
  - cbn [foldM foldl]. rewrite bind_run.
    assert (Hstep :
      (match mapGet (fst e) mapping with
       | None => ret ch
       | Some newVal =>
           if bool_decide (newVal = fst e) then ret ch
           else foldM (snd e) (commitCellChanged newVal) ch
       end) b =
      (Normal (snd (commitEntryChanged mapping (grid b, ch) e)),
       set_grid (fst (commitEntryChanged mapping (grid b, ch) e)) b)).
    { unfold commitEntryChanged. destruct (mapGet (fst e) mapping) as [v|].
      - destruct (bool_decide (v = fst e)).
        + cbn [fst snd]. rewrite set_grid_same. reflexivity.
        + apply commitCellsChanged_run. intros p Hp. apply (Hrows e p); simpl; auto.
      - cbn [fst snd]. rewrite set_grid_same. reflexivity. }
    rewrite Hstep. cbv beta iota. rewrite IH.
    + destruct (commitEntryChanged mapping (grid b, ch) e) as [g1 ch1]. reflexivity.
    + intros e' p He' Hp. cbn [grid set_grid].
      eapply gridRow_length_eq; [|apply (Hrows e' p); simpl; auto].
      apply (length_fst_commitEntryChanged mapping (grid b, ch) e).
Qed.

Lemma In_effective e entries mapping :
  In e (effective entries mapping) <->
  In e entries /\ mapGet (fst e) mapping <> Some (fst e).
Proof.
  unfold effective. rewrite filter_In, negb_true_iff. split.
  - intros [He Hb]. apply bool_decide_eq_false in Hb. auto.
  - intros [He Hb]. split; [exact He|]. apply bool_decide_eq_false_2, Hb.
Qed.

(** The grid [mapCards] leaves is the grid [map] leaves. *)
Lemma mapCards_cells b transform rs q :
  RI b -> snd (transformAll transform (groups b)) = Normal rs ->
  cellAt (fst (commitPureChanged (grid b) (groups b) (newMap rs))) (r q) (c q) =
  relabel transform <$> cellOf b q.
Proof.
  intros H Hrs. unfold commitPureChanged. rewrite fst_commitEntriesChanged. cbn [fst].
  pose proof (transformAll_Normal _ _ _ Hrs) as Ers.
  destruct (Grouped_groups b) as (G1 & G2 & G3 & _).
  assert (Hsub : forall p v, (p, v) ∈ assignments (effective (groups b) (newMap rs)) (newMap rs) ->
                             (p, v) ∈ assignments (groups b) (newMap rs)).
  { intros p v Hin. apply elem_assignments in Hin as (e & He & Hp & Hm).
    apply elem_assignments. exists e. split; [|auto].
    apply list_elem_of_In. apply list_elem_of_In, In_effective in He. apply He. }
  destruct (cellOf b q) as [s|] eqn:Hc.
  - rewrite (cellAt_commitPure _ _ q (transform (label s))).
    2: { intros v Hv. destruct (writes_sound b transform rs q v H Hrs (Hsub _ _ Hv))
           as (s' & Hs' & ->). congruence. }
    fold (cellOf b q). rewrite Hc.
    destruct (decide _) as [Hin|Hnin]; [reflexivity|].
    simpl. f_equal.
    assert (Hfix : transform (label s) = label s).
    { assert (Hq : q ∈ positionsOf b)
        by (apply elem_positionsOf; eapply occupied_within; eassumption).
      destruct (G3 q s Hq Hc) as (l & Hl & Hql).
      assert (Hm : mapGet (label s) (newMap rs) = Some (transform (label s))).
      { rewrite Ers, mapGet_results. rewrite decide_True; [reflexivity|].
        apply list_elem_of_fmap. exists (label s, l).
        split; [reflexivity | apply mapGet_elem, Hl]. }
      destruct (decide (transform (label s) = label s)) as [E|E]; [exact E|].
      exfalso. apply Hnin. apply list_elem_of_fmap. exists (q, transform (label s)).
      split; [reflexivity|]. apply elem_assignments. exists (label s, l).
      split; [|split; [exact Hql | exact Hm]].
      apply list_elem_of_In, In_effective. split.
      - apply list_elem_of_In, mapGet_elem, Hl.
      - simpl. rewrite Hm. congruence. }
    unfold relabel. rewrite Hfix. destruct s; reflexivity.
  - rewrite (cellAt_commitPure _ _ q EmptyString).
    + rewrite decide_False; [exact Hc|].
      intros Hin. apply list_elem_of_fmap in Hin as ([q' v] & -> & Hin). simpl in Hc.
      destruct (writes_sound b transform rs q' v H Hrs (Hsub _ _ Hin)) as (s' & Hs' & _).
      congruence.
    + intros v Hv.
      destruct (writes_sound b transform rs q v H Hrs (Hsub _ _ Hv)) as (s' & Hs' & _).
      congruence.
Qed.

Lemma mapCards_grid b transform rs :
  RI b -> snd (transformAll transform (groups b)) = Normal rs ->
  fst (commitPureChanged (grid b) (groups b) (newMap rs)) = grid (committed b rs).
Proof.
  intros H Hrs. pose proof H as (H1 & H2 & _).
  apply (grid_ext _ _ (cols b)).
  - unfold commitPureChanged. rewrite fst_commitEntriesChanged. cbn [fst]. simpl.
    rewrite !length_commitPure. reflexivity.
  - unfold commitPureChanged. rewrite fst_commitEntriesChanged. cbn [fst].
    apply Forall_length_commitPure, H2.
  - simpl. apply Forall_length_commitPure, H2.
  - intros i j.
    pose proof (mapCards_cells b transform rs (mkPos i j) H Hrs) as E1.
    pose proof (cellOf_committed transform b rs (mkPos i j) H Hrs) as E2.
    unfold cellOf in E2 at 1. cbn [r c] in E1, E2. congruence.
Qed.
Lemma valid_results transform b :
  RI b ->
  (forall q s, cellOf b q = Some s -> invalidOut (transform (label s)) = false) ->
  snd (transformAll transform (groups b)) =
  Normal (List.map (fun e => (fst e, transform (fst e))) (groups b)).
Proof.
  intros H Hvalid. rewrite transformAll_result.
  replace (forallb _ (groups b)) with true; [reflexivity|].
  symmetry. apply forallb_forall. intros [k l] He. simpl.
  destruct (Grouped_groups b) as (_ & _ & _ & G4).
  destruct (G4 k) as (q & s & _ & Hs & <-).
  { apply list_elem_of_fmap. exists (k, l). split; [reflexivity | apply list_elem_of_In, He]. }
  rewrite (Hvalid q s Hs). reflexivity.
Qed.

Lemma mapCards_run player transform b rs :
  RI b -> snd (transformAll transform (groups b)) = Normal rs ->
  mapCards player transform b =
  (Normal tt, if snd (commitPureChanged (grid b) (groups b) (newMap rs))
              then notifyB (committed b rs) else committed b rs).
Proof.
  intros H Hrs.
  pose proof (RI_committed transform b rs H Hrs) as R.
  pose proof (mapCards_grid b transform rs H Hrs) as Hgrid.
  assert (Hcommit : commitGroupsChanged (groups b) (newMap rs) b =
                    (Normal (snd (commitPureChanged (grid b) (groups b) (newMap rs))),
                     committed b rs)).
  { unfold commitGroupsChanged. rewrite commitGroupsChanged_run.
    - fold (commitPureChanged (grid b) (groups b) (newMap rs)). rewrite Hgrid.
      unfold committed. reflexivity.
    - intros e p He Hp. eapply groups_rows; eassumption. }
  unfold mapCards. rewrite bind_run, groupByValue_run by assumption. cbv beta iota.
  rewrite Hrs. unfold mapCards_commit. rewrite bind_run, Hcommit. cbv beta iota.
  destruct (snd (commitPureChanged _ _ _)).
  - rewrite bind_run, notifyChange_run. cbv beta iota.
    apply checkRep_ok, RI_notifyB, R.
  - rewrite bind_run. unfold ret at 1. cbv beta iota. apply checkRep_ok, R.
Qed.

(** [mapCards] with a transform whose results are all valid returns,
    and leaves the grid [map] leaves: every card carries the transform
    of its label, and the players, the pending outcomes and the wait
    queues are as before.  It resolves the watchers when the label of
    some card changed; when the transform sends every label on the
    board to itself, the board is exactly as it was and no watcher is
    resolved. *)
Theorem mapCards_notifies_only_on_change player transform b :
  RI b ->
  (forall q s, cellOf b q = Some s -> invalidOut (transform (label s)) = false) ->
  exists b',
    mapCards player transform b = (Normal tt, b') /\
    grid b' = grid (after (map transform) b) /\
    (forall q, cellOf b' q = relabel transform <$> cellOf b q) /\
    firstSelection b' = firstSelection b /\ pending b' = pending b /\
    waitQueues b' = waitQueues b /\
    (((exists q s, cellOf b q = Some s /\ transform (label s) <> label s) /\
      watchers b' = [] /\ resolved b' = resolved b ++ watchers b) \/
     ((forall q s, cellOf b q = Some s -> transform (label s) = label s) /\ b' = b)).
Proof.
  intros H Hvalid.
  pose proof (valid_results transform b H Hvalid) as Hrs.
  set (rs := List.map (fun e => (fst e, transform (fst e))) (groups b)) in *.
  pose proof (RI_committed transform b rs H Hrs) as R.
  pose proof (mapCards_grid b transform rs H Hrs) as Hgrid.
  destruct (Grouped_groups b) as (G1 & G2 & G3 & G4).
  assert (Hmap : map transform b = (Normal tt, committed b rs)).
  { rewrite map_run, Hrs by assumption. rewrite (checkRep_ok _ R). reflexivity. }
  pose proof (mapCards_run player transform b rs H Hrs) as Hrun.
  eexists. split; [exact Hrun|].
  assert (Hm : forall k l, mapGet k (groups b) = Some l ->
                 mapGet k (newMap rs) = Some (transform k)).
  { intros k l Hl. unfold rs. rewrite mapGet_results. rewrite decide_True; [reflexivity|].
    apply list_elem_of_fmap. exists (k, l). split; [reflexivity | apply mapGet_elem, Hl]. }
  destruct (existsb (fun e => negb (bool_decide (transform (fst e) = fst e))) (groups b))
    eqn:Etest.
  - apply existsb_exists in Etest as ([k l] & He & Hk). simpl in Hk.
    apply negb_true_iff, bool_decide_eq_false in Hk.
    assert (Hl : mapGet k (groups b) = Some l)
      by (apply elem_mapGet; [exact G1 | apply list_elem_of_In, He]).
    destruct (G4 k) as (q & s & Hq & Hs & Hlab).
    { apply list_elem_of_fmap. exists (k, l). split; [reflexivity | apply list_elem_of_In, He]. }
    destruct (G3 q s Hq Hs) as (l' & Hl' & Hql). rewrite Hlab, Hl in Hl'.
    inversion Hl'; subst l'.
    assert (Hflag : snd (commitPureChanged (grid b) (groups b) (newMap rs)) = true).
    { unfold commitPureChanged.
      apply (commitEntriesChanged_some (newMap rs) (grid b) (grid b, false) (groups b)
               (k, l) (transform k) q s).
      - left. reflexivity.
      - exact He.
      - apply (Hm k l Hl).
      - exact Hk.
      - apply list_elem_of_In, Hql.
      - intros p' Hp'. apply list_elem_of_In in Hp'.
        destruct (G2 k l p' Hl Hp') as [_ Hs']. exact Hs'.
      - exact Hs. }
    rewrite Hflag. unfold after. rewrite Hmap. cbn [snd].
    split; [reflexivity|]. split.
    { intros q0. change (cellOf (notifyB (committed b rs)) q0) with (cellOf (committed b rs) q0).
      apply cellOf_committed; assumption. }
    split; [reflexivity|]. split; [reflexivity|]. split; [reflexivity|].
    left. split; [|split; reflexivity].
    exists q, s. split; [exact Hs|]. rewrite Hlab. exact Hk.
  - assert (Hfix : forall q s, cellOf b q = Some s -> transform (label s) = label s).
    { intros q s Hs.
      assert (Hq : q ∈ positionsOf b)
        by (apply elem_positionsOf; eapply occupied_within; eassumption).
      destruct (G3 q s Hq Hs) as (l & Hl & _).
      destruct (decide (transform (label s) = label s)) as [E|E]; [exact E|].
      exfalso. assert (Ht : existsb (fun e => negb (bool_decide (transform (fst e) = fst e)))
                              (groups b) = true); [|congruence].
      apply existsb_exists. exists (label s, l).
      split; [apply list_elem_of_In, mapGet_elem, Hl|].
      simpl. apply negb_true_iff, bool_decide_eq_false_2, E. }
    assert (Hnone : commitPureChanged (grid b) (groups b) (newMap rs) = (grid b, false)).
    { apply commitEntriesChanged_none. intros [k l] v He Hv. simpl in *.
      assert (Hl : mapGet k (groups b) = Some l)
        by (apply elem_mapGet; [exact G1 | apply list_elem_of_In, He]).
      rewrite (Hm k l Hl) in Hv. inversion Hv; subst v.
      destruct (G4 k) as (q & s & _ & Hs & <-).
      { apply list_elem_of_fmap. exists (k, l). split; [reflexivity | apply list_elem_of_In, He]. }
      apply (Hfix q s Hs). }
    assert (Hsame : committed b rs = b).
    { pose proof Hgrid as Hg. rewrite Hnone in Hg. cbn [fst] in Hg.
      unfold committed in *. cbn [grid set_grid] in Hg. rewrite <- Hg. apply set_grid_same. }
    rewrite Hnone. cbn [snd]. unfold after. rewrite Hmap. cbn [snd]. rewrite Hsame.
    split; [reflexivity|]. split.
    { intros q0. destruct (cellOf b q0) as [s|] eqn:Hs; [|reflexivity].
      simpl. unfold relabel. rewrite (Hfix q0 s Hs). destruct s; reflexivity. }
    split; [reflexivity|]. split; [reflexivity|]. split; [reflexivity|].
    right. split; [exact Hfix | reflexivity].
Qed.
(** ** The [flip] command *)

Lemma firstSelection_settleB p b : firstSelection (settleB p b) = firstSelection b.
Proof.
  unfold settleB. destruct (pending b !! p) as [[[a b'|first second]|]|]; try reflexivity.
  - simpl. rewrite !firstSelection_wakeNextB. reflexivity.
  - cbv zeta. destruct (flipDownB_frame first b) as (_ & F & _).
    destruct (flipDownB_frame second (flipDownB first b)) as (_ & G & _).
    destruct (_ || _); simpl; congruence.
Qed.

Lemma loop_selection pos p b :
  RI b ->
  firstSelection (snd (flipFirstAsync_loop pos p b)) =
  match fst (flipFirstAsync_loop pos p b) with
  | Normal Done => <[p := pos]> (firstSelection b)
  | _ => firstSelection b
  end.
Proof.
  intros R. unfold flipFirstAsync_loop. rewrite bind_run.
  destruct (slotAt pos b) as [[slot|e] b1] eqn:Es.
  2: { apply readOnly_eq in Es; [subst b1; reflexivity | apply readOnly_slotAt]. }
  apply slotAt_cellOf in Es as (-> & Hw & Hc).
  destruct slot as [s|]; [|reflexivity].
  destruct (faceUp s) eqn:Eu; cbn [negb].
  - destruct (bool_decide (controller s = None) || bool_decide (controller s = Some p)).
    + mrun. rewrite checkRep_ok; [reflexivity|].
      apply RI_set_firstSelection. eapply RI_control; eassumption.
    + rewrite bind_run, enqueueAndWait_run. reflexivity.
  - mrun. rewrite checkRep_ok; [reflexivity|].
    apply RI_set_firstSelection, RI_notifyB.
    apply (RI_control (set_grid (alterAt (grid b) (r pos) (c pos) (withFaceUp true)) b)
                      pos p (withFaceUp true s)).
    + apply RI_turnUp, R.
    + cells. rewrite decide_True by reflexivity. rewrite Hc. reflexivity.
    + reflexivity.
Qed.

Lemma flipFirstAsync_selection pos p b :
  RI b ->
  firstSelection (snd (flipFirstAsync pos p b)) =
  match fst (flipFirstAsync pos p b) with
  | Normal Done => <[p := pos]> (firstSelection b)
  | _ => firstSelection b
  end.
Proof.
  intros H. destruct (settle_run p b H) as (Hs & R & _).
  unfold flipFirstAsync. rewrite bind_run, Hs. cbv beta iota.
  rewrite (loop_selection pos p _ R), firstSelection_settleB. reflexivity.
Qed.

Lemma firstSelection_releaseB p first b :
  firstSelection (releaseB p first b) = delete p (firstSelection b).
Proof.
  unfold releaseB. destruct (cellOf b first); simpl; [|reflexivity].
  rewrite firstSelection_wakeNextB. reflexivity.
Qed.

Lemma flipSecond_clears pos p b first s1 :
  RI b -> FirstHeld b ->
  firstSelection b !! p = Some first -> cellOf b first = Some s1 ->
  firstSelection (snd (flipSecond pos p b)) = delete p (firstSelection b).
Proof.
  intros H HF Hf Hc1.
  assert (Hwf : withinB b first = true) by (eapply occupied_within; eassumption).
  destruct (flipSecond pos p b) as [[[]|e] b'] eqn:E.
  2: { pose proof (flipSecond_result b pos p first s1 H HF Hf Hwf Hc1) as Hres.
       rewrite E in Hres. destruct Hres as [_ ->]. apply firstSelection_releaseB. }
  revert E. unfold flipSecond. rewrite bind_run. unfold get at 1. cbv beta iota. rewrite Hf.
  rewrite bind_run. unfold within at 1. rewrite bind_run. unfold get at 1. cbv beta iota.
  unfold ret at 1. cbv beta iota.
  assert (Hs2 : (if withinB b pos then getCell (r pos) (c pos) else ret None) b =
                (Normal (if withinB b pos then cellOf b pos else None), b)).
  { destruct (withinB b pos) eqn:Hw; [apply getCell_within; assumption | reflexivity]. }
  rewrite bind_run, Hs2. cbv beta iota.
  destruct (if withinB b pos then cellOf b pos else None) as [s2|] eqn:Es2.
  2: { rewrite bind_run, (relinquish_run p first b) by assumption. discriminate. }
  assert (Hw : withinB b pos = true) by (destruct (withinB b pos); [reflexivity | discriminate]).
  rewrite Hw in Es2. rename Es2 into Hc2.
  destruct (faceUp s2 && bool_decide (controller s2 <> None)) eqn:Eb.
  { rewrite bind_run, (relinquish_run p first b) by assumption. discriminate. }
  assert (Hne : first <> pos).
  { intros ->. rewrite Hc1 in Hc2. inversion Hc2; subst s2.
    destruct (HF p pos s1 Hf Hc1) as [Hu Hctl]. rewrite Hu, Hctl in Eb.
    rewrite bool_decide_eq_true_2 in Eb by discriminate. discriminate. }
  cbv zeta. mrun.
  destruct (negb (faceUp s2)) eqn:Eneg; mrun;
    (rewrite slotAt_within;
     [ cbv beta iota; cells; rewrite ?decide_False by congruence; rewrite Hc1; cbv beta iota
     | first [apply RI_turnUp, H | exact H]
     | autorewrite with cell; exact Hwf ]);
    destruct (bool_decide (label s1 = label s2)); mrun; mcheck;
    intros [= <-]; cells; reflexivity.
Qed.
(** The [flip] command alternates between the two cards of a turn.
    For a player with a first selection (a card still on the board) it
    is a second flip: it never parks, and whether it succeeds or fails
    the selection is cleared, so that the player's next flip is a first
    flip.  For a player without one it is a waiting first flip: the
    position becomes the player's first selection exactly when the call
    completes, and when the call fails or parks the selections are as
    before.  No other player's selection changes. *)
Theorem flip_alternates_first_and_second b p row column :
  RI b -> FirstHeld b ->
  (forall first, firstSelection b !! p = Some first -> is_Some (cellOf b first)) ->
  match firstSelection b !! p with
  | Some _ =>
      commands.flip p row column b = flipSecondAsync (mkPos row column) p b /\
      (forall d, fst (commands.flip p row column b) <> Normal (Await d)) /\
      firstSelection (after (commands.flip p row column) b) = delete p (firstSelection b)
  | None =>
      commands.flip p row column b = flipFirstAsync (mkPos row column) p b /\
      firstSelection (after (commands.flip p row column) b) =
        match fst (commands.flip p row column b) with
        | Normal Done => <[p := mkPos row column]> (firstSelection b)
        | _ => firstSelection b
        end
  end.
Proof.
  intros H HF Hheld.
  assert (Hflip : commands.flip p row column b =
                  if bool_decide (is_Some (firstSelection b !! p))
                  then flipSecondAsync (mkPos row column) p b
                  else flipFirstAsync (mkPos row column) p b).
  { unfold commands.flip, hasFirstSelection. cbv zeta. rewrite !bind_run.
    unfold get at 1. cbv beta iota. unfold ret at 1. cbv beta iota.
    destruct (bool_decide _); reflexivity. }
  unfold after. rewrite Hflip. clear Hflip.
  destruct (firstSelection b !! p) as [first|] eqn:Hf.
  - rewrite bool_decide_eq_true_2 by eauto.
    destruct (Hheld first eq_refl) as [s1 Hc1].
    split; [reflexivity|]. split.
    + intros d. unfold flipSecondAsync. rewrite bind_run.
      destruct (flipSecond (mkPos row column) p b) as [[[]|e] b']; simpl; discriminate.
    + unfold flipSecondAsync. rewrite bind_run.
      pose proof (flipSecond_clears (mkPos row column) p b first s1 H HF Hf Hc1) as Hclear.
      destruct (flipSecond (mkPos row column) p b) as [[[]|e] b']; exact Hclear.
  - rewrite bool_decide_eq_false_2 by (intros [x Hx]; discriminate).
    split; [reflexivity|]. apply flipFirstAsync_selection, H.
Qed.
(** ** The errors of the methods *)

(** On a well-formed board the methods fail only by the rules of the
    game and by the validation of transformed labels.  The cleanup and
    the snapshot never fail; a first flip fails only as out of bounds,
    on an empty space or, in the plain variant, on a card another
    player controls; a second flip, for a player whose first card is
    still on the board or who has none, fails only for lack of a first
    card, on an empty space or on a controlled card; [map] and
    [mapCards] fail only on an invalid transformed label.  In
    particular the invariant check that ends each method never throws. *)
Theorem methods_fail_only_by_the_rules b :
  RI b -> FirstHeld b ->
  (forall p, fst (settleBeforeNewFirstMove p b) = Normal tt) /\
  (forall p, exists text, fst (snapshot p b) = Normal text) /\
  (forall pos p e, fst (flipFirst pos p b) = Thrown e ->
     e = OutOfBounds \/ e = EmptySpace \/ e = Contested) /\
  (forall pos p e, fst (flipFirstAsync pos p b) = Thrown e ->
     e = OutOfBounds \/ e = EmptySpace) /\
  (forall pos p e,
     (forall first, firstSelection b !! p = Some first -> is_Some (cellOf b first)) ->
     fst (flipSecond pos p b) = Thrown e ->
     e = NoFirst \/ e = EmptyTarget \/ e = SecondContested) /\
  (forall transform e, fst (map transform b) = Thrown e -> e = InvalidLabel) /\
  (forall p transform e, fst (mapCards p transform b) = Thrown e -> e = InvalidLabel).
Proof.
  intros H HF. split; [|split; [|split; [|split; [|split; [|split]]]]].
  - intros p. destruct (settle_run p b H) as (-> & _). reflexivity.
  - intros p. rewrite snapshot_run by assumption. eauto.
  - intros pos p e He. destruct (flipFirst_result pos p b H) as [[b' E]|[e' [E Hc]]];
      rewrite E in He; simpl in He; [discriminate|]. inversion He; subst e'.
    destruct Hc as [[-> _]|[[-> _]|[-> _]]]; auto.
  - intros pos p e He.
    destruct (flipFirstAsync_result pos p b H) as [(st & b' & E)|[e' [E Hc]]];
      rewrite E in He; simpl in He; [discriminate|]. inversion He; subst e'.
    destruct Hc as [[-> _]|[-> _]]; auto.
  - intros pos p e Hheld He.
    destruct (firstSelection b !! p) as [first|] eqn:Hf.
    + destruct (Hheld first eq_refl) as [s1 Hc1].
      assert (Hwf : withinB b first = true) by (eapply occupied_within; eassumption).
      pose proof (flipSecond_result b pos p first s1 H HF Hf Hwf Hc1) as Hres.
      destruct (flipSecond pos p b) as [[[]|e'] b']; simpl in He; [discriminate|].
      inversion He; subst e'. destruct Hres as [[-> | ->] _]; auto.
    + unfold flipSecond in He. rewrite bind_run in He. unfold get at 1 in He.
      cbv beta iota in He. rewrite Hf in He. inversion He. auto.
  - intros transform e He. rewrite map_run in He by assumption.
    pose proof (transformAll_result transform (groups b)) as Hres.
    destruct (snd (transformAll transform (groups b))) as [rs|e'] eqn:Hrs.
    + rewrite (checkRep_ok _ (RI_committed transform b rs H Hrs)) in He. discriminate.
    + simpl in He. inversion He; subst e'.
      destruct (forallb _ (groups b)); [discriminate|]. inversion Hres. reflexivity.
  - intros p transform e He.
    pose proof (transformAll_result transform (groups b)) as Hres.
    destruct (snd (transformAll transform (groups b))) as [rs|e'] eqn:Hrs.
    + rewrite (mapCards_run p transform b rs H Hrs) in He. discriminate.
    + unfold mapCards in He. rewrite bind_run, groupByValue_run in He by assumption.
      cbv beta iota in He. rewrite Hrs in He. simpl in He. inversion He; subst e'.
      destruct (forallb _ (groups b)); [discriminate|]. inversion Hres. reflexivity.
Qed.
(** ** Instances of the further properties *)

Lemma WellFormed_aliceAndBob : WellFormed aliceAndBob.
Proof. split; [exact RI_aliceAndBob | exact (proj2 (reachable_Inv _ reachable_aliceAndBob))]. Qed.

Lemma reachable_aliceFirst : reachable aliceFirst.
Proof.
  unfold aliceFirst, after. apply reach_flipFirst.
  apply (reach_new 3 3 ["u"; "u"; "a"; "b"; "b"; "c"; "c"; "a"; "x"]).
  vm_compute. reflexivity.
Qed.

Lemma RI_twoWaiters : RI twoWaiters.
Proof. apply checkRep_RI. vm_compute. reflexivity. Qed.

Lemma RI_pairRemoved : RI pairRemoved.
Proof. apply checkRep_RI. vm_compute. reflexivity. Qed.

Lemma RI_aliceMismatched : RI aliceMismatched.
Proof. apply checkRep_RI. vm_compute. reflexivity. Qed.

Lemma RI_charlieFirst : RI charlieFirst.
Proof. apply checkRep_RI. vm_compute. reflexivity. Qed.

Lemma within_3x3 (i j : Z) :
  0 <= i < 3 /\ 0 <= j < 3 ->
  (i = 0 \/ i = 1 \/ i = 2) /\ (j = 0 \/ j = 1 \/ j = 2).
Proof. lia. Qed.

Lemma snapshot_lists_every_cell_witness :
  snapshot "alice" aliceFirst =
    (Normal (String.concat newline (view "alice" aliceFirst) +:+ newline), aliceFirst) /\
  Z.of_nat (length (view "alice" aliceFirst)) = 1 + rows aliceFirst * cols aliceFirst /\
  view "alice" aliceFirst !! 0%nat =
    Some (pretty (rows aliceFirst) +:+ "x" +:+ pretty (cols aliceFirst)) /\
  forall q, withinB aliceFirst q = true ->
    view "alice" aliceFirst !! Z.to_nat (1 + r q * cols aliceFirst + c q) =
    Some (spot "alice" (cellOf aliceFirst q)).
Proof. apply (snapshot_lists_every_cell "alice" aliceFirst). exact RI_aliceFirst. Defined.

Lemma snapshot_shows_only_what_is_visible_witness :
  fst (snapshot "bob" aliceFirst) = fst (snapshot "bob" charlieFirst).
Proof.
  apply (snapshot_shows_only_what_is_visible "bob" aliceFirst charlieFirst).
  - exact RI_aliceFirst.
  - exact RI_charlieFirst.
  - reflexivity.
  - reflexivity.
  - intros [i j] Hw. apply withinB_bounds in Hw. simpl in Hw.
    change (rows aliceFirst) with 3 in Hw. change (cols aliceFirst) with 3 in Hw.
    destruct (within_3x3 i j Hw) as [[-> | [-> | ->]] [-> | [-> | ->]]];
      vm_compute; repeat split; intros E; discriminate E.
Defined.

Lemma each_deferred_is_resolved_at_most_once_witness :
  NoDup (resolved pairRemoved) /\ NoDup (watchers pairRemoved) /\
  (forall d, d ∈ watchers pairRemoved -> d ∉ resolved pairRemoved) /\
  (forall p, NoDup (queueOf pairRemoved p)) /\
  (forall p d, d ∈ queueOf pairRemoved p ->
     (d ∉ resolved pairRemoved) /\ (d ∉ watchers pairRemoved)) /\
  (forall p p' d, d ∈ queueOf pairRemoved p -> d ∈ queueOf pairRemoved p' -> key p = key p').
Proof.
  apply (each_deferred_is_resolved_at_most_once pairRemoved).
  unfold pairRemoved, after. apply reach_settle. exact reachable_twoWaiters.
Defined.

Lemma methods_keep_the_board_well_formed_witness :
  WellFormed (after (flipSecond (mkPos 0 0) "bob") aliceAndBob) /\
  WellFormed (after (flipFirstAsync (mkPos 0 0) "charlie") aliceAndBob).
Proof.
  pose proof (methods_keep_the_board_well_formed aliceAndBob WellFormed_aliceAndBob)
    as (_ & Hflips & _).
  split.
  - apply (Hflips (mkPos 0 0) "bob").
  - apply (Hflips (mkPos 0 0) "charlie").
Defined.

Lemma flipFirst_takes_a_free_card_witness :
  exists b',
    flipFirst (mkPos 1 1) "bob" aliceFirst = (Normal tt, b') /\
    flipFirstAsync (mkPos 1 1) "bob" aliceFirst = (Normal Done, b') /\
    cellOf b' (mkPos 1 1) = Some (mkSlot "b" true (Some "bob")).
Proof.
  destruct (flipFirst_takes_a_free_card aliceFirst (mkPos 1 1) "bob" (mkSlot "b" false None)
              RI_aliceFirst)
    as (b' & H1 & H2 & H3 & _).
  - vm_compute. reflexivity.
  - left. reflexivity.
  - exists b'. auto.
Defined.

Lemma flipFirst_on_a_held_card_witness :
  flipFirst (mkPos 0 0) "bob" aliceFirst =
    (Thrown Contested, after (settleBeforeNewFirstMove "bob") aliceFirst) /\
  exists b',
    flipFirstAsync (mkPos 0 0) "bob" aliceFirst = (Normal (Await 0%nat), b') /\
    queueOf b' (mkPos 0 0) = [0%nat].
Proof.
  destruct (flipFirst_on_a_held_card aliceFirst (mkPos 0 0) "bob"
              (mkSlot "u" true (Some "alice")) "alice" RI_aliceFirst)
    as (H1 & b' & H2 & H3 & _).
  - vm_compute. reflexivity.
  - reflexivity.
  - discriminate.
  - split; [exact H1|]. exists b'. split; [exact H2 | exact H3].
Defined.

Lemma resumed_first_flip_retries_witness :
  flipFirstAsync_resume (mkPos 0 0) "bob" pairRemoved = (Thrown EmptySpace, pairRemoved).
Proof.
  pose proof (resumed_first_flip_retries pairRemoved (mkPos 0 0) "bob" RI_pairRemoved) as H.
  assert (Hw : withinB pairRemoved (mkPos 0 0) = true) by (vm_compute; reflexivity).
  assert (Hc : cellOf pairRemoved (mkPos 0 0) = None) by (vm_compute; reflexivity).
  specialize (H Hw). rewrite Hc in H. exact H.
Defined.

Lemma flipSecond_completes_the_turn_witness :
  exists b',
    flipSecond (mkPos 0 1) "alice" aliceFirst = (Normal tt, b') /\
    firstSelection b' = delete "alice" (firstSelection aliceFirst).
Proof.
  destruct (flipSecond_completes_the_turn aliceFirst "alice" (mkPos 0 0)
              (mkSlot "u" true (Some "alice")) (mkPos 0 1) (mkSlot "u" false None)
              RI_aliceFirst (proj2 (reachable_Inv _ reachable_aliceFirst)))
    as (b' & H1 & H2 & _).
  - vm_compute. reflexivity.
  - vm_compute. reflexivity.
  - vm_compute. reflexivity.
  - left. reflexivity.
  - exists b'. auto.
Defined.

Lemma settle_matched_wakes_heads_witness :
  cellOf (after (settleBeforeNewFirstMove "alice") twoWaiters) (mkPos 0 0) = None /\
  cellOf (after (settleBeforeNewFirstMove "alice") twoWaiters) (mkPos 0 1) = None /\
  queueOf (after (settleBeforeNewFirstMove "alice") twoWaiters) (mkPos 0 0) =
    drop 1 (queueOf twoWaiters (mkPos 0 0)) /\
  queueOf (after (settleBeforeNewFirstMove "alice") twoWaiters) (mkPos 0 1) =
    drop 1 (queueOf twoWaiters (mkPos 0 1)) /\
  resolved (after (settleBeforeNewFirstMove "alice") twoWaiters) =
    resolved twoWaiters ++ take 1 (queueOf twoWaiters (mkPos 0 0)) ++
    take 1 (queueOf twoWaiters (mkPos 0 1)) ++ watchers twoWaiters.
Proof.
  apply (settle_matched_wakes_heads "alice" (mkPos 0 0) (mkPos 0 1) twoWaiters).
  - exact RI_twoWaiters.
  - vm_compute. reflexivity.
  - discriminate.
Defined.

Lemma cleanup_turns_down_unclaimed_cards_witness :
  exists b',
    settleBeforeNewFirstMove "alice" aliceMismatched = (Normal tt, b') /\
    pending b' = <["alice" := None]> (pending aliceMismatched).
Proof.
  destruct (cleanup_turns_down_unclaimed_cards aliceMismatched "alice" (mkPos 0 0) (mkPos 0 2)
              RI_aliceMismatched)
    as (b' & H1 & _ & H3 & _).
  - vm_compute. reflexivity.
  - exists b'. auto.
Defined.

Lemma cleanup_runs_once_witness :
  fst (settleBeforeNewFirstMove "alice" aliceMatched) = Normal tt /\
  (pending (after (settleBeforeNewFirstMove "alice") aliceMatched) !! "alice" = None \/
   pending (after (settleBeforeNewFirstMove "alice") aliceMatched) !! "alice" = Some None) /\
  settleBeforeNewFirstMove "alice" (after (settleBeforeNewFirstMove "alice") aliceMatched) =
    (Normal tt, after (settleBeforeNewFirstMove "alice") aliceMatched).
Proof. apply (cleanup_runs_once aliceMatched "alice"). exact RI_aliceMatched. Defined.

Lemma newBoard_deals_the_labels_face_down_witness :
  exists b,
    newBoard 2 2 ["a"; "b"; "b"; "a"] = Normal b /\ WellFormed b /\
    rows b = 2 /\ cols b = 2.
Proof.
  destruct (newBoard_deals_the_labels_face_down 2 2 ["a"; "b"; "b"; "a"])
    as (b & H1 & H2 & H3 & H4 & _).
  - lia.
  - lia.
  - simpl. lia.
  - intros k l _ Hl.
    do 4 (destruct k as [|k]; [inversion Hl; reflexivity|]). inversion Hl.
  - exists b. auto.
Defined.

Lemma newBoard_rejects_bad_arguments_witness :
  newBoard 2 2 ["a"; "b"; "b"] = Thrown InternalMissingLabel /\
  newBoard (-1) 2 ["a"] = Thrown RIRowCount /\
  newBoard 1 (-1) ["a"] = Thrown RIColCount.
Proof.
  split; [|split].
  - apply (newBoard_rejects_bad_arguments 2 2 ["a"; "b"; "b"]); simpl; lia.
  - apply (newBoard_rejects_bad_arguments (-1) 2 ["a"]). lia.
  - apply (newBoard_rejects_bad_arguments 1 (-1) ["a"]); lia.
Defined.

Lemma parseFromFile_reads_a_board_file_witness :
  exists b,
    parseFromFile (String.concat eolCRLF samplePieces) = inr (Normal b) /\
    newBoard 2 2 ["a"; "b"; "b"; "a"] = Normal b.
Proof.
  destruct (parseFromFile_reads_a_board_file eolCRLF samplePieces 2 2 ["a"; "b"; "b"; "a"])
    as (b & H1 & H2 & _).
  - right. left. reflexivity.
  - repeat constructor.
  - vm_compute. reflexivity.
  - lia.
  - lia.
  - vm_compute. reflexivity.
  - reflexivity.
  - repeat constructor.
  - exists b. auto.
Defined.

Lemma map_composes_witness :
  exists b',
    map (fun l => prefixT (allX l)) perfect = (Normal tt, b') /\
    map prefixT (after (map allX) perfect) = (Normal tt, b').
Proof.
  destruct (map_composes allX prefixT perfect RI_perfect) as [_ H].
  apply H. intros q s _. split; vm_compute; reflexivity.
Defined.

Lemma mapCards_notifies_only_on_change_witness :
  exists b',
    mapCards "bob" allX watched = (Normal tt, b') /\
    grid b' = grid (after (map allX) watched).
Proof.
  destruct (mapCards_notifies_only_on_change "bob" allX watched) as (b' & H1 & H2 & _).
  - apply checkRep_RI. vm_compute. reflexivity.
  - intros q s _. vm_compute. reflexivity.
  - exists b'. auto.
Defined.

Lemma flip_alternates_first_and_second_witness :
  commands.flip "alice" 0 1 aliceFirst = flipSecondAsync (mkPos 0 1) "alice" aliceFirst /\
  firstSelection (after (commands.flip "alice" 0 1) aliceFirst) =
    delete "alice" (firstSelection aliceFirst).
Proof.
  pose proof (flip_alternates_first_and_second aliceFirst "alice" 0 1 RI_aliceFirst
                (proj2 (reachable_Inv _ reachable_aliceFirst))) as H.
  assert (Hf : firstSelection aliceFirst !! ("alice" : PlayerID) = Some (mkPos 0 0))
    by (vm_compute; reflexivity).
  rewrite Hf in H. destruct H as (H1 & _ & H3).
  - intros first [= <-]. eexists. vm_compute. reflexivity.
  - split; assumption.
Defined.

Lemma methods_fail_only_by_the_rules_witness :
  fst (flipFirst (mkPos 0 0) "bob" aliceAndBob) = Thrown Contested /\
  (Contested = OutOfBounds \/ Contested = EmptySpace \/ Contested = Contested).
Proof.
  pose proof (methods_fail_only_by_the_rules aliceAndBob RI_aliceAndBob
                (proj2 (reachable_Inv _ reachable_aliceAndBob))) as (_ & _ & H & _).
  assert (E : fst (flipFirst (mkPos 0 0) "bob" aliceAndBob) = Thrown Contested)
    by (vm_compute; reflexivity).
  split; [exact E | exact (H _ _ _ E)].
Defined.

(** ** A second flip after the first card has been removed *)

(** When the card recorded as a player's first selection is no longer
    on the board, a second flip by that player never succeeds.  On an
    empty or outside position it fails [EmptyTarget], on a face-up
    controlled card [SecondContested]; in both cases only the selection
    is cleared, nothing is released and no waiter is woken.  On any
    other card it throws the internal error: the card is turned face up
    if it was down, no watcher is resolved, and the selection is kept. *)
Theorem flipSecond_after_first_card_removed b pos p first :
  RI b -> firstSelection b !! p = Some first -> withinB b first = true ->
  cellOf b first = None ->
  match (if withinB b pos then cellOf b pos else None) with
  | None =>
      flipSecond pos p b =
        (Thrown EmptyTarget, set_firstSelection (delete p (firstSelection b)) b)
  | Some s2 =>
      if faceUp s2 && bool_decide (controller s2 <> None)
      then flipSecond pos p b =
             (Thrown SecondContested, set_firstSelection (delete p (firstSelection b)) b)
      else exists b',
             flipSecond pos p b = (Thrown InternalFirstMissing, b') /\
             cellOf b' pos = Some (withFaceUp true s2) /\
             (forall q, q <> pos -> cellOf b' q = cellOf b q) /\
             firstSelection b' = firstSelection b /\ pending b' = pending b /\
             waitQueues b' = waitQueues b /\
             watchers b' = watchers b /\ resolved b' = resolved b
  end.
Proof.
  intros H Hf Hwf Hc1.
  pose proof (flipSecond_first_gone b pos p first H Hf Hwf Hc1) as Hrun.
  rewrite (releaseB_first_gone b p first Hc1) in Hrun.
  destruct (withinB b pos) eqn:Hw; [|exact Hrun].
  destruct (cellOf b pos) as [s2|] eqn:Hc2; [|exact Hrun].
  destruct (faceUp s2 && bool_decide (controller s2 <> None)); [exact Hrun|].
  eexists. split; [exact Hrun|].
  destruct (faceUp s2) eqn:Eu.
  - repeat split; try reflexivity.
    rewrite Hc2. destruct s2 as [l u ctl]. simpl in Eu. subst u. reflexivity.
  - repeat split; try reflexivity.
    + cells. rewrite decide_True by reflexivity. rewrite Hc2. reflexivity.
    + intros q Hq. cells. rewrite decide_False by congruence. reflexivity.
Qed.

Lemma flipSecond_after_first_card_removed_witness :
  exists b',
    flipSecond (mkPos 2 2) "dana" firstRemoved = (Thrown InternalFirstMissing, b') /\
    cellOf b' (mkPos 2 2) = Some (mkSlot "x" true None) /\
    firstSelection b' = firstSelection firstRemoved /\
    watchers b' = watchers firstRemoved /\ resolved b' = resolved firstRemoved.
Proof.
  pose proof (flipSecond_after_first_card_removed firstRemoved (mkPos 2 2) "dana" (mkPos 0 0)
                RI_firstRemoved) as H.
  assert (Hc : (if withinB firstRemoved (mkPos 2 2) then cellOf firstRemoved (mkPos 2 2)
                else None) = Some (mkSlot "x" false None)) by (vm_compute; reflexivity).
  rewrite Hc in H. cbn [faceUp andb] in H.
  destruct H as (b' & H1 & H2 & _ & H4 & _ & _ & H7 & H8).
  - vm_compute. reflexivity.
  - vm_compute. reflexivity.
  - vm_compute. reflexivity.
  - exists b'. repeat split; assumption.
Defined.
